(** * RivalsPatcher: the tree patcher ([copy_tree_over]), the sky patcher
      and the program around them

    A shallow embedding of [RivalsPatcher.py] over a finite-map model of the
    file system: the file operations ([backup_original_files],
    [copy_tree_over], [patch_custom_sky]), the user verification
    ([load_user], [save_user], [verify_user]), the two searches
    ([find_bloxstrap_versions], [find_zip_candidate]) and [main]; the
    properties of the specification that concern them; and further
    properties of the code.

    Scope of the model.
    - A file system is a finite map from absolute paths (lists of
      components, the root being the empty list) to entries: a regular file
      with its bytes, or a directory.  There are no symbolic links, no
      permissions and no metadata; path components are compared exactly.
    - Python exceptions are values of [exn]; a computation is a function from
      the file system to an outcome and the file system it leaves behind, so
      the mutations performed before an exception is raised stay visible.
    - A global name of the module is looked up when the function runs: the
      binding of [datetime] is therefore an input of [copy_tree_over], and
      [module_globals] is the name space the module really has.
    - The lines typed at the console are a list that [input] reads from;
      at the end of the list [input] raises [EOFError].
    - Console output ([print]), the console window ([set_opacity],
      [clear_console], [loading_animation], the title and the pause) and the
      installation of packages ([ensure_packages]) are not modelled.

    The properties come in two groups.  The first is about the module as it
    is, where [datetime] is not bound and every call of [copy_tree_over]
    ends in an exception.  The second is about what the code does by design,
    with [datetime] bound: the backup directory made in every call, the
    directories made by the discovery walk, the sky directory emptied before
    it is patched, and, for calls that nothing is in the way of, the
    contract of the patch operation (counts, copies, backups, frame, second
    call).

    The last parts of the file hold for every call: what the patch operation
    and the sky patcher can touch and what they never delete; the user
    verification and the two searches; and [main], in the module as it
    is. *)

From Stdlib Require Import Ascii String ZArith.
From stdpp Require Import gmap strings list fin_maps.

Open Scope string_scope.
Open Scope list_scope.

(** ** Paths *)

Abbreviation path := (list string).

(** [p.parent]: the root is its own parent. *)
Definition parent (p : path) : path := removelast p.

(** [os.path.basename]. *)
Definition basename (p : path) : string := List.last p "".

(** [p.relative_to(base)]: [None] stands for the [ValueError] that pathlib
    raises when [base] is not a prefix of [p]. *)
Fixpoint relative_to (p base : path) {struct base} : option path :=
  match base, p with
  | [], _ => Some p
  | b :: base', c :: p' => if decide (b = c) then relative_to p' base' else None
  | _ :: _, [] => None
  end.

(** ** File system *)

Inductive entry : Type :=
  | File (data : string)
  | Dir.

Global Instance entry_eq_dec : EqDecision entry.
Proof. solve_decision. Defined.

Abbreviation fs := (gmap path entry).

(** The root always exists and is a directory. *)
Definition stat (s : fs) (p : path) : option entry :=
  match p with
  | [] => Some Dir
  | _ => s !! p
  end.

Definition path_exists (s : fs) (p : path) : bool :=
  match stat s p with Some _ => true | None => false end.

Definition is_dir (s : fs) (p : path) : bool :=
  match stat s p with Some Dir => true | _ => false end.

Definition is_file (s : fs) (p : path) : bool :=
  match stat s p with Some (File _) => true | _ => false end.

(** ** Exceptions and the state-and-exception monad *)

Inductive exn : Type :=
  | NameError (name : string)
  | ValueError
  | FileExistsError (p : path)
  | FileNotFoundError (p : path)
  | NotADirectoryError (p : path)
  | IsADirectoryError (p : path)
  | SameFileError (p : path)
  | EOFError
  | RuntimeError.

(** [IOError] is an alias of [OSError]; [shutil.SameFileError] derives from
    it, [NameError] and [ValueError] do not.  Nor does [RuntimeError], which
    [zipfile] raises for a member that it cannot extract. *)
Definition is_OSError (e : exn) : bool :=
  match e with
  | NameError _ | ValueError | EOFError | RuntimeError => false
  | _ => true
  end.

Inductive outcome (A : Type) : Type :=
  | Return (a : A)
  | Raise (e : exn).
Arguments Return {A} a.
Arguments Raise {A} e.

Definition M (A : Type) : Type := fs -> outcome A * fs.

Definition ret {A} (a : A) : M A := fun s => (Return a, s).

Definition raise {A} (e : exn) : M A := fun s => (Raise e, s).

Definition bind {A B} (c : M A) (k : A -> M B) : M B :=
  fun s =>
    match c s with
    | (Return a, s') => k a s'
    | (Raise e, s') => (Raise e, s')
    end.

Notation "'let!' x ':=' c 'in' k" := (bind c (fun x => k))
  (at level 10, x pattern, c at level 100, k at level 200).

(** A [for] loop threading an accumulator. *)
Fixpoint for_each {A B} (body : A -> B -> M A) (acc : A) (l : list B) : M A :=
  match l with
  | [] => ret acc
  | x :: l' => let! acc' := body acc x in for_each body acc' l'
  end.

(** ** Library calls *)

(** [Path.mkdir(parents=True, exist_ok=True)].  [os.mkdir] succeeds on a
    missing name in an existing directory; with [parents] the missing
    ancestors are created first; with [exist_ok] an existing directory is
    accepted, an existing regular file is not ([FileExistsError] for the
    path itself, [NotADirectoryError] below a regular file).  [mkdir_from
    base rest] descends from the existing directory [base]. *)
Fixpoint mkdir_from (base : path) (rest : list string) : M unit :=
  fun s =>
    match rest with
    | [] => (Return tt, s)
    | c :: rest' =>
        let p := base ++ [c] in
        match s !! p with
        | Some Dir => mkdir_from p rest' s
        | Some (File _) =>
            (Raise (match rest' with
                    | [] => FileExistsError p
                    | _ => NotADirectoryError (p ++ rest')
                    end), s)
        | None => mkdir_from p rest' (<[p := Dir]> s)
        end
    end.

Definition mkdir_parents (p : path) : M unit := mkdir_from [] p.

(** [open(p, 'rb').read()]. *)
Definition read_file (p : path) : M string :=
  fun s =>
    match stat s p with
    | Some (File data) => (Return data, s)
    | Some Dir => (Raise (IsADirectoryError p), s)
    | None => (Raise (FileNotFoundError p), s)
    end.

(** [open(p, 'wb').write(data)]: the file is created in an existing
    directory, or truncated and rewritten. *)
Definition write_file (p : path) (data : string) : M unit :=
  fun s =>
    match stat s p with
    | Some Dir => (Raise (IsADirectoryError p), s)
    | Some (File _) => (Return tt, <[p := File data]> s)
    | None =>
        match stat s (parent p) with
        | Some Dir => (Return tt, <[p := File data]> s)
        | Some (File _) => (Raise (NotADirectoryError p), s)
        | None => (Raise (FileNotFoundError p), s)
        end
    end.

(** [shutil.copy2(src, dst)]: a destination that is a directory receives the
    file under the source's base name; the same file on both sides is
    refused; otherwise the source is opened for reading and the destination
    for writing, and the bytes are copied. *)
Definition copy2 (src dst : path) : M unit :=
  fun s =>
    let dst := if is_dir s dst then dst ++ [basename src] else dst in
    if decide (src = dst) then
      if path_exists s src then (Raise (SameFileError src), s)
      else (Raise (FileNotFoundError src), s)
    else
      (let! data := read_file src in write_file dst data) s.

(** [os.walk(top)], flattened to the paths [root / f] of the regular files it
    yields.  A file is found when every directory from [top] down to its
    parent is a directory; a missing [top], or one that is a regular file,
    yields nothing (the error of [scandir] is swallowed).  The order is that
    of the map; [scandir] promises none.

    [os.walk] is a generator and lists a directory when it reaches it; here
    the listing is taken when the loop starts.  The two give the same files
    as long as the body of the loop puts no regular file below [top]: so it
    is in the first walk of [copy_tree_over], whose body only makes
    directories, and in the second walk when neither the destination nor
    the backup root lies in the source tree. *)
Fixpoint all_dirs (s : fs) (base : path) (rel : list string) : bool :=
  match rel with
  | [] => false
  | [_] => is_dir s base
  | c :: rel' => is_dir s base && all_dirs s (base ++ [c]) rel'
  end.

Definition walked (s : fs) (top : path) (pe : path * entry) : bool :=
  match pe.2, relative_to pe.1 top with
  | File _, Some rel => all_dirs s top rel
  | _, _ => false
  end.

Definition walk_files (s : fs) (top : path) : list path :=
  (filter (fun pe => walked s top pe = true) (map_to_list s)).*1.

Definition os_walk (top : path) : M (list path) :=
  fun s => (Return (walk_files s top), s).


(** ** The module's name space *)

(** [datetime_now g] is the text that
    [datetime.now().strftime('%Y%m%d_%H%M%S')] evaluates to when the call
    runs, and [None] when the name [datetime] is not bound. *)
Record globals : Type := { datetime_now : option string }.

(** The imports of the module (lines 2-6 and 68-74) bind [os], [sys],
    [subprocess], [time], [Path], [zipfile], [tempfile], [Fore], [Style],
    [init], [shutil], [getpass], [itertools] and [ctypes]; nothing binds
    [datetime]. *)
Definition module_globals : globals := {| datetime_now := None |}.

Definition timestamp_now (g : globals) : M string :=
  match datetime_now g with
  | Some ts => ret ts
  | None => raise (NameError "datetime")
  end.

(** ** File operations and backup *)

Definition relative (p base : path) : M path :=
  match relative_to p base with
  | Some rel => ret rel
  | None => raise ValueError
  end.

Definition dst_exists (p : path) : M bool := fun s => (Return (path_exists s p), s).

Definition backup_step (target_root backup_root : path) (_ : unit) (src : path) : M unit :=
  let! rel := relative src target_root in
  let dest := backup_root ++ rel in
  let! _ := mkdir_parents (parent dest) in
  copy2 src dest.

Definition backup_original_files (target_root : path) (files_to_replace : list path)
    (backup_root : path) : M unit :=
  for_each (backup_step target_root backup_root) tt files_to_replace.

(** The body of the first walk (lines 162-168). *)
Definition discover_step (src_root dst_root : path) (files_to_replace : list path)
    (src_file : path) : M (list path) :=
  let! rel := relative src_file src_root in
  let dst_file := dst_root ++ rel in
  let! _ := mkdir_parents (parent dst_file) in
  let! e := dst_exists dst_file in
  ret (if e then files_to_replace ++ [dst_file] else files_to_replace).

(** The body of the second walk (lines 177-185); the accumulator is
    [(copied, overwritten)]. *)
Definition copy_step (src_root dst_root : path) (acc : nat * nat)
    (src_file : path) : M (nat * nat) :=
  let! rel := relative src_file src_root in
  let dst_file := dst_root ++ rel in
  let! _ := mkdir_parents (parent dst_file) in
  let! e := dst_exists dst_file in
  let overwritten := if e then S acc.2 else acc.2 in
  let! _ := copy2 src_file dst_file in
  ret (S acc.1, overwritten).

Definition backup_root_of (dst_root : path) (timestamp : string) : path :=
  parent dst_root ++ ["backups"; timestamp].

Definition copy_tree_over (g : globals) (src_root dst_root : path)
    : M (nat * nat * path) :=
  let! files := os_walk src_root in
  let! files_to_replace := for_each (discover_step src_root dst_root) [] files in
  let! timestamp := timestamp_now g in
  let backup_root := backup_root_of dst_root timestamp in
  let! _ := mkdir_parents backup_root in
  let! _ := match files_to_replace with
            | [] => ret tt
            | _ => backup_original_files dst_root files_to_replace backup_root
            end in
  let! files := os_walk src_root in
  let! counts := for_each (copy_step src_root dst_root) (0, 0) files in
  ret (counts.1, counts.2, backup_root).


(** ** Sky patcher *)

(** [str.strip()] and [str.lower()] on ASCII text. *)
Definition is_space (a : ascii) : bool :=
  let n := nat_of_ascii a in
  ((9 <=? n)%nat && (n <=? 13)%nat) || ((28 <=? n)%nat && (n <=? 32)%nat).

Fixpoint lstrip (t : string) : string :=
  match t with
  | String a t' => if is_space a then lstrip t' else t
  | EmptyString => EmptyString
  end.

Fixpoint rstrip (t : string) : string :=
  match t with
  | String a t' =>
      match rstrip t' with
      | EmptyString => if is_space a then EmptyString else String a EmptyString
      | r => String a r
      end
  | EmptyString => EmptyString
  end.

Definition strip (t : string) : string := rstrip (lstrip t).

Definition lower_ascii (a : ascii) : ascii :=
  let n := nat_of_ascii a in
  if (65 <=? n)%nat && (n <=? 90)%nat then ascii_of_nat (n + 32) else a.

Fixpoint lower (t : string) : string :=
  match t with
  | String a t' => String (lower_ascii a) (lower t')
  | EmptyString => EmptyString
  end.

(** [int(text)] on ASCII text: an optional sign, then decimal digits, single
    underscores allowed between digits; [None] stands for [ValueError]. *)
Definition digit_of (a : ascii) : option Z :=
  let n := nat_of_ascii a in
  if (48 <=? n)%nat && (n <=? 57)%nat then Some (Z.of_nat (n - 48)) else None.

Fixpoint digits (acc : Z) (after_digit : bool) (t : string) : option Z :=
  match t with
  | EmptyString => if after_digit then Some acc else None
  | String a t' =>
      match digit_of a with
      | Some d => digits (10 * acc + d) true t'
      | None =>
          if after_digit && bool_decide (a = "_"%char) then digits acc false t' else None
      end
  end.

Definition py_int (t : string) : option Z :=
  match strip t with
  | String "+" r => digits 0 false r
  | String "-" r => Z.opp <$> digits 0 false r
  | r => digits 0 false r
  end.

(** What the sky patcher takes from outside the file system: the answers
    typed at the two prompts, the home directory, the fresh directory that
    [tempfile.TemporaryDirectory()] makes, and the decoder of the zip
    format, which gives the members of an archive (path inside the archive
    and entry) or [None] for [BadZipFile]. *)
Record session : Type := {
  stdin : list string;
  home : path;
  tmpdir : path;
  unzip : string -> option (list (path * entry));
}.

Definition accepted (answer : string) : bool :=
  let choice := lower (strip answer) in
  bool_decide (choice = "y") || bool_decide (choice = "yes").

(** [shutil.rmtree(p, ignore_errors=True)] and [p.unlink()] with its errors
    swallowed: the entry and everything below it go. *)
Definition rmtree (p : path) (s : fs) : fs :=
  filter (fun pe => ¬ p `prefix_of` pe.1) s.

(** [list(p.iterdir())]. *)
Definition iterdir (p : path) : M (list path) :=
  fun s =>
    match stat s p with
    | Some Dir =>
        (Return (filter (fun q => q ≠ [] ∧ parent q = p) (map_to_list s).*1), s)
    | Some (File _) => (Raise (NotADirectoryError p), s)
    | None => (Raise (FileNotFoundError p), s)
    end.

(** [zf.extractall(target)]. *)
Definition extract_member (target : path) (_ : unit) (m : path * entry) : M unit :=
  match m.2 with
  | Dir => mkdir_parents (target ++ m.1)
  | File data =>
      let! _ := mkdir_parents (parent (target ++ m.1)) in
      write_file (target ++ m.1) data
  end.

Definition extractall (members : list (path * entry)) (target : path) : M unit :=
  for_each (extract_member target) tt members.

(** Lines 266-273: every child of the sky directory is removed. *)
Definition purge_step (_ : unit) (child : path) : M unit :=
  fun s => (Return tt, rmtree child s).

Definition sky_dir_of (target_version : path) : path :=
  target_version ++ ["PlatformContent"; "pc"; "textures"; "sky"].

(** Lines 263-280, from the selected skybox on. *)
Definition apply_sky (g : globals) (selected target_version : path) : M unit :=
  let target_sky_dir := sky_dir_of target_version in
  let! there := dst_exists target_sky_dir in
  let! _ := if there : bool
            then let! children := iterdir target_sky_dir in
                 for_each purge_step tt children
            else mkdir_parents target_sky_dir in
  let! _ := copy_tree_over g selected target_sky_dir in
  ret tt.

(** [with tempfile.TemporaryDirectory() as tmpdir]: the directory is removed
    when the block is left, also by an exception. *)
Definition with_tempdir {A} (tmp : path) (body : M A) : M A :=
  fun s =>
    match mkdir_parents tmp s with
    | (Return _, s1) => let '(r, s2) := body s1 in (r, rmtree tmp s2)
    | (Raise e, s1) => (Raise e, s1)
    end.

Definition patch_custom_sky (g : globals) (io : session) (target_version : path) : M unit :=
  match stdin io !! 0%nat with
  | None => raise EOFError
  | Some answer =>
      if negb (accepted answer) then ret tt
      else
        let sky_zip := home io ++ ["Documents"; "rivalsPayload"; "skyboxes.zip"] in
        let! there := dst_exists sky_zip in
        if negb there then ret tt
        else
          with_tempdir (tmpdir io)
            (let! archive := read_file sky_zip in
             match unzip io archive with
             | None => ret tt
             | Some members =>
                 let! _ := extractall members (tmpdir io) in
                 let! entries := iterdir (tmpdir io) in
                 fun s =>
                   let sky_dirs := List.filter (is_dir s) entries in
                   match sky_dirs with
                   | [] => (Return tt, s)
                   | _ =>
                       match stdin io !! 1%nat with
                       | None => (Raise EOFError, s)
                       | Some number =>
                           match py_int number with
                           | None => (Return tt, s)
                           | Some choice_num =>
                               if negb ((1 <=? choice_num)%Z
                                        && (choice_num <=? Z.of_nat (length sky_dirs))%Z)
                               then (Return tt, s)
                               else
                                 match sky_dirs !! Z.to_nat (choice_num - 1) with
                                 | None => (Return tt, s)
                                 | Some selected => apply_sky g selected target_version s
                                 end
                           end
                       end
                   end
             end)
  end.


(** ** User verification *)

(** Text mode ([open(name, "r")], [open(name, "w")]).  Reading translates
    every line end, [CR LF] or [CR] alone, to [LF]; writing translates [LF]
    to [os.linesep], which is [CR LF] on Windows and [LF] elsewhere.  The
    text is ASCII: the encoding is not modelled. *)
Definition CR : ascii := ascii_of_nat 13.
Definition LF : ascii := ascii_of_nat 10.

Fixpoint universal_newlines (after_cr : bool) (t : string) : string :=
  match t with
  | EmptyString => EmptyString
  | String a t' =>
      if Ascii.eqb a CR then String LF (universal_newlines true t')
      else if Ascii.eqb a LF
           then (if after_cr then universal_newlines false t'
                 else String LF (universal_newlines false t'))
           else String a (universal_newlines false t')
  end.

Fixpoint to_linesep (crlf : bool) (t : string) : string :=
  match t with
  | EmptyString => EmptyString
  | String a t' =>
      if Ascii.eqb a LF && crlf then String CR (String LF (to_linesep crlf t'))
      else String a (to_linesep crlf t')
  end.

(** A carriage return somewhere in the text. *)
Fixpoint has_CR (t : string) : bool :=
  match t with
  | EmptyString => false
  | String a t' => Ascii.eqb a CR || has_CR t'
  end.

(** [load_user] (lines 112-116): [lock] is the path of [user.lock] in the
    working directory; the file is read in text mode. *)
Definition load_user (lock : path) : M (option string) :=
  let! there := dst_exists lock in
  if there : bool
  then let! data := read_file lock in
       ret (Some (strip (universal_newlines false data)))
  else ret None.

(** [save_user] (lines 118-120): the file is written in text mode; [crlf]
    says whether [os.linesep] is [CR LF]. *)
Definition save_user (crlf : bool) (lock : path) (username : string) : M unit :=
  write_file lock (to_linesep crlf username).

(** Lines 135-137: answers are read and stripped until one is ["1"] or
    ["2"].  The result is that answer with the lines of input left, and
    [None] when the input ends first ([input] raises [EOFError]). *)
Fixpoint read_choice (inputs : list string) : option (string * list string) :=
  match inputs with
  | [] => None
  | answer :: rest =>
      let choice := strip answer in
      if bool_decide (choice = "1") || bool_decide (choice = "2")
      then Some (choice, rest)
      else read_choice rest
  end.

(** [verify_user] (lines 122-146): [user] is what [getpass.getuser()]
    gives, [inputs] the lines that [input] will read; the result is the
    user name with the lines of input left.  A saved name that is empty is
    as good as none ([if saved_user]). *)
Definition verify_user (crlf : bool) (user : string) (lock : path) (inputs : list string)
    : M (string * list string) :=
  let! saved_user := load_user lock in
  match saved_user with
  | Some (String a t) => ret (String a t, inputs)
  | _ =>
      match read_choice inputs with
      | None => raise EOFError
      | Some (choice, rest) =>
          if bool_decide (choice = "1")
          then let! _ := save_user crlf lock user in ret (user, rest)
          else
            match rest with
            | [] => raise EOFError
            | answer :: rest' =>
                let manual := strip answer in
                let! _ := save_user crlf lock manual in ret (manual, rest')
            end
      end
  end.

(** ** Bloxstrap helpers *)

(** [max(best :: l, key=key)]: the first of the items whose key is
    greatest. *)
Fixpoint max_by (key : path → Z) (best : path) (l : list path) : path :=
  match l with
  | [] => best
  | d :: l' => max_by key (if (key best <? key d)%Z then d else best) l'
  end.

(** [find_bloxstrap_versions] (lines 189-197).  The file system of the model
    keeps no times: [mtime] gives [p.stat().st_mtime].  Both
    [FileNotFoundError]s are raised by hand, with a message that names
    [versions_path]. *)
Definition find_bloxstrap_versions (mtime : path → Z) (local_appdata : path) : M path :=
  let versions_path := local_appdata ++ ["Bloxstrap"; "Versions"] in
  let! there := dst_exists versions_path in
  if negb there then raise (FileNotFoundError versions_path)
  else
    let! children := iterdir versions_path in
    fun s =>
      match List.filter (is_dir s) children with
      | [] => (Raise (FileNotFoundError versions_path), s)
      | d :: subdirs => (Return (max_by mtime d subdirs), s)
      end.

(** [sub in t]. *)
Fixpoint contains (sub t : string) : bool :=
  String.prefix sub t
  || match t with
     | String _ t' => contains sub t'
     | EmptyString => false
     end.

(** [t.endswith(suffix)]. *)
Fixpoint ends_with (suffix t : string) : bool :=
  String.eqb suffix t
  || match t with
     | String _ t' => ends_with suffix t'
     | EmptyString => false
     end.

(** [t.strip(c)] for a single character [c]. *)
Fixpoint lstrip_char (c : ascii) (t : string) : string :=
  match t with
  | String a t' => if Ascii.eqb a c then lstrip_char c t' else t
  | EmptyString => EmptyString
  end.

Fixpoint rstrip_char (c : ascii) (t : string) : string :=
  match t with
  | String a t' =>
      match rstrip_char c t' with
      | EmptyString => if Ascii.eqb a c then EmptyString else String a EmptyString
      | r => String a r
      end
  | EmptyString => EmptyString
  end.

Definition strip_char (c : ascii) (t : string) : string := rstrip_char c (lstrip_char c t).

Definition double_quote : ascii := ascii_of_nat 34.

(** [list(dir.glob('*' + suffix))]: the children of the directory [dir]
    whose name ends in [suffix], in the order of the map; nothing when [dir]
    is not a directory.  Names are compared exactly, as everywhere in this
    model. *)
Definition glob_ending (suffix : string) (dir : path) (s : fs) : list path :=
  if is_dir s dir
  then filter (fun q => q ≠ [] ∧ parent q = dir ∧ ends_with suffix (basename q) = true)
         (map_to_list s).*1
  else [].

(** Line 209. *)
Definition dark_or_texture (z : path) : bool :=
  let name := lower (basename z) in
  contains "dark" name || contains "texture" name.

(** [find_zip_candidate] (lines 199-219): [expanduser] gives
    [Path(text).expanduser()], [inputs] the lines that [input] will read;
    the result is the path of the archive with the lines of input left.
    The [FileNotFoundError] of line 215 carries a message and no path. *)
Definition find_zip_candidate (home : path) (expanduser : string → path)
    (inputs : list string) : M (path * list string) :=
  fun s =>
    let default_zip := home ++ ["Documents"; "rivalsPayload"; "dark-textures-rivals.zip"] in
    if path_exists s default_zip then (Return (default_zip, inputs), s)
    else
      let search_dir := home ++ ["Documents"; "rivalsPayload"] in
      let zips := if path_exists s search_dir then glob_ending ".zip" search_dir s else [] in
      match zips with
      | z0 :: _ =>
          match List.find dark_or_texture zips with
          | Some z => (Return (z, inputs), s)
          | None => (Return (z0, inputs), s)
          end
      | [] =>
          match inputs with
          | [] => (Raise EOFError, s)
          | answer :: rest =>
              let user_input := strip_char double_quote answer in
              if bool_decide (user_input = "") then (Raise (FileNotFoundError []), s)
              else
                let z := expanduser user_input in
                if path_exists s z then (Return (z, rest), s)
                else (Raise (FileNotFoundError z), s)
          end
      end.

(** ** Main *)

(** [try: body except Exception: handler]; every exception of the model is
    an [Exception]. *)
Definition try_except {A} (body : M A) (handler : exn → M A) : M A :=
  fun s =>
    match body s with
    | (Return a, s') => (Return a, s')
    | (Raise e, s') => handler e s'
    end.

(** [any(top.rglob('*'))]: some entry lies below [top], with directories all
    the way down to it. *)
Definition rglob_any (s : fs) (top : path) : bool :=
  existsb (fun q => match relative_to q top with
                    | Some rel => all_dirs s top rel
                    | None => false
                    end) (map_to_list s).*1.

(** What [main] takes from outside the file system besides the [session]:
    whether the process runs as administrator ([is_admin], lines 96-100),
    whether [os.linesep] is [CR LF], the name that [getpass.getuser()]
    gives, the path of [user.lock] in the working directory, the directory
    that the environment variable [LOCALAPPDATA] names ([None] when it is
    unset or empty), the modification times, [Path.expanduser], the fresh
    directory that the first [tempfile.TemporaryDirectory()] makes, and, for
    an archive, the index of the first member that [zipfile] cannot extract
    ([None] when it can extract them all). *)
Record machine : Type := {
  is_admin : bool;
  linesep_crlf : bool;
  getuser : string;
  user_lock : path;
  LOCALAPPDATA : option path;
  st_mtime : path → Z;
  expanduser : string → path;
  textures_tmpdir : path;
  unextractable : string → option nat;
}.

(** How [main] ends when no exception leaves it: it returns, or it has
    asked for a new process with administrator rights and calls
    [sys.exit()]. *)
Inductive ending : Type :=
  | Finished
  | Exited.

(** Lines 339-368: the archive is unpacked and copied over the textures.
    The result is [false] when [main] returns from inside the block.
    [zf.extractall] writes the members one after the other.  For a file that
    is no archive [zipfile] raises [BadZipFile], which line 345 catches; for
    a member that it cannot extract (an encrypted member, an unsupported
    compression method, damaged data) it raises [RuntimeError], its subclass
    [NotImplementedError] or [zlib.error], which line 345 does not catch and
    for which [RuntimeError] stands here. *)
Definition extract_and_copy (g : globals) (m : machine) (io : session)
    (zip_path target_textures : path) : M bool :=
  with_tempdir (textures_tmpdir m)
    (let! archive := read_file zip_path in
     match unzip io archive with
     | None => ret false
     | Some members =>
         let! _ := match unextractable m archive with
                   | Some n =>
                       let! _ := extractall (take n members) (textures_tmpdir m) in
                       raise RuntimeError
                   | None => extractall members (textures_tmpdir m)
                   end in
         let! entries := iterdir (textures_tmpdir m) in
         fun s =>
           let src_root := match entries with
                           | [d] => if is_dir s d then d else textures_tmpdir m
                           | _ => textures_tmpdir m
                           end in
           if negb (rglob_any s src_root) then (Return false, s)
           else
             try_except
               (let! _ := copy_tree_over g src_root target_textures in ret true)
               (fun _ => ret false) s
     end).

(** [main] (lines 283-376).  The console (clearing, opacity, title, pause)
    is not modelled. *)
Definition main (g : globals) (m : machine) (io : session) : M ending :=
  if negb (is_admin m) then ret Exited
  else
    let! verified :=
      verify_user (linesep_crlf m) (getuser m) (user_lock m) (stdin io) in
    match verified.2 with
    | [] => raise EOFError
    | answer :: inputs =>
        let local_appdata := default (home io ++ ["AppData"; "Local"]) (LOCALAPPDATA m) in
        if negb (accepted answer) then
          let! _ := try_except
                      (let! latest_version :=
                         find_bloxstrap_versions (st_mtime m) local_appdata in
                       patch_custom_sky g
                         {| stdin := inputs; home := home io; tmpdir := tmpdir io;
                            unzip := unzip io |} latest_version)
                      (fun _ => ret tt) in
          ret Finished
        else
          let! located := try_except
                            (let! latest_version :=
                               find_bloxstrap_versions (st_mtime m) local_appdata in
                             ret (Some latest_version))
                            (fun _ => ret None) in
          match located with
          | None => ret Finished
          | Some latest_version =>
              let target_textures := latest_version ++ ["PlatformContent"; "pc"; "textures"] in
              let! found := try_except
                              (let! zip := find_zip_candidate (home io) (expanduser m) inputs in
                               ret (Some zip))
                              (fun _ => ret None) in
              match found with
              | None => ret Finished
              | Some (zip_path, inputs) =>
                  let! patched := extract_and_copy g m io zip_path target_textures in
                  if negb patched then ret Finished
                  else
                    let! _ := patch_custom_sky g
                                {| stdin := inputs; home := home io; tmpdir := tmpdir io;
                                   unzip := unzip io |} latest_version in
                    ret Finished
              end
          end
    end.

(** ** Relations between the file system before and after *)

(** [grows s s']: from [s] to [s'] nothing changed but directories that were
    missing and now exist. *)
Definition grows (s s' : fs) : Prop :=
  ∀ p, s' !! p = s !! p ∨ (s !! p = None ∧ s' !! p = Some Dir).

(** [touched_only W s s']: outside the paths in [W], nothing changed from [s]
    to [s'] but directories that were missing and now exist. *)
Definition touched_only (W : path → Prop) (s s' : fs) : Prop :=
  ∀ p, W p ∨ s' !! p = s !! p ∨ (s !! p = None ∧ s' !! p = Some Dir).

(** Directories stay directories. *)
Definition keeps_dirs (s s' : fs) : Prop :=
  ∀ p, s !! p = Some Dir → s' !! p = Some Dir.

(** The file system [s] with everything below the directory [d] removed. *)
Definition emptied (d : path) (s : fs) : fs :=
  filter (fun pe => ¬ (d `prefix_of` pe.1 ∧ pe.1 ≠ d)) s.

(** Every entry lies in a directory. *)
Definition well_formed (s : fs) : Prop :=
  ∀ p, is_Some (s !! p) → p ≠ [] → is_dir s (parent p) = true.

Definition well_formedb (s : fs) : bool :=
  forallb (fun p => match p with [] => true | _ => is_dir s (parent p) end)
    (map_to_list s).*1.

(** Well-formedness is kept. *)
Definition keeps_wf (s s' : fs) : Prop := well_formed s → well_formed s'.

(** Nothing goes away, and directories stay directories. *)
Definition persists (s s' : fs) : Prop :=
  ∀ p e, s !! p = Some e → ∃ e', s' !! p = Some e' ∧ (e = Dir → e' = Dir).

(** ** What a call with the clock bound starts from and arrives at *)

(** Neither path is above the other. *)
Definition apart (a b : path) : Prop := ¬ a `prefix_of` b ∧ ¬ b `prefix_of` a.

(** [rel] is the relative path of a regular file of the source tree. *)
Definition source_rel (s : fs) (src_root rel : path) : Prop :=
  src_root ++ rel ∈ walk_files s src_root.

(** Nothing in the way of the copy: where the source has a regular file the
    destination has no directory, and no regular file sits above that
    place. *)
Definition compatible (s : fs) (src_root dst_root : path) : Prop :=
  ∀ rel, source_rel s src_root rel →
    is_dir s (dst_root ++ rel) = false
    ∧ ∀ p, p `prefix_of` dst_root ++ rel → p ≠ dst_root ++ rel → is_file s p = false.

(** The directories that a call may have to create. *)
Definition scaffold (s0 : fs) (src_root dst_root backup_root p : path) : Prop :=
  p `prefix_of` backup_root
  ∨ ∃ rel, source_rel s0 src_root rel
           ∧ (p `prefix_of` parent (dst_root ++ rel)
              ∨ p `prefix_of` parent (backup_root ++ rel)).

(** [patched s0 src dst bk B C s]: [s] is [s0] after the files of relative
    paths [B] have been backed up and those of relative paths [C] copied. *)
Definition patched (s0 : fs) (src_root dst_root backup_root : path)
    (B C : list path) (s : fs) : Prop :=
  (∀ rel, rel ∈ C →
     source_rel s0 src_root rel ∧ s !! (dst_root ++ rel) = s0 !! (src_root ++ rel))
  ∧ (∀ rel, rel ∈ B →
       source_rel s0 src_root rel ∧ is_Some (s0 !! (dst_root ++ rel))
       ∧ s !! (backup_root ++ rel) = s0 !! (dst_root ++ rel))
  ∧ (∀ p, (∀ rel, rel ∈ C → p ≠ dst_root ++ rel) →
          (∀ rel, rel ∈ B → p ≠ backup_root ++ rel) →
          s !! p = s0 !! p
          ∨ (s0 !! p = None ∧ s !! p = Some Dir
             ∧ scaffold s0 src_root dst_root backup_root p)).

(** The destination path that the discovery walk records for a source file:
    the one that exists already. *)
Definition to_replace (s : fs) (src_root dst_root f : path) : option path :=
  match relative_to f src_root with
  | Some rel => if path_exists s (dst_root ++ rel) then Some (dst_root ++ rel) else None
  | None => None
  end.

Global Instance apart_dec (a b : path) : Decision (apart a b).
Proof. unfold apart. apply _. Defined.

Global Instance source_rel_dec (s : fs) (src_root rel : path) :
  Decision (source_rel s src_root rel).
Proof. unfold source_rel. apply _. Defined.

(** The paths above a path, the path included. *)
Definition prefixes (p : path) : list path :=
  (fun k => take k p) <$> seq 0 (S (length p)).

(** Nothing is in the way of a call with the clock at [ts]: the file system
    is well formed; the source root, the destination root and the backup
    root are apart from one another; the backup root does not exist and has
    no regular file above it; and where the source has a regular file the
    destination has no directory, and no regular file above that place. *)
Definition unobstructed (s : fs) (src_root dst_root : path) (ts : string) : Prop :=
  well_formed s
  ∧ apart src_root dst_root
  ∧ apart src_root (backup_root_of dst_root ts)
  ∧ ¬ dst_root `prefix_of` backup_root_of dst_root ts
  ∧ s !! backup_root_of dst_root ts = None
  ∧ (∀ p, p `prefix_of` backup_root_of dst_root ts → is_file s p = false)
  ∧ compatible s src_root dst_root.

(** The same, as a check that computes. *)
Definition ready (s : fs) (src_root dst_root : path) (ts : string) : bool :=
  let backup_root := backup_root_of dst_root ts in
  well_formedb s
  && bool_decide (apart src_root dst_root)
  && bool_decide (apart src_root backup_root)
  && bool_decide (¬ dst_root `prefix_of` backup_root)
  && negb (path_exists s backup_root)
  && forallb (fun q => negb (is_file s q)) (prefixes backup_root)
  && forallb (fun f =>
       match relative_to f src_root with
       | Some rel =>
           negb (is_dir s (dst_root ++ rel))
           && forallb (fun q => negb (is_file s q)) (prefixes (parent (dst_root ++ rel)))
       | None => true
       end) (walk_files s src_root).

(** ** Fixtures *)

(** The scenario of the specification: the payload brings [a.png] and a new
    [b.png]; the destination has an older [b.png] and [c.png]. *)
Definition payload : path := ["payload"].
Definition textures : path := ["game"; "textures"].

Definition scenario : fs :=
  list_to_map
    [ (["payload"], Dir);
      (["payload"; "a.png"], File "a-new");
      (["payload"; "b.png"], File "b-new-5KB");
      (["game"], Dir);
      (["game"; "textures"], Dir);
      (["game"; "textures"; "b.png"], File "b-old-3KB");
      (["game"; "textures"; "c.png"], File "c-old") ].

(** The payload has [icons/b.png]; the destination has a regular file named
    [icons]. *)
Definition clash : fs :=
  list_to_map
    [ (["payload"], Dir);
      (["payload"; "icons"], Dir);
      (["payload"; "icons"; "b.png"], File "b-new");
      (["game"], Dir);
      (["game"; "textures"], Dir);
      (["game"; "textures"; "icons"], File "not-a-directory") ].

(** Nothing to overwrite: the destination is an empty directory. *)
Definition fresh : fs :=
  list_to_map
    [ (["payload"], Dir);
      (["payload"; "a.png"], File "a-new");
      (["game"], Dir);
      (["game"; "textures"], Dir) ].

(** The payload has [b.png] and [ui/x.png]; in the destination [b.png] is a
    directory, which no backup copy can read, and [ui] is missing. *)
Definition unreadable : fs :=
  list_to_map
    [ (["payload"], Dir);
      (["payload"; "b.png"], File "b-new");
      (["payload"; "ui"], Dir);
      (["payload"; "ui"; "x.png"], File "x-new");
      (["game"], Dir);
      (["game"; "textures"], Dir);
      (["game"; "textures"; "b.png"], Dir) ].

(** The destination is itself named [backups], so the backup root lies in
    it; of the two files to replace, [a.png] is a directory that no backup
    copy can read. *)
Definition nested : fs :=
  list_to_map
    [ (["payload"], Dir);
      (["payload"; "a.png"], File "a-new");
      (["payload"; "b.png"], File "b-new");
      (["game"], Dir);
      (["game"; "backups"], Dir);
      (["game"; "backups"; "a.png"], Dir);
      (["game"; "backups"; "b.png"], File "b-old") ].

(** No payload directory at all. *)
Definition no_source : fs :=
  list_to_map
    [ (["game"], Dir);
      (["game"; "textures"], Dir);
      (["game"; "textures"; "c.png"], File "c-old") ].

(** A payload directory with a subdirectory and no regular file. *)
Definition empty_source : fs :=
  list_to_map
    [ (["payload"], Dir);
      (["payload"; "ui"], Dir);
      (["game"], Dir);
      (["game"; "textures"], Dir);
      (["game"; "textures"; "c.png"], File "c-old") ].

(** The sky patcher's world: the archive in the user's documents, whose
    members are the skyboxes [day] and [night]; the same [night] skybox
    already unpacked under [skies]; and a sky directory that has an older
    [a.png] and a [c.png]. *)
Definition sky_members : list (path * entry) :=
  [ (["day"], Dir); (["day"; "a.png"], File "a-day");
    (["night"], Dir); (["night"; "a.png"], File "a-night") ].

Definition sky_unzip (archive : string) : option (list (path * entry)) :=
  if bool_decide (archive = "PK-skyboxes") then Some sky_members else None.

Definition version : path := ["Versions"; "v1"].
Definition sky : path := sky_dir_of version.

Definition sky_world : fs :=
  list_to_map
    [ (["home"], Dir);
      (["home"; "Documents"], Dir);
      (["home"; "Documents"; "rivalsPayload"], Dir);
      (["home"; "Documents"; "rivalsPayload"; "skyboxes.zip"], File "PK-skyboxes");
      (["skies"], Dir);
      (["skies"; "night"], Dir);
      (["skies"; "night"; "a.png"], File "a-night");
      (["Versions"], Dir);
      (["Versions"; "v1"], Dir);
      (["Versions"; "v1"; "PlatformContent"], Dir);
      (["Versions"; "v1"; "PlatformContent"; "pc"], Dir);
      (["Versions"; "v1"; "PlatformContent"; "pc"; "textures"], Dir);
      (["Versions"; "v1"; "PlatformContent"; "pc"; "textures"; "sky"], Dir);
      (["Versions"; "v1"; "PlatformContent"; "pc"; "textures"; "sky"; "a.png"],
       File "a-old");
      (["Versions"; "v1"; "PlatformContent"; "pc"; "textures"; "sky"; "c.png"],
       File "c-old") ].

(** The user says yes and picks the second skybox of the list. *)
Definition sky_session : session :=
  {| stdin := ["y"; "2"]; home := ["home"]; tmpdir := ["tmp"; "sky"];
     unzip := sky_unzip |}.

(** A name space in which [datetime] is bound and the clock reads noon of
    1 January 2026. *)
Definition with_clock : globals := {| datetime_now := Some "20260101_120000" |}.

(** A later reading of the clock. *)
Definition with_later_clock : globals := {| datetime_now := Some "20260101_120500" |}.

(** The working directory of a first run, without [user.lock], and that of a
    later run. *)
Definition lock_file : path := ["cwd"; "user.lock"].

Definition first_run : fs := list_to_map [ (["cwd"], Dir) ].

Definition later_run : fs :=
  list_to_map [ (["cwd"], Dir); (["cwd"; "user.lock"], File "louis ") ].

(** A user's machine: two versions of the client under Bloxstrap, the older
    one with a sky directory; archives in the documents, none under the
    default name; no [user.lock] in the working directory. *)
Definition appdata : path := ["home"; "AppData"; "Local"].

Definition desk : fs :=
  list_to_map
    [ (["cwd"], Dir);
      (["home"], Dir);
      (["home"; "AppData"], Dir);
      (["home"; "AppData"; "Local"], Dir);
      (["home"; "AppData"; "Local"; "Bloxstrap"], Dir);
      (["home"; "AppData"; "Local"; "Bloxstrap"; "Versions"], Dir);
      (["home"; "AppData"; "Local"; "Bloxstrap"; "Versions"; "notes.txt"], File "notes");
      (["home"; "AppData"; "Local"; "Bloxstrap"; "Versions"; "v1"], Dir);
      (["home"; "AppData"; "Local"; "Bloxstrap"; "Versions"; "v2"], Dir);
      (["home"; "AppData"; "Local"; "Bloxstrap"; "Versions"; "v2"; "PlatformContent"], Dir);
      (["home"; "AppData"; "Local"; "Bloxstrap"; "Versions"; "v2"; "PlatformContent"; "pc"],
       Dir);
      (["home"; "AppData"; "Local"; "Bloxstrap"; "Versions"; "v2"; "PlatformContent"; "pc";
        "textures"], Dir);
      (["home"; "AppData"; "Local"; "Bloxstrap"; "Versions"; "v2"; "PlatformContent"; "pc";
        "textures"; "b.png"], File "b-old");
      (["home"; "Documents"], Dir);
      (["home"; "Documents"; "rivalsPayload"], Dir);
      (["home"; "Documents"; "rivalsPayload"; "readme.txt"], File "read me");
      (["home"; "Documents"; "rivalsPayload"; "other.zip"], File "PK-other");
      (["home"; "Documents"; "rivalsPayload"; "My-Textures.zip"], File "PK-textures") ].

(** [v2] is the newer version. *)
Definition desk_mtime (p : path) : Z :=
  if bool_decide (basename p = "v2") then 20 else 10.

(** The same machine without Bloxstrap. *)
Definition bare : fs :=
  list_to_map [ (["cwd"], Dir); (["home"], Dir) ].

(** Paths are typed with [/] between the components, from the root. *)
Fixpoint split_slash (acc t : string) : path :=
  match t with
  | EmptyString => if bool_decide (acc = "") then [] else [acc]
  | String a t' =>
      if bool_decide (a = "/"%char)
      then (if bool_decide (acc = "") then [] else [acc]) ++ split_slash "" t'
      else split_slash (acc ++ String a "")%string t'
  end.

Definition desk_expanduser (text : string) : path := split_slash "" text.

(** The texture archive holds one directory with two files. *)
Definition desk_unzip (archive : string) : option (list (path * entry)) :=
  if bool_decide (archive = "PK-textures")
  then Some [ (["pack"], Dir); (["pack"; "a.png"], File "a-new");
              (["pack"; "b.png"], File "b-new") ]
  else None.

Definition desk_machine : machine :=
  {| is_admin := true; linesep_crlf := true; getuser := "louis"; user_lock := lock_file;
     LOCALAPPDATA := None; st_mtime := desk_mtime; expanduser := desk_expanduser;
     textures_tmpdir := ["tmp"; "textures"]; unextractable := fun _ => None |}.

(** The same machine, where the second member of every archive is one that
    [zipfile] cannot extract. *)
Definition desk_machine_encrypted : machine :=
  {| is_admin := true; linesep_crlf := true; getuser := "louis"; user_lock := lock_file;
     LOCALAPPDATA := None; st_mtime := desk_mtime; expanduser := desk_expanduser;
     textures_tmpdir := ["tmp"; "textures"]; unextractable := fun _ => Some 1 |}.

(** The answers typed at the console. *)
Definition desk_session (answers : list string) : session :=
  {| stdin := answers; home := ["home"]; tmpdir := ["tmp"; "sky"]; unzip := desk_unzip |}.

(** * Properties *)

(** Closed statements about the fixtures are settled by evaluation. *)
Ltac evaluate :=
  match goal with |- _ = ?r => vm_cast_no_check (eq_refl r) end.

(** ** Loops *)

Section loops.
Context {A B : Type} (body : A -> B -> M A).

(** A relation between the file system before and after that every
    iteration keeps is kept by the loop. *)
Lemma for_each_state (R : relation fs) `{!Reflexive R} `{!Transitive R} (l : list B) :
  (∀ a x s, x ∈ l → R s (body a x s).2) →
  ∀ a s, R s (for_each body a l s).2.
Proof.
  induction l as [|x l IH]; intros Hbody a s; simpl.
  - reflexivity.
  - unfold bind. pose proof (Hbody a x s (list_elem_of_here _ _)) as Hx.
    destruct (body a x s) as [[a'|e] s1]; simpl in *; [|exact Hx].
    etransitivity; [exact Hx|]. apply IH. intros. apply Hbody. by right.
Qed.

(** The exceptions of the loop are those of its iterations. *)
Lemma for_each_raises (P : exn → Prop) (l : list B) :
  (∀ a x s e s', x ∈ l → body a x s = (Raise e, s') → P e) →
  ∀ a s e s', for_each body a l s = (Raise e, s') → P e.
Proof.
  induction l as [|x l IH]; intros Hbody a s e s'; simpl.
  - unfold ret. congruence.
  - unfold bind. destruct (body a x s) as [[a'|e1] s1] eqn:Hx.
    + apply IH. intros ? y **. eapply Hbody; [by right|eassumption].
    + intros [= <- <-]. eapply Hbody; [by left|eassumption].
Qed.
End loops.

(** ** Directory creation *)

Global Instance grows_refl : Reflexive grows.
Proof. intros s p. by left. Qed.

Global Instance grows_trans : Transitive grows.
Proof.
  intros s1 s2 s3 H12 H23 p.
  destruct (H12 p) as [E12|[N1 D2]], (H23 p) as [E23|[N2 D3]].
  - left. congruence.
  - right. split; congruence.
  - right. split; congruence.
  - congruence.
Qed.

Lemma grows_file (s s' : fs) (p : path) (data : string) :
  grows s s' → (s' !! p = Some (File data) ↔ s !! p = Some (File data)).
Proof. intros H. destruct (H p) as [E|[N D]]; rewrite ?E; [done|]. split; congruence. Qed.

Lemma mkdir_from_grows (rest : list string) (base : path) (s : fs) :
  grows s (mkdir_from base rest s).2.
Proof.
  revert base s. induction rest as [|c rest IH]; intros base s; simpl.
  - reflexivity.
  - destruct (s !! (base ++ [c])) as [[data|]|] eqn:E; simpl.
    + reflexivity.
    + apply IH.
    + etransitivity; [|apply IH].
      intros p. destruct (decide (base ++ [c] = p)) as [<-|Hne].
      * right. by rewrite lookup_insert_eq.
      * left. by rewrite lookup_insert_ne.
  Qed.

Lemma mkdir_from_raises (rest : list string) (base : path) (s s' : fs) (e : exn) :
  mkdir_from base rest s = (Raise e, s') → is_OSError e = true.
Proof.
  revert base s. induction rest as [|c rest IH]; intros base s; simpl.
  - congruence.
  - destruct (s !! (base ++ [c])) as [[data|]|]; eauto.
    intros [= <- <-]. by destruct rest.
Qed.

(** ** The discovery walk *)

Lemma relative_to_Some (p base rel : path) :
  relative_to p base = Some rel ↔ p = base ++ rel.
Proof.
  revert p. induction base as [|b base IH]; intros p; simpl.
  - split; [by intros [= ->]|by intros ->].
  - destruct p as [|c p]; [split; discriminate|].
    destruct (decide (b = c)) as [->|Hne].
    + rewrite IH. split; [by intros ->|by intros [= ->]].
    + split; [discriminate|]. intros [= -> ->]. done.
Qed.

Lemma walk_files_relative (s : fs) (top p : path) :
  p ∈ walk_files s top → ∃ rel, relative_to p top = Some rel.
Proof.
  unfold walk_files. intros ([q e] & -> & Hf)%list_elem_of_fmap.
  apply list_elem_of_filter in Hf as [Hw _]. unfold walked in Hw. simpl in *.
  destruct e; [|done]. destruct (relative_to q top); [eauto|done].
Qed.

Lemma discover_step_grows (src_root dst_root : path) (acc : list path) (f : path) (s : fs) :
  grows s (discover_step src_root dst_root acc f s).2.
Proof.
  unfold discover_step, relative, bind, dst_exists, ret, raise.
  destruct (relative_to f src_root) as [rel|]; simpl; [|reflexivity].
  pose proof (mkdir_from_grows (parent (dst_root ++ rel)) [] s) as Hg.
  unfold mkdir_parents. destruct (mkdir_from _ _ s) as [[[]|e] s1]; exact Hg.
Qed.

Lemma discover_step_raises (src_root dst_root : path) (acc : list path) (f : path)
    (s s' : fs) (e : exn) :
  is_Some (relative_to f src_root) →
  discover_step src_root dst_root acc f s = (Raise e, s') → is_OSError e = true.
Proof.
  intros [rel Hrel]. unfold discover_step, relative, bind, dst_exists, ret. rewrite Hrel.
  unfold mkdir_parents. destruct (mkdir_from _ _ s) as [[[]|e1] s1] eqn:Hm; [done|].
  intros [= <- <-]. eapply mkdir_from_raises, Hm.
Qed.


Lemma discovery_grows (src_root dst_root : path) (l acc : list path) (s : fs) :
  grows s (for_each (discover_step src_root dst_root) acc l s).2.
Proof. apply for_each_state; [apply _..|]. intros. apply discover_step_grows. Qed.

Lemma discovery_raises (src_root dst_root : path) (acc : list path) (s s' : fs) (e : exn) :
  for_each (discover_step src_root dst_root) acc (walk_files s src_root) s = (Raise e, s') →
  is_OSError e = true.
Proof.
  apply (for_each_raises _ (fun e => is_OSError e = true)).
  intros a x s0 e0 s0' Hx. apply discover_step_raises.
  destruct (walk_files_relative _ _ _ Hx); eauto.
Qed.

(** ** The module as it is: [datetime] is not bound *)

(** What a call does in the module's own name space: the discovery walk, then
    the failed look-up of [datetime]. *)
Lemma copy_tree_over_unbound (src_root dst_root : path) (s : fs) :
  copy_tree_over module_globals src_root dst_root s =
  match for_each (discover_step src_root dst_root) [] (walk_files s src_root) s with
  | (Return _, s1) => (Raise (NameError "datetime"), s1)
  | (Raise e, s1) => (Raise e, s1)
  end.
Proof.
  unfold copy_tree_over, bind, os_walk. simpl.
  by destruct (for_each _ _ _ s) as [[l|e] s1].
Qed.

(** C3, as amended.  In the module's own name space every call of
    [copy_tree_over] ends in an exception and never returns a result, and
    nothing has been backed up or copied by then: from the file system
    before to the one after, only missing directories were created.  The
    exception is the [NameError] for [datetime] exactly when the discovery
    walk completes; otherwise it is the [OSError] that the walk's [mkdir]
    raised. *)
Theorem copy_tree_over_never_returns (src_root dst_root : path) (s : fs) :
  ∃ e s',
    copy_tree_over module_globals src_root dst_root s = (Raise e, s')
    ∧ (e = NameError "datetime" ∨ is_OSError e = true)
    ∧ (e = NameError "datetime" ↔
       ∃ l, (for_each (discover_step src_root dst_root) [] (walk_files s src_root) s).1
            = Return l)
    ∧ grows s s'.
Proof.
  rewrite copy_tree_over_unbound.
  pose proof (discovery_grows src_root dst_root (walk_files s src_root) [] s) as Hg.
  pose proof (discovery_raises src_root dst_root [] s) as Hr.
  destruct (for_each _ _ _ s) as [[l|e] s1]; simpl in *.
  - exists (NameError "datetime"), s1. repeat split; eauto.
  - exists e, s1. specialize (Hr s1 e eq_refl). repeat split; eauto.
    + intros ->. discriminate.
    + intros [l [=]].
Qed.

(** C3, the claim as stated fails: with [icons/b.png] in the payload and a
    regular file [icons] in the destination, the [mkdir] of the discovery
    walk (line 166) raises [FileExistsError]; the look-up of [datetime] is
    never reached. *)
Lemma discovery_can_raise_first :
  copy_tree_over module_globals payload textures clash
  = (Raise (FileExistsError ["game"; "textures"; "icons"]), clash).
Proof. evaluate. Qed.

(** ** Well-formed file systems and the walk *)

Lemma well_formedb_spec (s : fs) : well_formedb s = true ↔ well_formed s.
Proof.
  unfold well_formedb, well_formed. rewrite forallb_forall. split.
  - intros H p [e He] Hp. specialize (H p). destruct p; [done|]. apply H.
    apply list_elem_of_In, list_elem_of_fmap. exists (s0 :: p, e).
    split; [done|]. by apply elem_of_map_to_list.
  - intros H p Hin. destruct p as [|c p]; [done|].
    apply list_elem_of_In, list_elem_of_fmap in Hin as ([q e] & Heq & Hq).
    simpl in Heq. subst q. apply elem_of_map_to_list in Hq. apply H; [eauto|done].
Qed.

Lemma parent_snoc (p : path) (c : string) : parent (p ++ [c]) = p.
Proof. apply removelast_last. Qed.

Lemma is_dir_lookup (s : fs) (p : path) : p ≠ [] → is_dir s p = true ↔ s !! p = Some Dir.
Proof.
  unfold is_dir, stat. destruct p; [done|]. intros _.
  destruct (s !! (s0 :: p)) as [[]|]; split; congruence.
Qed.

(** In a well-formed file system everything above an entry is a directory. *)
Lemma well_formed_above (s : fs) (base rel : path) :
  well_formed s → is_Some (s !! (base ++ rel)) → rel ≠ [] → is_dir s base = true.
Proof.
  intros Hwf. induction rel as [|c rel IH] using rev_ind; [done|]. intros He _.
  assert (is_dir s (base ++ rel) = true) as Hd.
  { rewrite <- (parent_snoc (base ++ rel) c), <- app_assoc. apply Hwf; [done|].
    rewrite app_assoc. by destruct (base ++ rel). }
  destruct rel as [|c' rel]; [by rewrite app_nil_r in Hd|].
  apply IH; [|done]. apply is_dir_lookup in Hd; [by rewrite Hd|by destruct base].
Qed.

Lemma well_formed_all_dirs (s : fs) (rel : path) (top : path) :
  well_formed s → is_Some (s !! (top ++ rel)) → rel ≠ [] → all_dirs s top rel = true.
Proof.
  intros Hwf. revert top. induction rel as [|c rel IH]; intros top He Hne; [done|].
  assert (is_dir s top = true) as Ht by (by eapply well_formed_above).
  destruct rel as [|c' rel]; [done|].
  change (is_dir s top && all_dirs s (top ++ [c]) (c' :: rel) = true).
  rewrite Ht. simpl. apply IH; [|done]. by rewrite <- app_assoc.
Qed.

Lemma all_dirs_top (s : fs) (rel : path) (top : path) :
  all_dirs s top rel = true → is_dir s top = true ∧ rel ≠ [].
Proof.
  destruct rel as [|c [|c' rel]]; simpl; [done|done|].
  intros [H _]%andb_true_iff. done.
Qed.

Lemma elem_of_walk_files (s : fs) (top f : path) :
  f ∈ walk_files s top ↔
  ∃ rel data, f = top ++ rel ∧ s !! f = Some (File data) ∧ all_dirs s top rel = true.
Proof.
  unfold walk_files. rewrite list_elem_of_fmap. split.
  - intros ([q e] & -> & [Hw Hq]%list_elem_of_filter). apply elem_of_map_to_list in Hq.
    unfold walked in Hw. simpl in *. destruct e as [data|]; [|done].
    destruct (relative_to q top) as [rel|] eqn:Hrel; [|done].
    apply relative_to_Some in Hrel. eauto.
  - intros (rel & data & -> & Hf & Hd). exists (top ++ rel, File data). split; [done|].
    apply list_elem_of_filter. split; [|by apply elem_of_map_to_list].
    unfold walked. simpl. by rewrite (proj2 (relative_to_Some _ _ rel) eq_refl).
Qed.

(** Creating directories does not change what the walk of a well-formed file
    system finds. *)
Lemma walk_files_grows (s s' : fs) (top f : path) :
  well_formed s → grows s s' → f ∈ walk_files s' top → f ∈ walk_files s top.
Proof.
  intros Hwf Hg. rewrite !elem_of_walk_files. intros (rel & data & -> & Hf & Hd).
  apply (grows_file _ _ _ _ Hg) in Hf. exists rel, data. repeat split; [done|].
  apply well_formed_all_dirs; [done|by rewrite Hf|]. by apply all_dirs_top in Hd as [_ ?].
Qed.

Lemma walk_files_missing (s : fs) (top : path) :
  is_dir s top = false → walk_files s top = [].
Proof.
  intros Hd. apply elem_of_nil_inv. intros f (rel & data & _ & _ & Ha)%elem_of_walk_files.
  apply all_dirs_top in Ha as [Ht _]. congruence.
Qed.

Lemma walk_files_grows_nil (s s' : fs) (top : path) :
  well_formed s → grows s s' → walk_files s top = [] → walk_files s' top = [].
Proof.
  intros Hwf Hg Hnil. apply elem_of_nil_inv. intros f Hf.
  apply (walk_files_grows s s') in Hf; [|done..]. rewrite Hnil in Hf. by apply elem_of_nil in Hf.
Qed.

(** ** A source without regular files *)

(** With nothing to walk, a call only looks up the clock and makes the backup
    directory. *)
Lemma copy_tree_over_no_files (g : globals) (src_root dst_root : path) (s : fs) :
  well_formed s → walk_files s src_root = [] →
  copy_tree_over g src_root dst_root s =
  (let! timestamp := timestamp_now g in
   let! _ := mkdir_parents (backup_root_of dst_root timestamp) in
   ret (0, 0, backup_root_of dst_root timestamp)) s.
Proof.
  intros Hwf Hnil. unfold copy_tree_over, bind at 1 2, os_walk. rewrite Hnil. simpl.
  unfold bind, timestamp_now. destruct (datetime_now g) as [ts|]; simpl; [|done].
  pose proof (mkdir_from_grows (backup_root_of dst_root ts) [] s) as Hg.
  unfold mkdir_parents. destruct (mkdir_from _ _ s) as [[[]|e] s2]; simpl in *; [|done].
  by rewrite (walk_files_grows_nil s s2).
Qed.

(** C6, as amended.  A source root that does not exist makes no [IOError]:
    [os.walk] yields nothing, and the call is the look-up of the clock
    followed by the creation of the backup directory, with the counts at
    zero.  What it raises, if anything, is what those two steps raise. *)
Theorem missing_source_walks_nothing (g : globals) (src_root dst_root : path) (s : fs) :
  well_formedb s = true → path_exists s src_root = false →
  copy_tree_over g src_root dst_root s =
  (let! timestamp := timestamp_now g in
   let! _ := mkdir_parents (backup_root_of dst_root timestamp) in
   ret (0, 0, backup_root_of dst_root timestamp)) s.
Proof.
  intros Hwf%well_formedb_spec Hex. apply copy_tree_over_no_files; [done|].
  apply walk_files_missing. unfold path_exists, is_dir in *.
  by destruct (stat s src_root) as [[]|].
Qed.

Lemma missing_source_walks_nothing_witness :
  copy_tree_over module_globals payload textures no_source =
  (let! timestamp := timestamp_now module_globals in
   let! _ := mkdir_parents (backup_root_of textures timestamp) in
   ret (0, 0, backup_root_of textures timestamp)) no_source.
Proof.
  apply (missing_source_walks_nothing module_globals payload textures no_source);
    vm_compute; reflexivity.
Defined.

(** C6, the claim as stated fails: the payload directory is missing, and the
    call raises [NameError], which is no [IOError]; with [datetime] bound it
    returns a result. *)
Lemma missing_source_no_IOError :
  copy_tree_over module_globals payload textures no_source
  = (Raise (NameError "datetime"), no_source)
  ∧ is_OSError (NameError "datetime") = false
  ∧ (copy_tree_over with_clock payload textures no_source).1
    = Return (0, 0, ["game"; "backups"; "20260101_120000"]).
Proof. split; [evaluate|split; vm_compute; reflexivity]. Qed.

(** ** What [mkdir] creates *)

Lemma snoc_app (base : path) (c : string) (rest : path) :
  (base ++ [c]) ++ rest = base ++ c :: rest.
Proof. by rewrite <- app_assoc. Qed.

Lemma mkdir_from_creates (rest : list string) (base : path) (s : fs) (p : path) :
  (mkdir_from base rest s).2 !! p = s !! p
  ∨ (s !! p = None ∧ (mkdir_from base rest s).2 !! p = Some Dir
     ∧ p `prefix_of` base ++ rest).
Proof.
  revert base s. induction rest as [|c rest IH]; intros base s; simpl; [by left|].
  destruct (s !! (base ++ [c])) as [[data|]|] eqn:E; simpl; [by left|..].
  - destruct (IH (base ++ [c]) s) as [?|(? & ? & ?)]; [by left|right].
    by rewrite snoc_app in *.
  - destruct (IH (base ++ [c]) (<[base ++ [c] := Dir]> s)) as [Heq|(Hn & Hd & Hp)].
    + rewrite Heq. destruct (decide (base ++ [c] = p)) as [<-|Hne].
      * right. rewrite lookup_insert_eq. split_and!; [done..|].
        rewrite <- (snoc_app base c rest). by exists rest.
      * left. by rewrite lookup_insert_ne.
    + right. rewrite snoc_app in Hp. split_and!; [|done..].
      destruct (decide (base ++ [c] = p)) as [<-|Hne]; [done|].
      by rewrite lookup_insert_ne in Hn.
Qed.

Lemma mkdir_from_is_dir (rest : list string) (base : path) (s s' : fs) :
  mkdir_from base rest s = (Return tt, s') → rest ≠ [] → s' !! (base ++ rest) = Some Dir.
Proof.
  revert base s. induction rest as [|c rest IH]; intros base s; simpl; [done|].
  intros H _. destruct (s !! (base ++ [c])) as [[data|]|] eqn:E; [done|..].
  - destruct rest as [|c' rest]; [by injection H as <-|].
    rewrite <- (snoc_app base c). by eapply IH.
  - destruct rest as [|c' rest]; [injection H as <-; by rewrite lookup_insert_eq|].
    rewrite <- (snoc_app base c). by eapply IH.
Qed.

Lemma backup_root_of_nonempty (dst_root : path) (ts : string) :
  backup_root_of dst_root ts ≠ [].
Proof. unfold backup_root_of. by destruct (parent dst_root). Qed.

(** ** Directories persist *)

Global Instance keeps_dirs_refl : Reflexive keeps_dirs.
Proof. by intros s p. Qed.

Global Instance keeps_dirs_trans : Transitive keeps_dirs.
Proof. intros s1 s2 s3 H12 H23 p Hp. eauto. Qed.

Lemma grows_keeps_dirs (s s' : fs) : grows s s' → keeps_dirs s s'.
Proof. intros Hg p Hp. destruct (Hg p) as [->|[? _]]; congruence. Qed.

Lemma write_file_keeps_dirs (p : path) (data : string) (s : fs) :
  keeps_dirs s (write_file p data s).2.
Proof.
  assert (stat s p ≠ Some Dir → keeps_dirs s (<[p := File data]> s)) as Hins.
  { intros Hp q Hq. rewrite lookup_insert_ne; [done|]. intros <-.
    apply Hp. unfold stat. by destruct p. }
  unfold write_file. destruct (stat s p) as [[]|] eqn:E; simpl.
  - by apply Hins.
  - reflexivity.
  - destruct (stat s (parent p)) as [[]|]; simpl; [reflexivity| |reflexivity].
    by apply Hins.
Qed.

Lemma copy2_keeps_dirs (src dst : path) (s : fs) : keeps_dirs s (copy2 src dst s).2.
Proof.
  unfold copy2. set (d := if is_dir s dst then _ else _).
  destruct (decide (src = d)); [destruct (path_exists s src); reflexivity|].
  unfold bind, read_file. destruct (stat s src) as [[]|]; simpl; try reflexivity.
  apply write_file_keeps_dirs.
Qed.

Lemma mkdir_parents_keeps_dirs (p : path) (s : fs) : keeps_dirs s (mkdir_parents p s).2.
Proof. apply grows_keeps_dirs, mkdir_from_grows. Qed.

(** The state after a sequence is reached through the state after its first
    part. *)
Lemma bind_state {A B : Type} (R : relation fs) `{!Transitive R} (c : M A) (k : A → M B) (s : fs) :
  R s (c s).2 → (∀ a s1, R s1 (k a s1).2) → R s (bind c k s).2.
Proof.
  intros Hc Hk. unfold bind. destruct (c s) as [[a|e] s1]; simpl in *; [|done].
  etransitivity; [exact Hc|apply Hk].
Qed.

Lemma backup_step_keeps_dirs (target_root backup_root : path) (u : unit) (f : path) (s : fs) :
  keeps_dirs s (backup_step target_root backup_root u f s).2.
Proof.
  unfold backup_step, relative. destruct (relative_to f target_root); [|reflexivity].
  apply bind_state; [apply _|reflexivity|]. intros rel s1.
  apply bind_state; [apply _|apply mkdir_parents_keeps_dirs|]. intros _ s2.
  apply copy2_keeps_dirs.
Qed.

Lemma copy_step_keeps_dirs (src_root dst_root : path) (acc : nat * nat) (f : path) (s : fs) :
  keeps_dirs s (copy_step src_root dst_root acc f s).2.
Proof.
  unfold copy_step, relative. destruct (relative_to f src_root); [|reflexivity].
  apply bind_state; [apply _|reflexivity|]. intros rel s1.
  apply bind_state; [apply _|apply mkdir_parents_keeps_dirs|]. intros _ s2.
  apply bind_state; [apply _|reflexivity|]. intros ex s3.
  apply bind_state; [apply _|apply copy2_keeps_dirs|]. intros _ s4. reflexivity.
Qed.

Lemma backup_keeps_dirs (target_root backup_root : path) (l : list path) (s : fs) :
  keeps_dirs s (backup_original_files target_root l backup_root s).2.
Proof.
  unfold backup_original_files. apply for_each_state; [apply _..|].
  intros. apply backup_step_keeps_dirs.
Qed.

Lemma copying_keeps_dirs (src_root dst_root : path) (acc : nat * nat) (l : list path) (s : fs) :
  keeps_dirs s (for_each (copy_step src_root dst_root) acc l s).2.
Proof. apply for_each_state; [apply _..|]. intros. apply copy_step_keeps_dirs. Qed.

(** ** Taking a sequence apart *)

Lemma bind_Return {A B : Type} (c : M A) (k : A → M B) (s s' : fs) (b : B) :
  bind c k s = (Return b, s') → ∃ a s1, c s = (Return a, s1) ∧ k a s1 = (Return b, s').
Proof. unfold bind. destruct (c s) as [[a|e] s1]; [eauto|done]. Qed.

Lemma bind_Raise {A B : Type} (c : M A) (k : A → M B) (s s' : fs) (e : exn) :
  bind c k s = (Raise e, s') →
  c s = (Raise e, s') ∨ ∃ a s1, c s = (Return a, s1) ∧ k a s1 = (Raise e, s').
Proof. unfold bind. destruct (c s) as [[a|e1] s1]; [eauto|]. intros [= <- <-]. by left. Qed.

Lemma bind_ret {A B : Type} (a : A) (k : A → M B) (s : fs) : bind (ret a) k s = k a s.
Proof. reflexivity. Qed.

Lemma bind_raise {A B : Type} (e : exn) (k : A → M B) (s : fs) :
  bind (raise e) k s = (Raise e, s).
Proof. reflexivity. Qed.

(** The phases of a call that returns. *)
Lemma copy_tree_over_Return (g : globals) (src_root dst_root : path) (s s' : fs)
    (copied overwritten : nat) (backup_root : path) :
  copy_tree_over g src_root dst_root s = (Return (copied, overwritten, backup_root), s') →
  ∃ files_to_replace ts s1 s2 s3,
    for_each (discover_step src_root dst_root) [] (walk_files s src_root) s
      = (Return files_to_replace, s1)
    ∧ datetime_now g = Some ts
    ∧ backup_root = backup_root_of dst_root ts
    ∧ mkdir_parents backup_root s1 = (Return tt, s2)
    ∧ backup_original_files dst_root files_to_replace backup_root s2 = (Return tt, s3)
    ∧ for_each (copy_step src_root dst_root) (0, 0) (walk_files s3 src_root) s3
      = (Return (copied, overwritten), s').
Proof.
  unfold copy_tree_over. intros H.
  apply bind_Return in H as (files & s0 & [= <- <-] & H).
  apply bind_Return in H as (ftr & s1 & Hdisc & H).
  apply bind_Return in H as (ts & s1' & Hts & H).
  unfold timestamp_now in Hts. destruct (datetime_now g) as [ts'|] eqn:Hg; [|done].
  injection Hts as <- <-.
  apply bind_Return in H as ([] & s2 & Hmk & H).
  apply bind_Return in H as ([] & s3 & Hbk & H).
  apply bind_Return in H as (files2 & s3' & [= <- <-] & H).
  apply bind_Return in H as ([c o] & s4 & Hcp & [= <- <- <- <-]).
  exists ftr, ts', s1, s2, s3. repeat split; try done.
  destruct ftr; [by injection Hbk as <-|done].
Qed.

(** C4, as amended.  The backup directory does not depend on the files to
    overwrite.  Once the discovery walk has completed, a call takes the
    timestamp and makes the directory
    [<parent of the destination>/backups/<timestamp>] (lines 169-171),
    whatever the walk has found: when that step raises, the call ends there
    in the same exception; when it succeeds, the directory exists when the
    call ends.  And whenever a call returns, the returned backup path is
    that directory, never a null value. *)
Theorem backup_directory_always_made (g : globals) (src_root dst_root : path) (s : fs) :
  (∀ files_to_replace s1,
     for_each (discover_step src_root dst_root) [] (walk_files s src_root) s
       = (Return files_to_replace, s1) →
     (∀ e s2,
        (let! timestamp := timestamp_now g in
         mkdir_parents (backup_root_of dst_root timestamp)) s1 = (Raise e, s2) →
        copy_tree_over g src_root dst_root s = (Raise e, s2))
     ∧ (∀ ts s2,
          datetime_now g = Some ts →
          mkdir_parents (backup_root_of dst_root ts) s1 = (Return tt, s2) →
          is_dir (copy_tree_over g src_root dst_root s).2 (backup_root_of dst_root ts)
          = true))
  ∧ (∀ copied overwritten backup_root s',
       copy_tree_over g src_root dst_root s
         = (Return (copied, overwritten, backup_root), s') →
       ∃ ts, datetime_now g = Some ts
             ∧ backup_root = backup_root_of dst_root ts
             ∧ is_dir s' backup_root = true).
Proof.
  split.
  - intros ftr s1 Hdisc.
    assert (copy_tree_over g src_root dst_root s
            = (let! timestamp := timestamp_now g in
               let! _ := mkdir_parents (backup_root_of dst_root timestamp) in
               let! _ := match ftr with
                         | [] => ret tt
                         | _ => backup_original_files dst_root ftr
                                  (backup_root_of dst_root timestamp)
                         end in
               let! files := os_walk src_root in
               let! counts := for_each (copy_step src_root dst_root) (0, 0) files in
               ret (counts.1, counts.2, backup_root_of dst_root timestamp)) s1) as ->.
    { unfold copy_tree_over, bind at 1, os_walk. unfold bind at 1. by rewrite Hdisc. }
    unfold timestamp_now. destruct (datetime_now g) as [ts|]; split.
    + intros e s2 Hmk. rewrite bind_ret in Hmk. rewrite bind_ret. unfold bind at 1.
      by rewrite Hmk.
    + intros ts' s2 [= <-] Hmk. rewrite bind_ret. unfold bind at 1. rewrite Hmk.
      assert (s2 !! backup_root_of dst_root ts = Some Dir) as Hd.
      { apply mkdir_from_is_dir in Hmk; [done|apply backup_root_of_nonempty]. }
      apply is_dir_lookup; [apply backup_root_of_nonempty|].
      match goal with |- ?st !! _ = Some Dir => assert (keeps_dirs s2 st) as Hk end;
        [|by apply Hk].
      apply bind_state; [apply _| |].
      { destruct ftr; [reflexivity|apply backup_keeps_dirs]. }
      intros _ s3. apply bind_state; [apply _|reflexivity|]. intros files s4.
      apply bind_state; [apply _|apply copying_keeps_dirs|]. intros counts s5. reflexivity.
    + by intros e s2 [= <- <-].
    + by intros ts' s2 [=].
  - intros copied overwritten backup_root s'.
    intros (ftr & ts & s1 & s2 & s3 & _ & Hg & -> & Hmk & Hbk & Hcp)%copy_tree_over_Return.
    exists ts. repeat split; [done|].
    apply is_dir_lookup; [apply backup_root_of_nonempty|].
    apply mkdir_from_is_dir in Hmk; [|apply backup_root_of_nonempty]. simpl in Hmk.
    pose proof (backup_keeps_dirs dst_root (backup_root_of dst_root ts) ftr s2) as H23.
    pose proof (copying_keeps_dirs src_root dst_root (0, 0) (walk_files s3 src_root) s3)
      as H34.
    rewrite Hbk in H23. rewrite Hcp in H34. by apply H34, H23.
Qed.

Lemma backup_directory_always_made_witness :
  copy_tree_over module_globals payload textures scenario
  = (Raise (NameError "datetime"), scenario)
  ∧ is_dir (copy_tree_over with_clock payload textures fresh).2
      (backup_root_of textures "20260101_120000") = true
  ∧ ∃ ts, datetime_now with_clock = Some ts
          ∧ ["game"; "backups"; "20260101_120000"] = backup_root_of textures ts
          ∧ is_dir (copy_tree_over with_clock payload textures fresh).2
              ["game"; "backups"; "20260101_120000"] = true.
Proof.
  split_and!.
  - apply (proj1 (backup_directory_always_made module_globals payload textures scenario)
             [textures ++ ["b.png"]] scenario); [evaluate|reflexivity].
  - apply (proj1 (backup_directory_always_made with_clock payload textures fresh)
             [] (for_each (discover_step payload textures) []
                   (walk_files fresh payload) fresh).2)
      with (mkdir_parents (backup_root_of textures "20260101_120000")
              (for_each (discover_step payload textures) []
                 (walk_files fresh payload) fresh).2).2;
      [evaluate|reflexivity|evaluate].
  - apply (proj2 (backup_directory_always_made with_clock payload textures fresh) 1 0
             ["game"; "backups"; "20260101_120000"]
             (copy_tree_over with_clock payload textures fresh).2).
    evaluate.
Defined.

(** C4, the claim as stated fails.  In the module as it is: at the scenario
    the discovery walk finds one file to overwrite, [b.png], so that
    [files_overwritten], the number of files to overwrite, is 1; and the
    call makes no backup directory: it raises [NameError], and there is no
    [game/backups] when it ends.  By design: with
    [datetime] bound and nothing to overwrite, the backup directory, which
    was not there before, is there after, and the call returns its path. *)
Lemma backup_directory_not_tied_to_overwrites :
  for_each (discover_step payload textures) [] (walk_files scenario payload) scenario
  = (Return [textures ++ ["b.png"]], scenario)
  ∧ copy_tree_over module_globals payload textures scenario
    = (Raise (NameError "datetime"), scenario)
  ∧ path_exists (copy_tree_over module_globals payload textures scenario).2
      ["game"; "backups"] = false
  ∧ (copy_tree_over with_clock payload textures fresh).1
    = Return (1, 0, ["game"; "backups"; "20260101_120000"])
  ∧ path_exists fresh ["game"; "backups"; "20260101_120000"] = false
  ∧ is_dir (copy_tree_over with_clock payload textures fresh).2
      ["game"; "backups"; "20260101_120000"] = true.
Proof. split; [evaluate|split; [evaluate|repeat split; vm_compute; reflexivity]]. Qed.

(** C7, as amended.  For an existing source tree without regular files, a
    call creates and modifies no file: the only entries that differ
    afterwards are directories that were missing, on the way to the backup
    directory.  When the call returns, the result is [(0, 0, backup_root)]
    with [backup_root] the backup directory, which exists by then; it is
    never a null value. *)
Theorem empty_source_outcome (g : globals) (src_root dst_root : path) (s : fs) :
  well_formedb s = true → is_dir s src_root = true → walk_files s src_root = [] →
  (∀ p, (copy_tree_over g src_root dst_root s).2 !! p = s !! p
        ∨ (s !! p = None
           ∧ (copy_tree_over g src_root dst_root s).2 !! p = Some Dir
           ∧ ∃ ts, datetime_now g = Some ts ∧ p `prefix_of` backup_root_of dst_root ts))
  ∧ (∀ res, (copy_tree_over g src_root dst_root s).1 = Return res →
       ∃ ts, datetime_now g = Some ts
             ∧ res = (0, 0, backup_root_of dst_root ts)
             ∧ is_dir (copy_tree_over g src_root dst_root s).2 (backup_root_of dst_root ts)
               = true).
Proof.
  intros Hwf%well_formedb_spec _ Hnil. rewrite copy_tree_over_no_files by done.
  unfold bind, timestamp_now. destruct (datetime_now g) as [ts|]; simpl.
  - unfold mkdir_parents.
    pose proof (mkdir_from_creates (backup_root_of dst_root ts) [] s) as Hc.
    pose proof (mkdir_from_is_dir (backup_root_of dst_root ts) [] s) as Hd.
    destruct (mkdir_from _ _ s) as [[[]|e] s2]; simpl in *.
    + split.
      * intros p. destruct (Hc p) as [?|(? & ? & ?)]; [by left|right]. eauto.
      * intros res [= <-]. exists ts. split_and!; [done..|].
        apply is_dir_lookup, (Hd s2 eq_refl); apply backup_root_of_nonempty.
    + split; [|done].
      intros p. destruct (Hc p) as [?|(? & ? & ?)]; [by left|right]. eauto.
  - split; [by left|done].
Qed.

Lemma empty_source_outcome_witness :
  (∀ p, (copy_tree_over with_clock payload textures empty_source).2 !! p
        = empty_source !! p
        ∨ (empty_source !! p = None
           ∧ (copy_tree_over with_clock payload textures empty_source).2 !! p = Some Dir
           ∧ ∃ ts, datetime_now with_clock = Some ts
                   ∧ p `prefix_of` backup_root_of textures ts))
  ∧ (∀ res, (copy_tree_over with_clock payload textures empty_source).1 = Return res →
       ∃ ts, datetime_now with_clock = Some ts
             ∧ res = (0, 0, backup_root_of textures ts)
             ∧ is_dir (copy_tree_over with_clock payload textures empty_source).2
                 (backup_root_of textures ts) = true).
Proof.
  apply (empty_source_outcome with_clock payload textures empty_source);
    vm_compute; reflexivity.
Defined.

(** C7, the claim as stated fails: on a payload directory without regular
    files the call is an error in the module as it is; with [datetime] bound
    it returns a path, not a null value, and has created the backup
    directory, which is a mutation of the file system. *)
Lemma empty_source_not_a_no_op :
  copy_tree_over module_globals payload textures empty_source
  = (Raise (NameError "datetime"), empty_source)
  ∧ (copy_tree_over with_clock payload textures empty_source).1
    = Return (0, 0, ["game"; "backups"; "20260101_120000"])
  ∧ path_exists empty_source ["game"; "backups"; "20260101_120000"] = false
  ∧ is_dir (copy_tree_over with_clock payload textures empty_source).2
      ["game"; "backups"; "20260101_120000"] = true.
Proof. split; [evaluate|repeat split; vm_compute; reflexivity]. Qed.

(** ** The frame of a call *)

Lemma copy_tree_over_unbound_grows (src_root dst_root : path) (s : fs) :
  grows s (copy_tree_over module_globals src_root dst_root s).2.
Proof.
  rewrite copy_tree_over_unbound.
  pose proof (discovery_grows src_root dst_root (walk_files s src_root) [] s) as Hg.
  by destruct (for_each _ _ _ s) as [[l|e] s1].
Qed.

(** ** The scenario of the specification, in the module as it is *)

(** C1, at the scenario.  [b.png] is about to be overwritten, and the call
    raises [NameError] with the file system as it was: there is no backup
    set.  With [datetime] bound, the same call backs up the old [b.png], and
    nothing else; [patch_backs_up] and [patch_backup_count] below say so for
    every call that nothing is in the way of. *)
Theorem scenario_no_backup :
  copy_tree_over module_globals payload textures scenario
  = (Raise (NameError "datetime"), scenario)
  ∧ path_exists scenario ["game"; "backups"] = false
  ∧ (copy_tree_over with_clock payload textures scenario).2
      !! ["game"; "backups"; "20260101_120000"; "b.png"] = Some (File "b-old-3KB")
  ∧ walk_files (copy_tree_over with_clock payload textures scenario).2
      ["game"; "backups"; "20260101_120000"]
    = [["game"; "backups"; "20260101_120000"; "b.png"]].
Proof. split; [evaluate|repeat split; vm_compute; reflexivity]. Qed.

(** C2, at the scenario.  The call returns no counts, [a.png] has not reached
    the destination and [b.png] there is still the old one.  With [datetime]
    bound, the same call returns [files_copied = 2] and
    [files_overwritten = 1], and both files are in the destination with the
    content of the source; [patch_returns_counts] and [patch_copies_source]
    below say so for every call that nothing is in the way of. *)
Theorem scenario_not_copied :
  (copy_tree_over module_globals payload textures scenario).1 = Raise (NameError "datetime")
  ∧ (copy_tree_over module_globals payload textures scenario).2 !! (textures ++ ["a.png"])
    = None
  ∧ (copy_tree_over module_globals payload textures scenario).2 !! (textures ++ ["b.png"])
    = Some (File "b-old-3KB")
  ∧ (copy_tree_over with_clock payload textures scenario).1
    = Return (2, 1, ["game"; "backups"; "20260101_120000"])
  ∧ (copy_tree_over with_clock payload textures scenario).2 !! (textures ++ ["a.png"])
    = Some (File "a-new")
  ∧ (copy_tree_over with_clock payload textures scenario).2 !! (textures ++ ["b.png"])
    = Some (File "b-new-5KB").
Proof. repeat split; vm_compute; reflexivity. Qed.

(** C8, at the scenario.  A second call, on the file system the first one
    left, raises [NameError] like the first: it returns no
    [files_overwritten].  With [datetime] bound, a second call five minutes
    later returns [files_overwritten = 2], the number of files of the
    source, and the destination has the files, with the content, that the
    first call left; [patch_twice] below says so for every pair of calls
    that nothing is in the way of. *)
Theorem scenario_second_run :
  (copy_tree_over module_globals payload textures
     (copy_tree_over module_globals payload textures scenario).2).1
  = Raise (NameError "datetime")
  ∧ (copy_tree_over with_later_clock payload textures
       (copy_tree_over with_clock payload textures scenario).2).1
    = Return (2, 2, ["game"; "backups"; "20260101_120500"])
  ∧ List.map (fun p => (p, (copy_tree_over with_later_clock payload textures
                              (copy_tree_over with_clock payload textures scenario).2).2 !! p))
      (walk_files (copy_tree_over with_later_clock payload textures
                     (copy_tree_over with_clock payload textures scenario).2).2 textures)
    = List.map (fun p => (p, (copy_tree_over with_clock payload textures scenario).2 !! p))
        (walk_files (copy_tree_over with_clock payload textures scenario).2 textures).
Proof. split_and!; vm_compute; reflexivity. Qed.

(** ** Where the backup pass writes *)

Lemma touched_only_refl (W : path → Prop) : Reflexive (touched_only W).
Proof. intros s p. right. by left. Qed.

Lemma touched_only_trans (W : path → Prop) : Transitive (touched_only W).
Proof.
  intros s1 s2 s3 H12 H23 p.
  destruct (H12 p) as [?|[E12|[N1 D2]]]; [by left|..];
    destruct (H23 p) as [?|[E23|[N2 D3]]]; try (by left); right.
  - left. congruence.
  - right. split; congruence.
  - right. split; congruence.
  - congruence.
Qed.

Lemma touched_only_weaken (W W' : path → Prop) (s s' : fs) :
  (∀ p, W p → W' p) → touched_only W s s' → touched_only W' s s'.
Proof. intros HW H p. destruct (H p) as [?|?]; [left; eauto|by right]. Qed.

Lemma grows_touched_only (W : path → Prop) (s s' : fs) : grows s s' → touched_only W s s'.
Proof. intros H p. right. apply H. Qed.

Lemma write_file_touches (p : path) (data : string) (s : fs) :
  touched_only (fun q => q = p) s (write_file p data s).2.
Proof.
  assert (touched_only (fun q => q = p) s (<[p := File data]> s)) as Hins.
  { intros q. destruct (decide (q = p)) as [->|Hne]; [by left|].
    right. left. by rewrite lookup_insert_ne. }
  unfold write_file. destruct (stat s p) as [[]|]; simpl;
    [done|apply touched_only_refl|].
  destruct (stat s (parent p)) as [[]|]; simpl; [apply touched_only_refl|done|].
  apply touched_only_refl.
Qed.

Lemma copy2_touches (src dst : path) (s : fs) :
  touched_only (fun q => dst `prefix_of` q) s (copy2 src dst s).2.
Proof.
  unfold copy2. set (d := if is_dir s dst then _ else _).
  assert (dst `prefix_of` d) as Hd.
  { subst d. destruct (is_dir s dst); [by apply prefix_app_r|done]. }
  destruct (decide (src = d)); [destruct (path_exists s src); apply touched_only_refl|].
  unfold bind, read_file. destruct (stat s src) as [[]|]; simpl;
    try apply touched_only_refl.
  eapply touched_only_weaken, write_file_touches. by intros q ->.
Qed.

Lemma backup_step_touches (target_root backup_root : path) (u : unit) (f : path) (s : fs) :
  touched_only (fun q => backup_root `prefix_of` q) s
    (backup_step target_root backup_root u f s).2.
Proof.
  pose proof (touched_only_trans (fun q => backup_root `prefix_of` q)) as Htrans.
  unfold backup_step, relative.
  destruct (relative_to f target_root) as [rel|]; [|apply touched_only_refl].
  apply bind_state; [done|apply touched_only_refl|]. intros rel' s1.
  apply bind_state; [done|apply grows_touched_only, mkdir_from_grows|]. intros _ s2.
  eapply touched_only_weaken, copy2_touches.
  intros q Hq. etransitivity; [|exact Hq]. by apply prefix_app_r.
Qed.

Lemma backup_touches (target_root backup_root : path) (l : list path) (s : fs) :
  touched_only (fun q => backup_root `prefix_of` q) s
    (backup_original_files target_root l backup_root s).2.
Proof.
  unfold backup_original_files.
  apply for_each_state;
    [apply touched_only_refl|apply touched_only_trans|].
  intros. apply backup_step_touches.
Qed.

Lemma length_parent (p : path) : length (parent p) = pred (length p).
Proof.
  unfold parent. induction p as [|c p IH]; [done|].
  destruct p as [|c' p]; [done|]. change (S (length (removelast (c' :: p))) = S (length p)).
  rewrite IH. done.
Qed.

(** A backup root that does not lie in the destination is off every path of
    the destination. *)
Lemma backup_root_off_destination (dst_root p : path) (ts : string) :
  ¬ dst_root `prefix_of` backup_root_of dst_root ts →
  dst_root `prefix_of` p → ¬ backup_root_of dst_root ts `prefix_of` p.
Proof.
  intros Hout Hd Hb. destruct (prefix_weak_total _ _ _ Hd Hb) as [?|Hbd]; [done|].
  apply prefix_length in Hbd. unfold backup_root_of in Hbd.
  rewrite length_app, length_parent in Hbd. simpl in Hbd.
  destruct dst_root; simpl in *; [|lia]. apply Hout, prefix_nil.
Qed.

(** C5, as amended.  When the backup pass fails, the call fails with the same
    exception, and in the destination no file has been created or modified
    by then: an entry of the destination is as it was before the call, or it
    is a directory that was missing, created by the discovery walk.  (The
    backup root is taken not to lie in the destination: the destination is
    not the root and is not named [backups].) *)
Theorem backup_failure_keeps_files (g : globals) (src_root dst_root : path)
    (s s1 s2 s3 : fs) (files_to_replace : list path) (ts : string) (e : exn) :
  for_each (discover_step src_root dst_root) [] (walk_files s src_root) s
    = (Return files_to_replace, s1) →
  datetime_now g = Some ts →
  mkdir_parents (backup_root_of dst_root ts) s1 = (Return tt, s2) →
  backup_original_files dst_root files_to_replace (backup_root_of dst_root ts) s2
    = (Raise e, s3) →
  ¬ dst_root `prefix_of` backup_root_of dst_root ts →
  copy_tree_over g src_root dst_root s = (Raise e, s3)
  ∧ ∀ p, dst_root `prefix_of` p →
         s3 !! p = s !! p ∨ (s !! p = None ∧ s3 !! p = Some Dir).
Proof.
  intros Hdisc Hg Hmk Hbk Hout. split.
  - unfold copy_tree_over, bind at 1 2, os_walk. simpl. rewrite Hdisc. simpl.
    unfold bind at 1, timestamp_now. rewrite Hg. simpl.
    unfold bind at 1. rewrite Hmk. unfold bind at 1.
    destruct files_to_replace; [done|]. by rewrite Hbk.
  - intros p Hp.
    pose proof (discovery_grows src_root dst_root (walk_files s src_root) [] s) as H01.
    pose proof (mkdir_from_grows (backup_root_of dst_root ts) [] s1) as H12.
    pose proof (backup_touches dst_root (backup_root_of dst_root ts) files_to_replace s2)
      as H23.
    rewrite Hdisc in H01. unfold mkdir_parents in Hmk. rewrite Hmk in H12.
    rewrite Hbk in H23. simpl in *.
    assert (grows s s2) as H02 by (by etransitivity).
    destruct (H23 p) as [Hb|H];
      [exfalso; eapply backup_root_off_destination; eassumption|].
    destruct (H02 p) as [E|[N D]], H as [E'|[N' D']].
    + left. congruence.
    + right. split; congruence.
    + right. split; congruence.
    + congruence.
Qed.

Lemma backup_failure_keeps_files_witness :
  copy_tree_over with_clock payload textures unreadable
  = (Raise (IsADirectoryError ["game"; "textures"; "b.png"]),
     (copy_tree_over with_clock payload textures unreadable).2)
  ∧ ∀ p, textures `prefix_of` p →
         (copy_tree_over with_clock payload textures unreadable).2 !! p = unreadable !! p
         ∨ (unreadable !! p = None
            ∧ (copy_tree_over with_clock payload textures unreadable).2 !! p = Some Dir).
Proof.
  apply (backup_failure_keeps_files with_clock payload textures unreadable
           (for_each (discover_step payload textures) []
              (walk_files unreadable payload) unreadable).2
           (mkdir_parents (backup_root_of textures "20260101_120000")
              (for_each (discover_step payload textures) []
                 (walk_files unreadable payload) unreadable).2).2
           (copy_tree_over with_clock payload textures unreadable).2
           [["game"; "textures"; "b.png"]] "20260101_120000"
           (IsADirectoryError ["game"; "textures"; "b.png"])).
  - evaluate.
  - reflexivity.
  - evaluate.
  - evaluate.
  - apply (bool_decide_unpack _). vm_compute. reflexivity.
Defined.

(** C5, the claim as stated fails: the backup pass fails on [b.png], and the
    directory [ui], which the destination did not have, is there after the
    call: the discovery walk made it before the backup pass began.  The same
    directory is made in the module as it is, where no backup pass is ever
    reached. *)
Lemma destination_mutated_before_backup :
  (copy_tree_over with_clock payload textures unreadable).1
  = Raise (IsADirectoryError ["game"; "textures"; "b.png"])
  ∧ unreadable !! (textures ++ ["ui"]) = None
  ∧ (copy_tree_over with_clock payload textures unreadable).2 !! (textures ++ ["ui"])
    = Some Dir
  ∧ (copy_tree_over module_globals payload textures unreadable).2 !! (textures ++ ["ui"])
    = Some Dir.
Proof. repeat split; vm_compute; reflexivity. Qed.

(** The proviso of C5 as amended is needed: when the destination is named
    [backups] the backup set lies in the destination, and a backup pass that
    fails half-way has already created a file there. *)
Remark backup_inside_destination :
  (copy_tree_over with_clock payload ["game"; "backups"] nested).1
  = Raise (IsADirectoryError ["game"; "backups"; "a.png"])
  ∧ nested !! ["game"; "backups"; "20260101_120000"; "b.png"] = None
  ∧ (copy_tree_over with_clock payload ["game"; "backups"] nested).2
      !! ["game"; "backups"; "20260101_120000"; "b.png"] = Some (File "b-old").
Proof. repeat split; vm_compute; reflexivity. Qed.

(** ** The sky patcher empties the sky directory first *)

Lemma rmtree_lookup (c : path) (s : fs) (p : path) :
  rmtree c s !! p = if decide (c `prefix_of` p) then None else s !! p.
Proof.
  unfold rmtree. destruct (decide (c `prefix_of` p)) as [Hc|Hc].
  - apply map_lookup_filter_None. right. intros e _ Hn. by apply Hn.
  - destruct (s !! p) as [e|] eqn:E.
    + by apply map_lookup_filter_Some.
    + apply map_lookup_filter_None. by left.
Qed.

Lemma emptied_lookup (d : path) (s : fs) (p : path) :
  emptied d s !! p = if decide (d `prefix_of` p ∧ p ≠ d) then None else s !! p.
Proof.
  unfold emptied. destruct (decide (d `prefix_of` p ∧ p ≠ d)) as [Hc|Hc].
  - apply map_lookup_filter_None. right. intros e _ Hn. by apply Hn.
  - destruct (s !! p) as [e|] eqn:E.
    + by apply map_lookup_filter_Some.
    + apply map_lookup_filter_None. by left.
Qed.

Lemma purge_lookup (l : list path) (s : fs) :
  (for_each purge_step tt l s).1 = Return tt
  ∧ ∀ p, (for_each purge_step tt l s).2 !! p
         = if decide (Exists (fun c => c `prefix_of` p) l) then None else s !! p.
Proof.
  revert s. induction l as [|c l IH]; intros s.
  - split; [done|]. intros p. rewrite decide_False; [done|]. by intros H%Exists_nil.
  - destruct (IH (rmtree c s)) as [IH1 IH2].
    change (for_each purge_step tt (c :: l) s) with (for_each purge_step tt l (rmtree c s)).
    split; [done|]. intros p. rewrite IH2, rmtree_lookup.
    destruct (decide (Exists (fun c => c `prefix_of` p) l)) as [Hl|Hl].
    + rewrite decide_True; [done|by right].
    + destruct (decide (c `prefix_of` p)) as [Hc|Hc].
      * rewrite decide_True; [done|by left].
      * rewrite decide_False; [done|]. by intros [?|?]%Exists_cons.
Qed.

Lemma parent_last (p : path) : p ≠ [] → p = parent p ++ [basename p].
Proof. intros Hp. by apply app_removelast_last. Qed.

(** In a well-formed file system, removing the children of a directory one by
    one leaves nothing below it and changes nothing else. *)
Lemma purge_children (d : path) (s : fs) :
  well_formed s →
  for_each purge_step tt (filter (fun q => q ≠ [] ∧ parent q = d) (map_to_list s).*1) s
  = (Return tt, emptied d s).
Proof.
  intros Hwf. set (l := filter _ _). destruct (purge_lookup l s) as [H1 H2].
  destruct (for_each purge_step tt l s) as [r s'] eqn:E. simpl in *. subst r.
  f_equal. apply map_eq. intros p. rewrite H2, emptied_lookup.
  destruct (s !! p) as [e|] eqn:Ep; [|by repeat case_decide].
  destruct (decide (d `prefix_of` p ∧ p ≠ d)) as [[[rest ->] Hne]|Hn].
  - rewrite decide_True; [done|]. destruct rest as [|x rest]; [by rewrite app_nil_r in Hne|].
    apply Exists_exists. exists (d ++ [x]). split.
    + subst l. apply list_elem_of_filter. split.
      * split; [by destruct d|apply parent_snoc].
      * apply list_elem_of_fmap. exists (d ++ [x], match rest with [] => e | _ => Dir end).
        split; [done|]. apply elem_of_map_to_list.
        destruct rest as [|y rest]; [done|].
        apply is_dir_lookup; [by destruct d|].
        apply (well_formed_above s (d ++ [x]) (y :: rest)); [done| |done].
        by rewrite snoc_app, Ep.
    + rewrite <- (snoc_app d x rest). by exists rest.
  - rewrite decide_False; [done|]. intros (c & Hc & Hcp)%Exists_exists. apply Hn.
    subst l. apply list_elem_of_filter in Hc as [[Hc1 Hc2] _].
    rewrite (parent_last c Hc1), Hc2 in Hcp. split.
    + etransitivity; [|exact Hcp]. by apply prefix_app_r.
    + intros ->. apply prefix_length in Hcp. rewrite length_app in Hcp. simpl in Hcp. lia.
Qed.

Lemma purge_block (d : path) (s : fs) :
  well_formed s → is_dir s d = true →
  (let! children := iterdir d in for_each purge_step tt children) s
  = (Return tt, emptied d s).
Proof.
  intros Hwf Hd. unfold bind, iterdir. unfold is_dir in Hd.
  destruct (stat s d) as [[]|]; try done. by apply purge_children.
Qed.

Lemma is_dir_exists (s : fs) (p : path) : is_dir s p = true → path_exists s p = true.
Proof. unfold is_dir, path_exists. by destruct (stat s p) as [[]|]. Qed.

(** A sky directory that does not exist is made, and the patch operation
    applied. *)
Lemma sky_made_then_patched (g : globals) (selected target_version : path) (s : fs) :
  path_exists s (sky_dir_of target_version) = false →
  apply_sky g selected target_version s
  = (let! _ := mkdir_parents (sky_dir_of target_version) in
     let! _ := copy_tree_over g selected (sky_dir_of target_version) in
     ret tt) s.
Proof. intros Hn. unfold apply_sky, bind at 1, dst_exists. by rewrite Hn. Qed.

(** C10, as amended.  On an existing sky directory the sky patcher is the
    patch operation applied to the selected skybox and the sky directory
    after everything below the sky directory has been removed: no file that
    was there is left for the patch operation to back up or to keep. *)
Theorem sky_emptied_then_patched (g : globals) (selected target_version : path) (s : fs) :
  well_formedb s = true → is_dir s (sky_dir_of target_version) = true →
  apply_sky g selected target_version s
  = (let! _ := copy_tree_over g selected (sky_dir_of target_version) in ret tt)
      (emptied (sky_dir_of target_version) s)
  ∧ ∀ p, sky_dir_of target_version `prefix_of` p → p ≠ sky_dir_of target_version →
         emptied (sky_dir_of target_version) s !! p = None.
Proof.
  intros Hwf%well_formedb_spec Hd. split.
  - unfold apply_sky, bind at 1, dst_exists. rewrite (is_dir_exists _ _ Hd).
    unfold bind at 1. by rewrite purge_block.
  - intros p Hp Hne. rewrite emptied_lookup. by rewrite decide_True.
Qed.

Lemma sky_emptied_then_patched_witness :
  apply_sky module_globals ["skies"; "night"] version sky_world
  = (let! _ := copy_tree_over module_globals ["skies"; "night"] (sky_dir_of version) in ret tt)
      (emptied (sky_dir_of version) sky_world)
  ∧ ∀ p, sky_dir_of version `prefix_of` p → p ≠ sky_dir_of version →
         emptied (sky_dir_of version) sky_world !! p = None.
Proof.
  apply (sky_emptied_then_patched module_globals ["skies"; "night"] version sky_world);
    vm_compute; reflexivity.
Defined.

(** C10, the claim as stated fails.  The sky directory has an older [a.png]
    and a [c.png]; the chosen skybox brings [a.png].  The sky patcher leaves
    neither file in place, in the module as it is (where the call then ends
    in [NameError]) and with [datetime] bound (where the old [a.png] is in no
    backup and [c.png] is gone); the patch operation on the same pair of
    roots backs up the old [a.png] and keeps [c.png]. *)
Lemma sky_patcher_deletes :
  sky_world !! (sky ++ ["c.png"]) = Some (File "c-old")
  ∧ (patch_custom_sky module_globals sky_session version sky_world).1
    = Raise (NameError "datetime")
  ∧ (patch_custom_sky module_globals sky_session version sky_world).2 !! (sky ++ ["c.png"])
    = None
  ∧ (patch_custom_sky module_globals sky_session version sky_world).2 !! (sky ++ ["a.png"])
    = None
  ∧ (patch_custom_sky with_clock sky_session version sky_world).1 = Return tt
  ∧ (patch_custom_sky with_clock sky_session version sky_world).2 !! (sky ++ ["c.png"])
    = None
  ∧ (patch_custom_sky with_clock sky_session version sky_world).2
      !! (backup_root_of sky "20260101_120000" ++ ["a.png"]) = None
  ∧ (copy_tree_over with_clock ["skies"; "night"] sky sky_world).2 !! (sky ++ ["c.png"])
    = Some (File "c-old")
  ∧ (copy_tree_over with_clock ["skies"; "night"] sky sky_world).2
      !! (backup_root_of sky "20260101_120000" ++ ["a.png"]) = Some (File "a-old").
Proof. repeat split; vm_compute; reflexivity. Qed.

(** ** Paths apart and files of the source *)

Lemma apart_app (a b x y : path) : apart a b → a ++ x ≠ b ++ y.
Proof.
  intros [Hab Hba] E.
  destruct (prefix_weak_total a b (a ++ x)) as [?|?]; [by exists x|by exists y|done..].
Qed.

Lemma apart_sym (a b : path) : apart a b → apart b a.
Proof. by intros [? ?]. Qed.

Lemma parent_app (a rel : path) : rel ≠ [] → parent (a ++ rel) = a ++ parent rel.
Proof. intros. by apply removelast_app. Qed.

Lemma parent_prefix (p : path) : parent p `prefix_of` p.
Proof.
  destruct (decide (p = [])) as [->|Hp]; [done|].
  rewrite (parent_last p Hp) at 2. by apply prefix_app_r.
Qed.

Lemma parent_strict (p : path) : p ≠ [] → ¬ p `prefix_of` parent p.
Proof.
  intros Hp H%prefix_length. rewrite length_parent in H. destruct p; simpl in *; [done|lia].
Qed.

Lemma backup_root_apart (dst_root : path) (ts : string) :
  ¬ dst_root `prefix_of` backup_root_of dst_root ts →
  apart dst_root (backup_root_of dst_root ts).
Proof.
  intros H. split; [done|]. intros Hb. eapply backup_root_off_destination; [exact H| |exact Hb].
  done.
Qed.

Lemma source_rel_file (s : fs) (src_root rel : path) :
  source_rel s src_root rel → rel ≠ [] ∧ ∃ data, s !! (src_root ++ rel) = Some (File data).
Proof.
  intros (rel' & data & E & Hf & Hd)%elem_of_walk_files. apply app_inv_head in E as <-.
  split; [by apply all_dirs_top in Hd as [_ ?]|eauto].
Qed.

Lemma source_rel_intro (s : fs) (src_root rel : path) (data : string) :
  well_formed s → rel ≠ [] → s !! (src_root ++ rel) = Some (File data) →
  source_rel s src_root rel.
Proof.
  intros Hwf Hne Hf. apply elem_of_walk_files. exists rel, data. split_and!; [done..|].
  apply well_formed_all_dirs; [done|by rewrite Hf|done].
Qed.

(** No regular file of a well-formed source tree is above another one. *)
Lemma source_rel_prefix (s : fs) (src_root rel rel' : path) :
  well_formed s → source_rel s src_root rel → source_rel s src_root rel' →
  rel `prefix_of` rel' → rel = rel'.
Proof.
  intros Hwf [Hne [data Hf]]%source_rel_file [_ [data' Hf']]%source_rel_file [y ->].
  destruct y as [|c y]; [symmetry; apply app_nil_r|].
  assert (is_dir s (src_root ++ rel) = true) as Hd.
  { apply (well_formed_above s (src_root ++ rel) (c :: y)); [done| |done].
    rewrite <- app_assoc. by rewrite Hf'. }
  apply is_dir_lookup in Hd; [congruence|]. by intros [_ ?]%app_eq_nil.
Qed.

Lemma source_rel_parent (s : fs) (src_root rel rel' : path) :
  well_formed s → source_rel s src_root rel → source_rel s src_root rel' →
  ¬ rel `prefix_of` parent rel'.
Proof.
  intros Hwf Hr Hr' Hp.
  assert (rel = rel') as ->.
  { eapply source_rel_prefix; [done..|]. etransitivity; [exact Hp|apply parent_prefix]. }
  apply source_rel_file in Hr as [Hne _]. by apply parent_strict in Hp.
Qed.

(** ** The passes of a call with the clock bound *)

Lemma mkdir_from_Return (rest : list string) (base : path) (s : fs) :
  (∀ p, p `prefix_of` base ++ rest → ¬ p `prefix_of` base → is_file s p = false) →
  ∃ s', mkdir_from base rest s = (Return tt, s').
Proof.
  revert base s. induction rest as [|c rest IH]; intros base s Hfree; simpl; [eauto|].
  assert (base ++ [c] `prefix_of` base ++ c :: rest) as Hp
    by (rewrite <- (snoc_app base c rest); by exists rest).
  assert (¬ base ++ [c] `prefix_of` base) as Hn by apply prefix_snoc_not.
  pose proof (Hfree _ Hp Hn) as Hf. unfold is_file, stat in Hf.
  destruct (base ++ [c]) as [|x q] eqn:E; [by destruct base|]. rewrite <- E in *.
  destruct (s !! (base ++ [c])) as [[data|]|] eqn:El; [done|..]; apply IH.
  - intros p Hp1 Hp2. rewrite snoc_app in Hp1. apply Hfree; [done|].
    intros Hb. apply Hp2. etransitivity; [exact Hb|by eexists].
  - intros p Hp1 Hp2. rewrite snoc_app in Hp1.
    assert (is_file s p = false) as Hs.
    { apply Hfree; [done|]. intros Hb. apply Hp2.
      etransitivity; [exact Hb|by eexists]. }
    unfold is_file, stat in *. destruct p as [|y p]; [done|].
    rewrite lookup_insert_ne; [done|]. intros E'. apply Hp2. by rewrite E'.
Qed.

(** A loop whose iterations all return and keep an invariant returns and
    keeps it. *)
Lemma for_each_invariant {A B : Type} (body : A → B → M A)
    (I : list B → A → fs → Prop) (l : list B) :
  (∀ done x rest a s, l = done ++ x :: rest → I done a s →
     ∃ a' s', body a x s = (Return a', s') ∧ I (done ++ [x]) a' s') →
  ∀ a s, I [] a s → ∃ a' s', for_each body a l s = (Return a', s') ∧ I l a' s'.
Proof.
  intros Hstep.
  assert (∀ rest done a s, l = done ++ rest → I done a s →
            ∃ a' s', for_each body a rest s = (Return a', s') ∧ I l a' s') as H.
  { induction rest as [|x rest IH]; intros done a s El HI; simpl.
    - rewrite app_nil_r in El. subst. by exists a, s.
    - destruct (Hstep done x rest a s El HI) as (a1 & s1 & E1 & H1).
      unfold bind. rewrite E1. apply (IH (done ++ [x])); [|done].
      by rewrite <- app_assoc. }
  intros a s. by apply (H l []).
Qed.

Lemma walk_files_NoDup (s : fs) (top : path) : NoDup (walk_files s top).
Proof.
  unfold walk_files.
  apply (sublist_NoDup _ (map_to_list s).*1).
  - apply NoDup_fst_map_to_list.
  - apply fmap_sublist, sublist_filter.
Qed.

Lemma relative_to_app (base rel : path) : relative_to (base ++ rel) base = Some rel.
Proof. by apply relative_to_Some. Qed.

Lemma walk_files_source (s : fs) (top f : path) :
  f ∈ walk_files s top → ∃ rel, f = top ++ rel ∧ source_rel s top rel.
Proof.
  intros Hf. pose proof Hf as (rel & data & -> & _)%elem_of_walk_files. by exists rel.
Qed.

Lemma stat_nonempty (s : fs) (p : path) : p ≠ [] → stat s p = s !! p.
Proof. by destruct p. Qed.

(** A copy onto a place that is no directory and has a directory above it
    writes the file there. *)
Lemma copy2_plain (f d : path) (data : string) (s : fs) :
  f ≠ [] → d ≠ [] → f ≠ d → s !! f = Some (File data) → is_dir s d = false →
  (s !! d = None → is_dir s (parent d) = true) →
  copy2 f d s = (Return tt, <[d := File data]> s).
Proof.
  intros Hf Hd Hne Hread Hnd Hpar. unfold copy2. rewrite Hnd.
  rewrite decide_False by done. unfold bind, read_file, write_file, stat, is_dir, stat in *.
  destruct f as [|cf f]; [done|]. rewrite Hread.
  destruct d as [|cd d]; [done|].
  destruct (s !! (cd :: d)) as [[]|]; [done|done|].
  specialize (Hpar eq_refl).
  by destruct (match parent (cd :: d) with [] => Some Dir | _ => s !! parent (cd :: d) end)
    as [[]|].
Qed.

Section with_clock.
Context (s0 : fs) (src dst : path) (ts : string).
Local Abbreviation bk := (backup_root_of dst ts).
Context (Hwf : well_formed s0).
Context (Hsd : apart src dst) (Hsb : apart src bk) (Hdb : ¬ dst `prefix_of` bk).
Context (Hfresh : s0 !! bk = None).
Context (Hbkfree : ∀ p, p `prefix_of` bk → is_file s0 p = false).
Context (Hcompat : compatible s0 src dst).

Local Abbreviation scaffold' := (scaffold s0 src dst bk).
Local Abbreviation patched' := (patched s0 src dst bk).
Local Abbreviation source := (source_rel s0 src).

Lemma dst_bk_apart : apart dst bk.
Proof. by apply backup_root_apart. Qed.

Lemma below_backup_fresh (y : path) : s0 !! (bk ++ y) = None.
Proof.
  destruct y as [|c y]; [by rewrite app_nil_r|].
  destruct (s0 !! (bk ++ c :: y)) as [e|] eqn:E; [|done].
  assert (is_dir s0 bk = true) as Hd
    by (apply (well_formed_above s0 bk (c :: y)); [done|by rewrite E|done]).
  apply is_dir_lookup in Hd; [congruence|apply backup_root_of_nonempty].
Qed.

(** No scaffold directory is where a file is copied to or backed up to. *)
Lemma scaffold_not_dst (rel : path) : source rel → ¬ scaffold' (dst ++ rel).
Proof.
  intros Hr [Hb|(rel' & Hr' & [Hp|Hp])].
  - apply Hdb. by apply prefix_app_l in Hb.
  - rewrite parent_app in Hp by (by apply source_rel_file in Hr' as [? _]).
    apply prefix_app_inv in Hp. by apply (source_rel_parent s0 src rel rel').
  - rewrite parent_app in Hp by (by apply source_rel_file in Hr' as [? _]).
    destruct Hp as [y Hp]. rewrite <- app_assoc in Hp. symmetry in Hp.
    by apply (apart_app _ _ _ _ dst_bk_apart) in Hp.
Qed.

Lemma scaffold_not_bk (rel : path) : source rel → ¬ scaffold' (bk ++ rel).
Proof.
  intros Hr [Hb|(rel' & Hr' & [Hp|Hp])].
  - apply prefix_length in Hb. rewrite length_app in Hb.
    apply source_rel_file in Hr as [Hne _]. destruct rel; simpl in *; [done|lia].
  - rewrite parent_app in Hp by (by apply source_rel_file in Hr' as [? _]).
    destruct Hp as [y Hp]. rewrite <- app_assoc in Hp.
    by apply (apart_app _ _ _ _ dst_bk_apart) in Hp.
  - rewrite parent_app in Hp by (by apply source_rel_file in Hr' as [? _]).
    apply prefix_app_inv in Hp. by apply (source_rel_parent s0 src rel rel').
Qed.

(** Reading a source file, a destination file not yet copied, a backup place
    not yet written. *)
Lemma patched_source (B C : list path) (s : fs) (rel : path) :
  patched' B C s → source rel → s !! (src ++ rel) = s0 !! (src ++ rel).
Proof.
  intros (_ & _ & H3) Hr. apply source_rel_file in Hr as [_ [data Hf]].
  destruct (H3 (src ++ rel)) as [?|(Hn & _)]; [| |done|congruence].
  - intros rel' _. by apply apart_app.
  - intros rel' _. by apply apart_app.
Qed.

Lemma patched_dst (B C : list path) (s : fs) (rel : path) :
  patched' B C s → source rel → rel ∉ C → s !! (dst ++ rel) = s0 !! (dst ++ rel).
Proof.
  intros (_ & _ & H3) Hr HC.
  destruct (H3 (dst ++ rel)) as [?|(_ & _ & Hs)]; [| |done|by apply scaffold_not_dst in Hs].
  - intros rel' Hrel' E%app_inv_head. by subst.
  - intros rel' _. apply apart_app, dst_bk_apart.
Qed.

Lemma patched_bk (B C : list path) (s : fs) (rel : path) :
  patched' B C s → source rel → rel ∉ B → s !! (bk ++ rel) = None.
Proof.
  intros (_ & _ & H3) Hr HB.
  destruct (H3 (bk ++ rel)) as [E|(_ & _ & Hs)]; [| | |by apply scaffold_not_bk in Hs].
  - intros rel' _. apply apart_app, apart_sym, dst_bk_apart.
  - intros rel' Hrel' E%app_inv_head. by subst.
  - by rewrite E, below_backup_fresh.
Qed.

(** Making a scaffold directory. *)
Lemma patched_mkdir (B C : list path) (s : fs) (q : path) :
  patched' B C s →
  (∀ p, p `prefix_of` q → scaffold' p ∧ is_file s0 p = false) →
  ∃ s', mkdir_parents q s = (Return tt, s') ∧ patched' B C s' ∧ is_dir s' q = true.
Proof.
  intros HP Hq.
  assert (∀ p rel, scaffold' p → source rel → p ≠ dst ++ rel ∧ p ≠ bk ++ rel) as Hsc.
  { intros p rel Hs Hr. split; intros ->.
    - by apply scaffold_not_dst in Hs.
    - by apply scaffold_not_bk in Hs. }
  destruct (mkdir_from_Return q [] s) as [s' Hs'].
  { intros p Hp _. destruct (Hq p Hp) as [Hs Hf]. destruct HP as (H1 & H2 & H3).
    destruct (H3 p) as [E|(_ & E & _)].
    - intros rel Hrel. apply Hsc; [done|]. by apply H1.
    - intros rel Hrel. apply Hsc; [done|]. by apply H2.
    - unfold is_file, stat in *. destruct p; [done|]. by rewrite E.
    - unfold is_file, stat in *. destruct p; [done|]. by rewrite E. }
  exists s'. split; [done|].
  pose proof (mkdir_from_creates q [] s) as Hc. rewrite Hs' in Hc. simpl in Hc.
  split.
  - destruct HP as (H1 & H2 & H3). split_and!.
    + intros rel Hrel. destruct (H1 rel Hrel) as [Hr E]. split; [done|].
      destruct (Hc (dst ++ rel)) as [->|(Hn & _)]; [done|].
      apply source_rel_file in Hr as [_ [data Hf]]. congruence.
    + intros rel Hrel. destruct (H2 rel Hrel) as (Hr & [e He] & E). split_and!; [done..|].
      destruct (Hc (bk ++ rel)) as [->|(Hn & _)]; [done|]. congruence.
    + intros p HC HB. destruct (Hc p) as [->|(Hn & Hd & Hp)]; [by apply H3|].
      right. destruct (H3 p HC HB) as [E|(_ & E & _)]; [|congruence].
      split_and!; [congruence|done|]. by apply Hq.
  - destruct q as [|c q]; [done|]. apply is_dir_lookup; [done|].
    by apply (mkdir_from_is_dir (c :: q) [] s).
Qed.

Lemma target_dst (rel p : path) :
  source rel → p `prefix_of` parent (dst ++ rel) → scaffold' p ∧ is_file s0 p = false.
Proof.
  intros Hr Hp. split; [right; eauto|].
  apply (Hcompat rel Hr).
  - etransitivity; [exact Hp|apply parent_prefix].
  - intros ->. apply parent_strict in Hp; [done|].
    apply source_rel_file in Hr as [? _]. by intros [_ ?]%app_eq_nil.
Qed.

Lemma target_bk (p : path) : p `prefix_of` bk → scaffold' p ∧ is_file s0 p = false.
Proof. intros Hp. split; [by left|by apply Hbkfree]. Qed.

Lemma target_bk_sub (rel p : path) :
  source rel → p `prefix_of` parent (bk ++ rel) → scaffold' p ∧ is_file s0 p = false.
Proof.
  intros Hr Hp. split; [right; eauto|].
  rewrite parent_app in Hp by (by apply source_rel_file in Hr as [? _]).
  destruct (prefix_weak_total p bk (bk ++ parent rel)) as [Hb|[y ->]];
    [done|by eexists|by apply Hbkfree|].
  unfold is_file, stat.
  pose proof (below_backup_fresh y) as E.
  destruct (bk ++ y); [done|]. by rewrite E.
Qed.

Lemma patched_start : patched' [] [] s0.
Proof.
  split_and!; [by intros ? ?%elem_of_nil..|]. intros p _ _. by left.
Qed.

Lemma discover_step_patched (acc : list path) (rel : path) (s : fs) :
  patched' [] [] s → source rel →
  ∃ s', discover_step src dst acc (src ++ rel) s
        = (Return (acc ++ option_list (to_replace s0 src dst (src ++ rel))), s')
        ∧ patched' [] [] s'.
Proof.
  intros HP Hr. unfold discover_step, relative, to_replace. rewrite relative_to_app.
  unfold bind at 1, ret at 1.
  destruct (patched_mkdir [] [] s (parent (dst ++ rel)) HP) as (s' & Hmk & HP' & _).
  { intros p Hp. by apply (target_dst rel). }
  unfold bind at 1. rewrite Hmk. unfold bind, dst_exists, ret.
  exists s'. split; [|done]. do 2 f_equal.
  assert (path_exists s' (dst ++ rel) = path_exists s0 (dst ++ rel)) as ->.
  { unfold path_exists, stat. destruct (dst ++ rel) eqn:E; [done|]. rewrite <- E.
    by rewrite (patched_dst [] [] s' rel HP' Hr) by apply not_elem_of_nil. }
  destruct (path_exists s0 (dst ++ rel)); simpl; [done|by rewrite app_nil_r].
Qed.

Lemma discovery_patched :
  ∃ s1, for_each (discover_step src dst) [] (walk_files s0 src) s0
        = (Return (omap (to_replace s0 src dst) (walk_files s0 src)), s1)
        ∧ patched' [] [] s1.
Proof.
  destruct (for_each_invariant (discover_step src dst)
              (fun done acc s => acc = omap (to_replace s0 src dst) done ∧ patched' [] [] s)
              (walk_files s0 src)) with (a := @nil path) (s := s0)
    as (acc & s1 & E & -> & HP).
  - intros done x rest acc s El [-> HP].
    assert (x ∈ walk_files s0 src) as (rel & -> & Hr)%walk_files_source
      by (rewrite El; set_solver).
    destruct (discover_step_patched (omap (to_replace s0 src dst) done) rel s HP Hr)
      as (s' & E & HP').
    eexists _, s'. split; [exact E|]. split; [|done].
    rewrite omap_app. simpl. by destruct (to_replace _ _ _ _).
  - split; [done|apply patched_start].
  - by exists s1.
Qed.


Lemma patched_backup_insert (B : list path) (rel : path) (data : string) (s : fs) :
  patched' B [] s → source rel → rel ∉ B → s0 !! (dst ++ rel) = Some (File data) →
  patched' (B ++ [rel]) [] (<[bk ++ rel := File data]> s).
Proof.
  intros (H1 & H2 & H3) Hr HB Hd. split_and!.
  - by intros ? ?%elem_of_nil.
  - intros rel' [Hin| ->%list_elem_of_singleton]%elem_of_app.
    + destruct (H2 rel' Hin) as (? & ? & E). split_and!; [done..|].
      rewrite lookup_insert_ne; [done|]. intros ?%app_inv_head. by subst.
    + split_and!; [done|by rewrite Hd|]. by rewrite lookup_insert_eq.
  - intros p HC HB'. rewrite lookup_insert_ne.
    + apply H3; [done|]. intros rel' Hin. apply HB'. apply elem_of_app. by left.
    + intros <-. eapply HB'; [|done]. apply elem_of_app. right. by apply list_elem_of_singleton.
Qed.

Lemma patched_copy_insert (B C : list path) (rel : path) (data : string) (s : fs) :
  patched' B C s → source rel → rel ∉ C → s0 !! (src ++ rel) = Some (File data) →
  patched' B (C ++ [rel]) (<[dst ++ rel := File data]> s).
Proof.
  intros (H1 & H2 & H3) Hr HC Hd. split_and!.
  - intros rel' [Hin| ->%list_elem_of_singleton]%elem_of_app.
    + destruct (H1 rel' Hin) as (? & E). split; [done|].
      rewrite lookup_insert_ne; [done|]. intros ?%app_inv_head. by subst.
    + split; [done|]. by rewrite lookup_insert_eq.
  - intros rel' Hin. destruct (H2 rel' Hin) as (? & ? & E). split_and!; [done..|].
    rewrite lookup_insert_ne; [done|]. apply apart_app, dst_bk_apart.
  - intros p HC' HB. rewrite lookup_insert_ne.
    + apply H3; [|done]. intros rel' Hin. apply HC'. apply elem_of_app. by left.
    + intros <-. eapply HC'; [|done]. apply elem_of_app. right. by apply list_elem_of_singleton.
Qed.

Lemma source_dst_nonempty (rel : path) : source rel → dst ++ rel ≠ [] ∧ src ++ rel ≠ [].
Proof. intros [Hne _]%source_rel_file. split; by intros [_ ?]%app_eq_nil. Qed.

Lemma backup_step_patched (B : list path) (rel : path) (s : fs) :
  patched' B [] s → source rel → rel ∉ B → path_exists s0 (dst ++ rel) = true →
  ∃ s', backup_step dst bk tt (dst ++ rel) s = (Return tt, s')
        ∧ patched' (B ++ [rel]) [] s'.
Proof.
  intros HP Hr HB Hex. unfold backup_step, relative. rewrite relative_to_app.
  unfold bind at 1, ret at 1.
  destruct (patched_mkdir B [] s (parent (bk ++ rel)) HP) as (s' & Hmk & HP' & Hpar).
  { intros p Hp. by apply (target_bk_sub rel). }
  unfold bind. rewrite Hmk.
  destruct (source_dst_nonempty rel Hr) as [Hdne _].
  pose proof (patched_dst B [] s' rel HP' Hr (not_elem_of_nil _)) as Hd.
  pose proof (patched_bk B [] s' rel HP' Hr HB) as Hb.
  destruct (Hcompat rel Hr) as [Hnd _].
  assert (∃ data, s0 !! (dst ++ rel) = Some (File data)) as [data Hdata].
  { unfold path_exists, is_dir in *. rewrite stat_nonempty in Hex, Hnd by done.
    destruct (s0 !! (dst ++ rel)) as [[]|]; by eauto. }
  exists (<[bk ++ rel := File data]> s'). split; [|by apply patched_backup_insert].
  apply copy2_plain; [done| |apply apart_app, dst_bk_apart|congruence| |done].
  - intros [? _]%app_eq_nil. by apply (backup_root_of_nonempty dst ts).
  - unfold is_dir. rewrite stat_nonempty, Hb; [done|].
    intros [? _]%app_eq_nil. by apply (backup_root_of_nonempty dst ts).
Qed.

Lemma to_replace_Some (f p : path) :
  f ∈ walk_files s0 src → to_replace s0 src dst f = Some p →
  ∃ rel, f = src ++ rel ∧ p = dst ++ rel ∧ source rel ∧ path_exists s0 (dst ++ rel) = true.
Proof.
  intros (rel & -> & Hr)%walk_files_source. unfold to_replace. rewrite relative_to_app.
  destruct (path_exists s0 (dst ++ rel)) eqn:E; [|done]. intros [= <-]. by exists rel.
Qed.

Lemma to_replace_NoDup (l : list path) :
  NoDup l → (∀ f, f ∈ l → f ∈ walk_files s0 src) →
  NoDup (omap (to_replace s0 src dst) l).
Proof.
  induction 1 as [|f l Hf Hnd IH]; intros Hin; simpl; [constructor|].
  destruct (to_replace s0 src dst f) as [p|] eqn:E; [|apply IH; set_solver].
  constructor; [|apply IH; set_solver].
  intros (f' & Hf' & E')%list_elem_of_omap.
  apply to_replace_Some in E as (rel & -> & -> & _); [|set_solver].
  apply to_replace_Some in E' as (rel' & -> & ->%app_inv_head & _); [|set_solver].
  done.
Qed.

Lemma files_to_replace_NoDup : NoDup (omap (to_replace s0 src dst) (walk_files s0 src)).
Proof. apply to_replace_NoDup; [apply walk_files_NoDup|done]. Qed.

Lemma backup_patched (s : fs) :
  patched' [] [] s →
  ∃ B s', backup_original_files dst (omap (to_replace s0 src dst) (walk_files s0 src)) bk s
          = (Return tt, s')
          ∧ omap (to_replace s0 src dst) (walk_files s0 src) = (dst ++.) <$> B
          ∧ patched' B [] s'.
Proof.
  intros HP. unfold backup_original_files.
  destruct (for_each_invariant (backup_step dst bk)
              (fun done _ s => ∃ B, done = (dst ++.) <$> B ∧ patched' B [] s)
              (omap (to_replace s0 src dst) (walk_files s0 src))) with (a := tt) (s := s)
    as ([] & s' & E & B & EB & HP').
  - intros done x rest [] s1 El (B & -> & HP1).
    pose proof files_to_replace_NoDup as Hnd. rewrite El in Hnd.
    apply NoDup_app in Hnd as (_ & Hnd & _).
    assert (x ∈ omap (to_replace s0 src dst) (walk_files s0 src)) as Hx
      by (rewrite El; set_solver).
    apply list_elem_of_omap in Hx as (f & Hf & Hx).
    apply to_replace_Some in Hx as (rel & -> & -> & Hr & Hex); [|done].
    assert (rel ∉ B) as HB.
    { intros Hin. apply (Hnd (dst ++ rel)); [|by left].
      apply list_elem_of_fmap. by exists rel. }
    destruct (backup_step_patched B rel s1 HP1 Hr HB Hex) as (s2 & E2 & HP2).
    exists tt, s2. split; [done|]. exists (B ++ [rel]). by rewrite fmap_app.
  - by exists [].
  - by exists B, s'.
Qed.

(** The second walk finds the files that the first one found. *)
Lemma patched_keeps_dir (B C : list path) (s : fs) (q : path) :
  patched' B C s → is_dir s0 q = true → is_dir s q = true.
Proof.
  intros (H1 & H2 & H3) Hq. destruct (decide (q = [])) as [->|Hne]; [done|].
  apply is_dir_lookup in Hq; [|done]. apply is_dir_lookup; [done|].
  destruct (H3 q) as [E|(E & _)]; [| |congruence..].
  - intros rel Hrel ->. destruct (H1 rel Hrel) as [Hr _].
    destruct (Hcompat rel Hr) as [Hnd _]. apply is_dir_lookup in Hq; [congruence|done].
  - intros rel Hrel ->. by rewrite below_backup_fresh in Hq.
Qed.

Lemma all_dirs_mono (s s' : fs) (rel top : path) :
  (∀ q, is_dir s q = true → is_dir s' q = true) →
  all_dirs s top rel = true → all_dirs s' top rel = true.
Proof.
  intros Hm. revert top. induction rel as [|c rel IH]; intros top; [done|].
  destruct rel as [|c' rel]; [apply Hm|].
  change (is_dir s top && all_dirs s (top ++ [c]) (c' :: rel) = true →
          is_dir s' top && all_dirs s' (top ++ [c]) (c' :: rel) = true).
  intros [Ht Hr]%andb_true_iff. apply andb_true_iff. split; [by apply Hm|by apply IH].
Qed.

Lemma patched_walk (B C : list path) (s : fs) (f : path) :
  patched' B C s → f ∈ walk_files s src ↔ f ∈ walk_files s0 src.
Proof.
  intros HP. split.
  - intros (rel & data & -> & Hf & Hd)%elem_of_walk_files.
    apply all_dirs_top in Hd as [_ Hne]. destruct HP as (_ & _ & H3).
    destruct (H3 (src ++ rel)) as [E|(_ & E & _)]; [| | |congruence].
    + intros rel' _. by apply apart_app.
    + intros rel' _. by apply apart_app.
    + apply (source_rel_intro s0 src rel data); [done..|congruence].
  - intros Hf. pose proof Hf as (rel & data & -> & Hd & Ha)%elem_of_walk_files.
    apply elem_of_walk_files. exists rel, data. split_and!; [done| |].
    + by rewrite (patched_source B C s rel HP Hf).
    + eapply all_dirs_mono; [|exact Ha]. intros q. by apply (patched_keeps_dir B C).
Qed.

Lemma copy_step_patched (B C : list path) (acc : nat * nat) (rel : path) (s : fs) :
  patched' B C s → source rel → rel ∉ C →
  ∃ s', copy_step src dst acc (src ++ rel) s
        = (Return (S acc.1,
                   acc.2 + length (option_list (to_replace s0 src dst (src ++ rel)))), s')
        ∧ patched' B (C ++ [rel]) s'.
Proof.
  intros HP Hr HC. unfold copy_step, relative, to_replace. rewrite relative_to_app.
  unfold bind at 1, ret at 1.
  destruct (patched_mkdir B C s (parent (dst ++ rel)) HP) as (s' & Hmk & HP' & Hpar).
  { intros p Hp. by apply (target_dst rel). }
  unfold bind at 1. rewrite Hmk. unfold bind at 1, dst_exists.
  destruct (source_dst_nonempty rel Hr) as [Hdne Hsne].
  pose proof (patched_dst B C s' rel HP' Hr HC) as Hd.
  pose proof (patched_source B C s' rel HP' Hr) as Hs.
  destruct (Hcompat rel Hr) as [Hnd _].
  pose proof Hr as [_ [data Hdata]]%source_rel_file.
  assert (path_exists s' (dst ++ rel) = path_exists s0 (dst ++ rel)) as ->
    by (unfold path_exists; by rewrite !stat_nonempty, Hd).
  exists (<[dst ++ rel := File data]> s'). split; [|by apply patched_copy_insert].
  unfold bind. rewrite (copy2_plain (src ++ rel) (dst ++ rel) data s').
  - unfold ret. do 3 f_equal. destruct (path_exists s0 (dst ++ rel)); simpl; lia.
  - done.
  - done.
  - by apply apart_app.
  - congruence.
  - unfold is_dir in *. rewrite stat_nonempty in * by done. by rewrite Hd.
  - done.
Qed.

Lemma copying_patched (B : list path) (s : fs) :
  patched' B [] s →
  ∃ C s', for_each (copy_step src dst) (0, 0) (walk_files s src) s
          = (Return (length (walk_files s src),
                     length (omap (to_replace s0 src dst) (walk_files s src))), s')
          ∧ walk_files s src = (src ++.) <$> C
          ∧ patched' B C s'.
Proof.
  intros HP.
  destruct (for_each_invariant (copy_step src dst)
              (fun done acc s =>
                 acc = (length done, length (omap (to_replace s0 src dst) done))
                 ∧ ∃ C, done = (src ++.) <$> C ∧ patched' B C s)
              (walk_files s src)) with (a := (0, 0)) (s := s)
    as (acc & s' & E & -> & C & EC & HP').
  - intros done x rest acc s1 El (-> & C & -> & HP1).
    pose proof (walk_files_NoDup s src) as Hnd. rewrite El in Hnd.
    apply NoDup_app in Hnd as (_ & Hnd & _).
    assert (x ∈ walk_files s0 src) as (rel & -> & Hr)%walk_files_source.
    { apply (patched_walk B [] s); [done|]. rewrite El. set_solver. }
    assert (rel ∉ C) as HC.
    { intros Hin. apply (Hnd (src ++ rel)); [|by left].
      apply list_elem_of_fmap. by exists rel. }
    destruct (copy_step_patched B C
                (length ((src ++.) <$> C),
                 length (omap (to_replace s0 src dst) ((src ++.) <$> C))) rel s1 HP1 Hr HC)
      as (s2 & E2 & HP2).
    eexists _, s2. split; [exact E2|]. split.
    + simpl. rewrite omap_app, !length_app. simpl.
      destruct (to_replace s0 src dst (src ++ rel)); simpl; f_equal; lia.
    + exists (C ++ [rel]). by rewrite fmap_app.
  - split; [done|]. by exists [].
  - by exists C, s'.
Qed.

Lemma patched_walk_Permutation (B C : list path) (s : fs) :
  patched' B C s → walk_files s src ≡ₚ walk_files s0 src.
Proof.
  intros HP. apply NoDup_Permutation; [apply walk_files_NoDup..|].
  intros f. by apply (patched_walk B C).
Qed.

(** With [datetime] bound and nothing in the way, a call returns, and the
    file system it leaves is the one before with the files to replace backed
    up and the files of the source copied. *)
Lemma copy_tree_over_patched (g : globals) :
  datetime_now g = Some ts →
  ∃ B C s',
    copy_tree_over g src dst s0
    = (Return (length (walk_files s0 src),
               length (omap (to_replace s0 src dst) (walk_files s0 src)), bk), s')
    ∧ patched' B C s'
    ∧ (∀ rel, rel ∈ C ↔ source rel)
    ∧ (∀ rel, rel ∈ B ↔ source rel ∧ path_exists s0 (dst ++ rel) = true)
    ∧ NoDup B
    ∧ length B = length (omap (to_replace s0 src dst) (walk_files s0 src)).
Proof.
  intros Hg.
  destruct discovery_patched as (s1 & E1 & HP1).
  destruct (patched_mkdir [] [] s1 bk HP1 target_bk) as (s2 & E2 & HP2 & _).
  destruct (backup_patched s2 HP2) as (B & s3 & E3 & EB & HP3).
  destruct (copying_patched B s3 HP3) as (C & s' & E4 & EC & HP').
  pose proof (patched_walk_Permutation B [] s3 HP3) as Hperm.
  exists B, C, s'. split_and!.
  - unfold copy_tree_over, bind at 1, os_walk. unfold bind at 1. rewrite E1.
    unfold bind at 1, timestamp_now. rewrite Hg. unfold ret at 1.
    unfold bind at 1.  rewrite E2. unfold bind at 1.
    replace (match omap (to_replace s0 src dst) (walk_files s0 src) with
             | [] => ret tt
             | _ => backup_original_files dst
                      (omap (to_replace s0 src dst) (walk_files s0 src)) bk
             end s2)
      with (backup_original_files dst
              (omap (to_replace s0 src dst) (walk_files s0 src)) bk s2)
      by (by destruct (omap _ _)).
    rewrite E3. unfold bind at 1. unfold bind. rewrite E4. unfold ret. simpl.
    by rewrite Hperm.
  - done.
  - intros rel. rewrite <- (patched_walk B [] s3 (src ++ rel) HP3), EC.
    rewrite list_elem_of_fmap. split; [by exists rel|].
    by intros (rel' & ->%app_inv_head & ?).
  - intros rel. split.
    + intros Hin. assert (dst ++ rel ∈ omap (to_replace s0 src dst) (walk_files s0 src))
        as (f & Hf & Hx)%list_elem_of_omap
        by (rewrite EB; apply list_elem_of_fmap; by exists rel).
      by apply to_replace_Some in Hx as (rel' & -> & ->%app_inv_head & ? & ?).
    + intros [Hr Hex].
      assert (dst ++ rel ∈ (dst ++.) <$> B) as (rel' & ->%app_inv_head & ?)%list_elem_of_fmap;
        [|done].
      rewrite <- EB. apply list_elem_of_omap. exists (src ++ rel). split; [done|].
      unfold to_replace. by rewrite relative_to_app, Hex.
  - apply (NoDup_fmap_1 (dst ++.)). rewrite <- EB. apply files_to_replace_NoDup.
  - by rewrite EB, length_fmap.
Qed.

End with_clock.

(** ** Every operation keeps the file system well formed *)

Global Instance keeps_wf_refl : Reflexive keeps_wf.
Proof. intros s H. exact H. Qed.

Global Instance keeps_wf_trans : Transitive keeps_wf.
Proof. intros s1 s2 s3 H12 H23 H. by apply H23, H12. Qed.

Lemma parent_neq (p : path) : p ≠ [] → parent p ≠ p.
Proof. intros Hp E. apply (parent_strict p Hp). by rewrite E. Qed.

Lemma is_dir_insert_ne (s : fs) (p q : path) (e : entry) :
  p ≠ q → is_dir (<[p := e]> s) q = is_dir s q.
Proof. intros. unfold is_dir, stat. destruct q; [done|]. by rewrite lookup_insert_ne. Qed.

Lemma insert_dir_wf (s : fs) (p : path) :
  well_formed s → p ≠ [] → is_dir s (parent p) = true → well_formed (<[p := Dir]> s).
Proof.
  intros Hwf Hp Hpar q Hq Hne. destruct (decide (parent q = p)) as [E|E].
  - rewrite E. apply is_dir_lookup; [done|]. by rewrite lookup_insert_eq.
  - rewrite is_dir_insert_ne by done. destruct (decide (p = q)) as [<-|Hpq]; [done|].
    rewrite lookup_insert_ne in Hq by done. by apply Hwf.
Qed.

Lemma insert_file_wf (s : fs) (p : path) (data : string) :
  well_formed s → p ≠ [] → is_dir s (parent p) = true → is_dir s p = false →
  well_formed (<[p := File data]> s).
Proof.
  intros Hwf Hp Hpar Hnd q Hq Hne. destruct (decide (parent q = p)) as [E|E].
  - destruct (decide (p = q)) as [<-|Hpq]; [exfalso; by apply (parent_neq p)|].
    rewrite lookup_insert_ne in Hq by done. specialize (Hwf q Hq Hne). congruence.
  - rewrite is_dir_insert_ne by done. destruct (decide (p = q)) as [<-|Hpq]; [done|].
    rewrite lookup_insert_ne in Hq by done. by apply Hwf.
Qed.

Lemma mkdir_from_wf (rest : list string) (base : path) (s : fs) :
  is_dir s base = true → keeps_wf s (mkdir_from base rest s).2.
Proof.
  revert base s. induction rest as [|c rest IH]; intros base s Hb Hwf; simpl; [done|].
  assert (base ++ [c] ≠ []) as Hne by (by destruct base).
  destruct (s !! (base ++ [c])) as [[data|]|] eqn:E; simpl; [done|..].
  - apply IH; [by apply is_dir_lookup|done].
  - apply IH.
    + apply is_dir_lookup; [done|]. by rewrite lookup_insert_eq.
    + apply insert_dir_wf; [done..|]. by rewrite parent_snoc.
Qed.

Lemma mkdir_parents_wf (p : path) (s : fs) : keeps_wf s (mkdir_parents p s).2.
Proof. by apply mkdir_from_wf. Qed.

Lemma write_file_wf (p : path) (data : string) (s : fs) :
  keeps_wf s (write_file p data s).2.
Proof.
  intros Hwf. unfold write_file.
  destruct (decide (p = [])) as [->|Hp]; [done|].
  rewrite (stat_nonempty s p Hp).
  destruct (s !! p) as [[old|]|] eqn:E; simpl; [|done|].
  - apply insert_file_wf; [done..| |].
    + apply Hwf; [by rewrite E|done].
    + unfold is_dir. by rewrite stat_nonempty, E.
  - destruct (stat s (parent p)) as [[]|] eqn:Ep; simpl; [done| |done].
    apply insert_file_wf; [done..| |].
    + unfold is_dir. by rewrite Ep.
    + unfold is_dir. by rewrite stat_nonempty, E.
Qed.

Lemma copy2_wf (src dst : path) (s : fs) : keeps_wf s (copy2 src dst s).2.
Proof.
  unfold copy2. set (d := if is_dir s dst then _ else _).
  destruct (decide (src = d)); [destruct (path_exists s src); reflexivity|].
  unfold bind, read_file. destruct (stat s src) as [[]|]; simpl; try reflexivity.
  apply write_file_wf.
Qed.

Lemma backup_step_wf (target_root backup_root : path) (u : unit) (f : path) (s : fs) :
  keeps_wf s (backup_step target_root backup_root u f s).2.
Proof.
  unfold backup_step, relative. destruct (relative_to f target_root); [|reflexivity].
  apply bind_state; [apply _|reflexivity|]. intros rel s1.
  apply bind_state; [apply _|apply mkdir_parents_wf|]. intros _ s2.
  apply copy2_wf.
Qed.

Lemma discover_step_wf (src_root dst_root : path) (acc : list path) (f : path) (s : fs) :
  keeps_wf s (discover_step src_root dst_root acc f s).2.
Proof.
  unfold discover_step, relative. destruct (relative_to f src_root); [|reflexivity].
  apply bind_state; [apply _|reflexivity|]. intros rel s1.
  apply bind_state; [apply _|apply mkdir_parents_wf|]. intros _ s2.
  apply bind_state; [apply _|reflexivity|]. intros ex s3. reflexivity.
Qed.

Lemma copy_step_wf (src_root dst_root : path) (acc : nat * nat) (f : path) (s : fs) :
  keeps_wf s (copy_step src_root dst_root acc f s).2.
Proof.
  unfold copy_step, relative. destruct (relative_to f src_root); [|reflexivity].
  apply bind_state; [apply _|reflexivity|]. intros rel s1.
  apply bind_state; [apply _|apply mkdir_parents_wf|]. intros _ s2.
  apply bind_state; [apply _|reflexivity|]. intros ex s3.
  apply bind_state; [apply _|apply copy2_wf|]. intros _ s4. reflexivity.
Qed.

Lemma copy_tree_over_keeps_wf (g : globals) (src_root dst_root : path) (s : fs) :
  keeps_wf s (copy_tree_over g src_root dst_root s).2.
Proof.
  unfold copy_tree_over.
  apply bind_state; [apply _|reflexivity|]. intros files s1.
  apply bind_state; [apply _| |].
  { apply for_each_state; [apply _..|]. intros. apply discover_step_wf. }
  intros ftr s2. apply bind_state; [apply _| |].
  { unfold timestamp_now. destruct (datetime_now g); reflexivity. }
  intros ts s3. apply bind_state; [apply _|apply mkdir_parents_wf|]. intros _ s4.
  apply bind_state; [apply _| |].
  { destruct ftr; [reflexivity|]. unfold backup_original_files.
    apply for_each_state; [apply _..|]. intros. apply backup_step_wf. }
  intros _ s5. apply bind_state; [apply _|reflexivity|]. intros files2 s6.
  apply bind_state; [apply _| |].
  { apply for_each_state; [apply _..|]. intros. apply copy_step_wf. }
  intros counts s7. reflexivity.
Qed.







Lemma elem_of_prefixes (q p : path) : q `prefix_of` p → q ∈ prefixes p.
Proof.
  intros [k ->]. unfold prefixes. apply list_elem_of_fmap. exists (length q). split.
  - by rewrite take_app_length.
  - apply elem_of_seq. rewrite length_app. lia.
Qed.

Lemma prefix_parent (q p : path) : q `prefix_of` p → q ≠ p → q `prefix_of` parent p.
Proof.
  intros [k ->] Hne. destruct (decide (k = [])) as [->|Hk]; [by rewrite app_nil_r in Hne|].
  rewrite parent_app by done. by eexists.
Qed.

Lemma ready_spec (s : fs) (src_root dst_root : path) (ts : string) :
  ready s src_root dst_root ts = true → unobstructed s src_root dst_root ts.
Proof.
  unfold ready, unobstructed. rewrite !andb_true_iff, !bool_decide_eq_true, !forallb_forall.
  intros [[[[[[Hwf Hsd] Hsb] Hdb] Hfresh] Hbk] Hc]. split_and!; try done.
  - by apply well_formedb_spec.
  - apply negb_true_iff in Hfresh. unfold path_exists in Hfresh.
    rewrite stat_nonempty in Hfresh by apply backup_root_of_nonempty.
    by destruct (s !! _).
  - intros p Hp. apply negb_true_iff, Hbk, list_elem_of_In. by apply elem_of_prefixes.
  - intros rel Hr. specialize (Hc (src_root ++ rel)). rewrite relative_to_app in Hc.
    apply andb_true_iff in Hc as [Hd Hf]; [|by apply list_elem_of_In].
    split; [by apply negb_true_iff|]. intros p Hp Hne.
    rewrite forallb_forall in Hf. apply negb_true_iff, Hf, list_elem_of_In.
    by apply elem_of_prefixes, prefix_parent.
Qed.

(** ** With [datetime] bound: what the patch operation does by design *)

(** The backup root as a prefix, and the lookups of a patched file system. *)
Lemma patched_below_backup (s0 s : fs) (src_root dst_root : path) (ts : string)
    (B C : list path) (p : path) (data : string) :
  unobstructed s0 src_root dst_root ts →
  patched s0 src_root dst_root (backup_root_of dst_root ts) B C s →
  backup_root_of dst_root ts `prefix_of` p →
  s !! p = Some (File data) →
  ∃ rel, p = backup_root_of dst_root ts ++ rel ∧ rel ∈ B
         ∧ s0 !! (dst_root ++ rel) = Some (File data).
Proof.
  intros (Hwf & Hsd & Hsb & Hdb & Hfresh & Hbk & Hc) (H1 & H2 & H3) [y ->] Hf.
  destruct (decide (y ∈ B)) as [Hy|Hy].
  - exists y. split_and!; [done..|]. destruct (H2 y Hy) as (_ & _ & E). congruence.
  - destruct (H3 (backup_root_of dst_root ts ++ y)) as [E|(_ & E & _)]; [| | |congruence].
    + intros rel _. apply apart_app, apart_sym, backup_root_apart, Hdb.
    + intros rel Hrel ->%app_inv_head. done.
    + rewrite (below_backup_fresh s0 dst_root ts Hwf Hfresh) in E. congruence.
Qed.

(** X1.  Count accuracy.  With [datetime] bound and nothing in the way, a
    call returns: [files_copied] is the number of regular files of the
    source, [files_overwritten] the number of those whose place in the
    destination was taken before the call, and the third component is the
    backup root [<parent of the destination>/backups/<timestamp>]. *)
Theorem patch_returns_counts (g : globals) (s : fs) (src_root dst_root : path) (ts : string) :
  datetime_now g = Some ts → ready s src_root dst_root ts = true →
  (copy_tree_over g src_root dst_root s).1
  = Return (length (walk_files s src_root),
            length (omap (to_replace s src_root dst_root) (walk_files s src_root)),
            backup_root_of dst_root ts).
Proof.
  intros Hg (Hwf & Hsd & Hsb & Hdb & Hfresh & Hbk & Hc)%ready_spec.
  destruct (copy_tree_over_patched s src_root dst_root ts Hwf Hsd Hsb Hdb Hfresh Hbk Hc g Hg)
    as (B & C & s' & E & _). by rewrite E.
Qed.

Lemma patch_returns_counts_witness :
  (copy_tree_over with_clock payload textures scenario).1
  = Return (length (walk_files scenario payload),
            length (omap (to_replace scenario payload textures) (walk_files scenario payload)),
            backup_root_of textures "20260101_120000").
Proof.
  apply (patch_returns_counts with_clock scenario payload textures "20260101_120000").
  - reflexivity.
  - vm_compute. reflexivity.
Defined.

(** X2.  Copy completeness.  With [datetime] bound and nothing in the way,
    every regular file of the source is, after the call, at the same
    relative path of the destination, with the same bytes. *)
Theorem patch_copies_source (g : globals) (s : fs) (src_root dst_root : path) (ts : string)
    (rel : path) :
  datetime_now g = Some ts → ready s src_root dst_root ts = true →
  src_root ++ rel ∈ walk_files s src_root →
  (copy_tree_over g src_root dst_root s).2 !! (dst_root ++ rel) = s !! (src_root ++ rel).
Proof.
  intros Hg (Hwf & Hsd & Hsb & Hdb & Hfresh & Hbk & Hc)%ready_spec Hr.
  destruct (copy_tree_over_patched s src_root dst_root ts Hwf Hsd Hsb Hdb Hfresh Hbk Hc g Hg)
    as (B & C & s' & E & (H1 & _) & HC & _). rewrite E. simpl.
  by apply H1, HC.
Qed.

Lemma patch_copies_source_witness :
  (copy_tree_over with_clock payload textures scenario).2 !! (textures ++ ["b.png"])
  = scenario !! (payload ++ ["b.png"]).
Proof.
  apply (patch_copies_source with_clock scenario payload textures "20260101_120000" ["b.png"]).
  - reflexivity.
  - vm_compute. reflexivity.
  - apply (bool_decide_unpack _). vm_compute. reflexivity.
Defined.

(** X3.  Backup completeness.  With [datetime] bound and nothing in the way,
    the regular files below the backup root after the call are the
    destination files that were about to be overwritten, and nothing else:
    each is at its relative path and has the bytes that the destination file
    had before the call. *)
Theorem patch_backs_up (g : globals) (s : fs) (src_root dst_root : path) (ts : string)
    (p : path) (data : string) :
  datetime_now g = Some ts → ready s src_root dst_root ts = true →
  backup_root_of dst_root ts `prefix_of` p →
  (copy_tree_over g src_root dst_root s).2 !! p = Some (File data)
  ↔ ∃ rel, p = backup_root_of dst_root ts ++ rel
           ∧ src_root ++ rel ∈ walk_files s src_root
           ∧ s !! (dst_root ++ rel) = Some (File data).
Proof.
  intros Hg Hready%ready_spec Hp.
  pose proof Hready as (Hwf & Hsd & Hsb & Hdb & Hfresh & Hbk & Hc).
  destruct (copy_tree_over_patched s src_root dst_root ts Hwf Hsd Hsb Hdb Hfresh Hbk Hc g Hg)
    as (B & C & s' & E & HP & HC & HB & _). rewrite E. simpl. split.
  - intros Hf. destruct (patched_below_backup s s' src_root dst_root ts B C p data)
      as (rel & -> & Hrel & Hd); [done..|].
    exists rel. split_and!; [done| |done]. by apply HB.
  - intros (rel & -> & Hr & Hd). destruct HP as (_ & H2 & _).
    destruct (H2 rel) as (_ & _ & ->); [|done]. apply HB. split; [done|].
    unfold path_exists. rewrite stat_nonempty, Hd; [done|].
    apply source_rel_file in Hr as [? _]. by intros [_ ?]%app_eq_nil.
Qed.

Lemma patch_backs_up_witness :
  (copy_tree_over with_clock payload textures scenario).2
    !! (backup_root_of textures "20260101_120000" ++ ["b.png"]) = Some (File "b-old-3KB")
  ↔ ∃ rel, backup_root_of textures "20260101_120000" ++ ["b.png"]
           = backup_root_of textures "20260101_120000" ++ rel
           ∧ payload ++ rel ∈ walk_files scenario payload
           ∧ scenario !! (textures ++ rel) = Some (File "b-old-3KB").
Proof.
  apply (patch_backs_up with_clock scenario payload textures "20260101_120000").
  - reflexivity.
  - vm_compute. reflexivity.
  - apply (bool_decide_unpack _). vm_compute. reflexivity.
Defined.

(** X4.  With [datetime] bound and nothing in the way, the backup set has as
    many regular files as the call reports files overwritten. *)
Theorem patch_backup_count (g : globals) (s : fs) (src_root dst_root : path) (ts : string) :
  datetime_now g = Some ts → ready s src_root dst_root ts = true →
  (copy_tree_over g src_root dst_root s).1
  = Return (length (walk_files s src_root),
            length (walk_files (copy_tree_over g src_root dst_root s).2
                      (backup_root_of dst_root ts)),
            backup_root_of dst_root ts).
Proof.
  intros Hg Hready%ready_spec.
  pose proof Hready as (Hwf & Hsd & Hsb & Hdb & Hfresh & Hbk & Hc).
  pose proof (copy_tree_over_keeps_wf g src_root dst_root s Hwf) as Hwf'.
  destruct (copy_tree_over_patched s src_root dst_root ts Hwf Hsd Hsb Hdb Hfresh Hbk Hc g Hg)
    as (B & C & s' & E & HP & HC & HB & HBnd & HBlen). rewrite E in *. simpl in *.
  rewrite <- HBlen. do 3 f_equal. symmetry.
  rewrite <- (length_fmap (backup_root_of dst_root ts ++.) B).
  apply Permutation_length, NoDup_Permutation.
  - apply walk_files_NoDup.
  - by apply (NoDup_fmap_2 _).
  - intros f. rewrite list_elem_of_fmap. split.
    + intros (rel & data & -> & Hf & _)%elem_of_walk_files.
      destruct (patched_below_backup s s' src_root dst_root ts B C
                  (backup_root_of dst_root ts ++ rel) data)
        as (rel' & Heq & Hin & _); [done|done|by eexists|done|]. by exists rel'.
    + intros (rel & -> & Hin). pose proof HP as (_ & H2 & _).
      destruct (H2 rel Hin) as (Hr & _ & Hlook). apply HB in Hin as [_ Hex].
      destruct (Hc rel Hr) as [Hnd _].
      pose proof Hr as [Hne _]%source_rel_file.
      assert (dst_root ++ rel ≠ []) as Hdne by (by intros [_ ?]%app_eq_nil).
      unfold path_exists, is_dir in *. rewrite stat_nonempty in Hex, Hnd by done.
      destruct (s !! (dst_root ++ rel)) as [[data|]|] eqn:Ed; try done.
      apply elem_of_walk_files. exists rel, data. split_and!; [done..|].
      apply well_formed_all_dirs; [done|by rewrite Hlook|done].
Qed.

Lemma patch_backup_count_witness :
  (copy_tree_over with_clock payload textures scenario).1
  = Return (length (walk_files scenario payload),
            length (walk_files (copy_tree_over with_clock payload textures scenario).2
                      (backup_root_of textures "20260101_120000")),
            backup_root_of textures "20260101_120000").
Proof.
  apply (patch_backup_count with_clock scenario payload textures "20260101_120000").
  - reflexivity.
  - vm_compute. reflexivity.
Defined.

(** Frame: away from the places of the source's files in the destination and
    from the backup set, an entry is as it was, or is a directory that was
    missing. *)
Theorem patch_frame (g : globals) (s : fs) (src_root dst_root : path) (ts : string)
    (p : path) :
  datetime_now g = Some ts → unobstructed s src_root dst_root ts →
  (∀ rel, source_rel s src_root rel → p ≠ dst_root ++ rel) →
  ¬ backup_root_of dst_root ts `prefix_of` p →
  (copy_tree_over g src_root dst_root s).2 !! p = s !! p
  ∨ (s !! p = None ∧ (copy_tree_over g src_root dst_root s).2 !! p = Some Dir
     ∧ scaffold s src_root dst_root (backup_root_of dst_root ts) p).
Proof.
  intros Hg (Hwf & Hsd & Hsb & Hdb & Hfresh & Hbk & Hc) Hsrc Hnb.
  destruct (copy_tree_over_patched s src_root dst_root ts Hwf Hsd Hsb Hdb Hfresh Hbk Hc g Hg)
    as (B & C & s' & E & (_ & _ & H3) & HC & _). rewrite E. simpl.
  apply H3.
  - intros rel Hrel. by apply Hsrc, HC.
  - intros rel _ ->. apply Hnb. by eexists.
Qed.

Lemma length_omap_total {A B : Type} (f : A → option B) (l : list A) :
  (∀ x, x ∈ l → is_Some (f x)) → length (omap f l) = length l.
Proof.
  induction l as [|x l IH]; intros H; simpl; [done|].
  destruct (H x) as [y ->]; [by left|]. simpl. f_equal. apply IH. intros. apply H. by right.
Qed.

Lemma backup_roots_differ (dst_root : path) (ts1 ts2 : string) (x y : path) :
  ts1 ≠ ts2 → backup_root_of dst_root ts1 ++ x ≠ backup_root_of dst_root ts2 ++ y.
Proof.
  intros Hts. unfold backup_root_of. rewrite <- !app_assoc. intros E%app_inv_head.
  simpl in E. congruence.
Qed.

Lemma backup_root_not_prefix (dst_root : path) (ts1 ts2 : string) (x : path) :
  ts1 ≠ ts2 →
  ¬ backup_root_of dst_root ts2 `prefix_of` backup_root_of dst_root ts1 ++ x.
Proof. intros Hts [z E]. by apply backup_roots_differ in E. Qed.

Lemma is_file_unchanged (s s' : fs) (p : path) :
  s' !! p = s !! p ∨ (s !! p = None ∧ s' !! p = Some Dir) →
  is_file s p = false → is_file s' p = false.
Proof.
  unfold is_file, stat. destruct p; [done|]. by intros [->|[_ ->]].
Qed.

(** After a call that nothing was in the way of, nothing is in the way of a
    second one at a later time. *)
Lemma unobstructed_after (s s1 : fs) (src_root dst_root : path) (ts1 ts2 : string)
    (B C : list path) :
  unobstructed s src_root dst_root ts1 → unobstructed s src_root dst_root ts2 →
  ts1 ≠ ts2 →
  patched s src_root dst_root (backup_root_of dst_root ts1) B C s1 →
  (∀ rel, rel ∈ C ↔ source_rel s src_root rel) →
  well_formed s1 →
  unobstructed s1 src_root dst_root ts2.
Proof.
  intros (Hwf & Hsd & Hsb1 & Hdb1 & Hfresh1 & Hbk1 & Hc)
         (_ & _ & Hsb2 & Hdb2 & Hfresh2 & Hbk2 & _) Hts HP HC Hwf1.
  pose proof HP as (H1 & H2 & H3).
  assert (∀ p, p `prefix_of` backup_root_of dst_root ts2 →
            s1 !! p = s !! p ∨ (s !! p = None ∧ s1 !! p = Some Dir
                                ∧ scaffold s src_root dst_root (backup_root_of dst_root ts1) p))
    as Habove.
  { intros p Hp. apply H3.
    - intros rel _ ->. apply Hdb2. by apply prefix_app_l in Hp.
    - intros rel Hrel ->. destruct (H2 rel Hrel) as (Hr & _).
      apply source_rel_file in Hr as [Hne _].
      apply prefix_length in Hp. rewrite length_app in Hp. unfold backup_root_of in Hp.
      rewrite !length_app in Hp. simpl in Hp. destruct rel; simpl in *; [done|lia]. }
  split_and!; try done.
  - destruct (Habove (backup_root_of dst_root ts2)) as [->|(_ & _ & Hsc)]; [done|done|].
    exfalso. destruct Hsc as [Hb|(rel & Hr & [Hp|Hp])].
    + apply (backup_root_not_prefix dst_root ts1 ts2 [] Hts). by rewrite app_nil_r.
    + rewrite parent_app in Hp by (by apply source_rel_file in Hr as [? _]).
      eapply backup_root_off_destination; [exact Hdb2| |exact Hp]. by eexists.
    + rewrite parent_app in Hp by (by apply source_rel_file in Hr as [? _]).
      by apply backup_root_not_prefix in Hp.
  - intros p Hp. eapply is_file_unchanged; [|by apply Hbk2].
    destruct (Habove p Hp) as [?|(? & ? & _)]; eauto.
  - intros rel Hr.
    apply (proj1 (patched_walk s src_root dst_root ts1 Hwf Hsd Hsb1 Hfresh1 Hc B C s1
                    (src_root ++ rel) HP)) in Hr.
    change (source_rel s src_root rel) in Hr.
    pose proof Hr as [Hne [data Hdata]]%source_rel_file.
    destruct (H1 rel) as [_ Hcopied]; [by apply HC|].
    assert (dst_root ++ rel ≠ []) as Hdne by (by intros [_ ?]%app_eq_nil).
    split.
    + unfold is_dir. by rewrite stat_nonempty, Hcopied, Hdata.
    + intros p Hp Hpne. eapply is_file_unchanged; [|by apply (Hc rel Hr)].
      destruct (H3 p) as [?|(? & ? & _)]; eauto.
      * intros rel' Hrel' ->. apply Hpne. f_equal.
        apply (source_rel_prefix s src_root rel' rel); [done|by apply HC|done|].
        by apply prefix_app_inv in Hp.
      * intros rel' _ ->. destruct Hp as [z Hp]. rewrite <- app_assoc in Hp.
        by apply (apart_app _ _ _ _ (backup_root_apart _ _ Hdb1)) in Hp.
Qed.

(** X5.  Idempotence of content.  With [datetime] bound and nothing in the
    way, a later call on the file system that the first one left returns
    [files_copied] and [files_overwritten] both equal to the number of files
    of the source, and leaves every entry of the destination as the first
    call left it. *)
Theorem patch_twice (g1 g2 : globals) (s : fs) (src_root dst_root : path) (ts1 ts2 : string) :
  datetime_now g1 = Some ts1 → datetime_now g2 = Some ts2 →
  ready s src_root dst_root ts1 = true → ready s src_root dst_root ts2 = true →
  ts1 ≠ ts2 →
  (copy_tree_over g2 src_root dst_root (copy_tree_over g1 src_root dst_root s).2).1
  = Return (length (walk_files s src_root), length (walk_files s src_root),
            backup_root_of dst_root ts2)
  ∧ ∀ p, dst_root `prefix_of` p →
         (copy_tree_over g2 src_root dst_root (copy_tree_over g1 src_root dst_root s).2).2 !! p
         = (copy_tree_over g1 src_root dst_root s).2 !! p.
Proof.
  intros Hg1 Hg2 Hr1%ready_spec Hr2'%ready_spec Hts.
  pose proof Hr1 as (Hwf & Hsd & Hsb & Hdb & Hfresh & Hbk & Hc).
  pose proof (copy_tree_over_keeps_wf g1 src_root dst_root s Hwf) as Hwf1.
  destruct (copy_tree_over_patched s src_root dst_root ts1 Hwf Hsd Hsb Hdb Hfresh Hbk Hc
              g1 Hg1) as (B & C & s1 & E & HP & HC & _).
  rewrite E in *. simpl in *.
  pose proof (unobstructed_after s s1 src_root dst_root ts1 ts2 B C Hr1 Hr2' Hts HP HC Hwf1)
    as Hr2.
  pose proof Hr2 as (Hwf2 & Hsd2 & Hsb2 & Hdb2 & Hfresh2 & Hbk2 & Hc2).
  destruct (copy_tree_over_patched s1 src_root dst_root ts2 Hwf2 Hsd2 Hsb2 Hdb2 Hfresh2 Hbk2
              Hc2 g2 Hg2) as (B2 & C2 & s2 & E2 & (Hcopied2 & _) & HC2 & _).
  assert (∀ rel, source_rel s1 src_root rel →
            source_rel s src_root rel
            ∧ ∃ data, s1 !! (dst_root ++ rel) = Some (File data)
                      ∧ s1 !! (src_root ++ rel) = Some (File data)) as Hsrc.
  { intros rel Hr.
    apply (proj1 (patched_walk s src_root dst_root ts1 Hwf Hsd Hsb Hfresh Hc B C s1
                    (src_root ++ rel) HP)) in Hr.
    change (source_rel s src_root rel) in Hr.
    split; [done|].
    pose proof Hr as Hr'.
    apply source_rel_file in Hr' as [_ [data Hd]].
    exists data.
    pose proof HP as (H1 & _). destruct (H1 rel) as [_ E1]; [by apply HC|].
    split; [congruence|].
    by rewrite (patched_source s src_root dst_root ts1 Hsd Hsb B C s1 rel). }
  split.
  - rewrite E2. simpl. do 3 f_equal.
    + by rewrite (patched_walk_Permutation s src_root dst_root ts1 Hwf Hsd Hsb Hfresh Hc B C s1).
    + rewrite length_omap_total.
      * by rewrite (patched_walk_Permutation s src_root dst_root ts1 Hwf Hsd Hsb Hfresh Hc
                      B C s1).
      * intros f (rel & -> & Hr)%walk_files_source.
        destruct (Hsrc rel Hr) as (Hr0 & data & Hd & _).
        unfold to_replace, path_exists. rewrite relative_to_app, stat_nonempty, Hd; [done|].
        apply source_rel_file in Hr0 as [? _]. by intros [_ ?]%app_eq_nil.
  - intros p [y ->].
    destruct (decide (source_rel s1 src_root y)) as [Hy|Hy].
    + destruct (Hcopied2 y) as [_ Hy2]; [by apply HC2|].
      rewrite E2. simpl. rewrite Hy2.
      destruct (Hsrc y Hy) as (_ & data & -> & ->). done.
    + destruct (patch_frame g2 s1 src_root dst_root ts2 (dst_root ++ y))
        as [?|(Hn & _ & Hsc)]; [done|done| | |done|exfalso].
      * intros rel Hrel ->%app_inv_head. done.
      * by apply backup_root_off_destination; [|eexists].
      * assert (∀ q, ¬ dst_root ++ y `prefix_of` backup_root_of dst_root ts2 ++ q) as Hoff.
        { intros q [z Hz]. rewrite <- app_assoc in Hz. symmetry in Hz.
          by apply (apart_app _ _ _ _ (backup_root_apart _ _ Hdb2)) in Hz. }
        destruct Hsc as [Hb|(rel & Hr & [Hp|Hp])].
        -- apply (Hoff []). by rewrite app_nil_r.
        -- destruct (Hsrc rel Hr) as (Hr0 & data & Hd & _).
           apply source_rel_file in Hr0 as [Hne _].
           assert (is_dir s1 (dst_root ++ y) = true) as Hdir.
           { destruct (prefix_parent (dst_root ++ y) (dst_root ++ rel)) as [z Hz].
             - etransitivity; [exact Hp|apply parent_prefix].
             - intros Heq. rewrite Heq in Hp. apply parent_strict in Hp; [done|].
               by intros [_ ?]%app_eq_nil.
             - rewrite parent_app in Hz by done.
               destruct (decide (dst_root ++ rel = (dst_root ++ y) ++ z)) as [Heq|Hneq].
               + rewrite <- Hz in Heq. apply app_inv_head in Heq.
                 exfalso. eapply parent_strict; [exact Hne|]. by rewrite <- Heq.
               + destruct Hp as [z' Hp]. rewrite parent_app in Hp by done.
                 apply (well_formed_above s1 (dst_root ++ y)
                          (z' ++ [basename (dst_root ++ rel)])); [done| |by destruct z'].
                 rewrite app_assoc, <- Hp, <- parent_app by done.
                 rewrite <- parent_last by (by intros [_ ?]%app_eq_nil). by rewrite Hd. }
           destruct (decide (dst_root ++ y = [])) as [Heq|Hnil].
           ++ apply Hdb2. apply app_eq_nil in Heq as [-> _]. apply prefix_nil.
           ++ apply is_dir_lookup in Hdir; [congruence|done].
        -- rewrite parent_app in Hp by (destruct (Hsrc rel Hr) as (Hr0 & _);
                                        by apply source_rel_file in Hr0 as [? _]).
           by apply Hoff in Hp.
Qed.

Lemma patch_twice_witness :
  (copy_tree_over with_later_clock payload textures
     (copy_tree_over with_clock payload textures scenario).2).1
  = Return (length (walk_files scenario payload), length (walk_files scenario payload),
            backup_root_of textures "20260101_120500")
  ∧ ∀ p, textures `prefix_of` p →
         (copy_tree_over with_later_clock payload textures
            (copy_tree_over with_clock payload textures scenario).2).2 !! p
         = (copy_tree_over with_clock payload textures scenario).2 !! p.
Proof.
  apply (patch_twice with_clock with_later_clock scenario payload textures
           "20260101_120000" "20260101_120500").
  - reflexivity.
  - reflexivity.
  - vm_compute. reflexivity.
  - vm_compute. reflexivity.
  - discriminate.
Defined.

(** C9.  A regular file of the destination whose relative path is not that of
    a regular file of the source has, after the call, the content it had
    before.  In the module as it is this holds for every call; it also holds
    with [datetime] bound, for every call that nothing is in the way of. *)
Theorem destination_file_untouched (g : globals) (src_root dst_root rel : path)
    (data : string) (s : fs) :
  (∀ ts, datetime_now g = Some ts → ready s src_root dst_root ts = true) →
  s !! (dst_root ++ rel) = Some (File data) →
  src_root ++ rel ∉ walk_files s src_root →
  (copy_tree_over g src_root dst_root s).2 !! (dst_root ++ rel) = Some (File data).
Proof.
  intros Hready Hf Hrel. destruct g as [[ts|]].
  - specialize (Hready ts eq_refl).
    apply ready_spec in Hready. pose proof Hready as (_ & _ & _ & Hdb & _).
    destruct (patch_frame {| datetime_now := Some ts |} s src_root dst_root ts
                (dst_root ++ rel)) as [->|(Hn & _)]; [done|done| | |done|congruence].
    + intros rel' Hr' ->%app_inv_head. done.
    + apply backup_root_off_destination; [done|by eexists].
  - by apply (grows_file _ _ _ _ (copy_tree_over_unbound_grows src_root dst_root s)).
Qed.

Lemma destination_file_untouched_witness :
  (copy_tree_over module_globals payload textures scenario).2 !! (textures ++ ["c.png"])
  = Some (File "c-old")
  ∧ (copy_tree_over with_clock payload textures scenario).2 !! (textures ++ ["c.png"])
    = Some (File "c-old").
Proof.
  split.
  - apply (destination_file_untouched module_globals payload textures ["c.png"] "c-old"
             scenario).
    + intros ts [=].
    + vm_compute. reflexivity.
    + apply (bool_decide_unpack _). vm_compute. reflexivity.
  - apply (destination_file_untouched with_clock payload textures ["c.png"] "c-old"
             scenario).
    + intros ts [= <-]. vm_compute. reflexivity.
    + vm_compute. reflexivity.
    + apply (bool_decide_unpack _). vm_compute. reflexivity.
Defined.

(** * The patch operation, whatever its arguments *)

(** ** What a call can touch *)

Lemma copy_step_touches (src_root dst_root : path) (acc : nat * nat) (f : path) (s : fs) :
  touched_only (fun q => dst_root `prefix_of` q) s (copy_step src_root dst_root acc f s).2.
Proof.
  pose proof (touched_only_trans (fun q => dst_root `prefix_of` q)) as Htrans.
  unfold copy_step, relative.
  destruct (relative_to f src_root) as [rel|]; [|apply touched_only_refl].
  apply bind_state; [done|apply touched_only_refl|]. intros rel' s1.
  apply bind_state; [done|apply grows_touched_only, mkdir_from_grows|]. intros _ s2.
  apply bind_state; [done|apply touched_only_refl|]. intros ex s3.
  apply bind_state; [done| |intros; apply touched_only_refl].
  eapply touched_only_weaken, copy2_touches.
  intros q Hq. etransitivity; [|exact Hq]. by eexists.
Qed.

Lemma copy_tree_over_touches (g : globals) (src_root dst_root : path) (s : fs) :
  touched_only
    (fun q => dst_root `prefix_of` q
              ∨ ∃ ts, datetime_now g = Some ts ∧ backup_root_of dst_root ts `prefix_of` q)
    s (copy_tree_over g src_root dst_root s).2.
Proof.
  set (W := fun q => _ ∨ _).
  pose proof (touched_only_trans W) as Htrans. pose proof (touched_only_refl W) as Hrefl.
  unfold copy_tree_over.
  apply bind_state; [done|reflexivity|]. intros files s1.
  apply bind_state; [done| |].
  { apply grows_touched_only, discovery_grows. }
  intros ftr s2. unfold timestamp_now.
  destruct (datetime_now g) as [ts|] eqn:Hg; [|rewrite bind_raise; reflexivity].
  rewrite bind_ret.
  apply bind_state; [done| |].
  { apply grows_touched_only, mkdir_from_grows. }
  intros _ s4. apply bind_state; [done| |].
  { destruct ftr; [reflexivity|]. eapply touched_only_weaken, backup_touches.
    intros q Hq. right. by exists ts. }
  intros _ s5. apply bind_state; [done|reflexivity|]. intros files2 s6.
  apply bind_state; [done| |intros; reflexivity].
  apply for_each_state; [done..|]. intros acc f s7 _.
  eapply touched_only_weaken, copy_step_touches. intros q Hq. by left.
Qed.

(** X6.  The footprint of a call.  Away from the destination tree and from
    the backup root, a call changes nothing but missing directories, which
    it may create: whatever the source, the destination, the file system,
    the binding of [datetime] and the outcome. *)
Theorem copy_tree_over_footprint (g : globals) (src_root dst_root p : path) (s : fs) :
  ¬ dst_root `prefix_of` p →
  (∀ ts, datetime_now g = Some ts → ¬ backup_root_of dst_root ts `prefix_of` p) →
  (copy_tree_over g src_root dst_root s).2 !! p = s !! p
  ∨ (s !! p = None ∧ (copy_tree_over g src_root dst_root s).2 !! p = Some Dir).
Proof.
  intros Hd Hb.
  destruct (copy_tree_over_touches g src_root dst_root s p) as [[?|(ts & Hg & ?)]|?];
    [done|by apply Hb in Hg|done].
Qed.

Lemma copy_tree_over_footprint_witness :
  (copy_tree_over with_clock payload textures scenario).2 !! ["payload"; "b.png"]
  = scenario !! ["payload"; "b.png"]
  ∨ (scenario !! ["payload"; "b.png"] = None
     ∧ (copy_tree_over with_clock payload textures scenario).2 !! ["payload"; "b.png"]
       = Some Dir).
Proof.
  apply (copy_tree_over_footprint with_clock payload textures ["payload"; "b.png"] scenario).
  - apply (bool_decide_unpack _). vm_compute. reflexivity.
  - intros ts [= <-]. apply (bool_decide_unpack _). vm_compute. reflexivity.
Defined.

(** ** Nothing is deleted *)

Global Instance persists_refl : Reflexive persists.
Proof. intros s p e H. by exists e. Qed.

Global Instance persists_trans : Transitive persists.
Proof.
  intros s1 s2 s3 H12 H23 p e H. destruct (H12 p e H) as (e2 & H2 & Hd2).
  destruct (H23 p e2 H2) as (e3 & H3 & Hd3). exists e3. split; [done|]. auto.
Qed.

Lemma grows_persists (s s' : fs) : grows s s' → persists s s'.
Proof. intros Hg p e H. exists e. destruct (Hg p) as [->|[? _]]; [done|congruence]. Qed.

Lemma write_file_persists (p : path) (data : string) (s : fs) :
  persists s (write_file p data s).2.
Proof.
  assert (stat s p ≠ Some Dir → persists s (<[p := File data]> s)) as Hins.
  { intros Hp q e Hq. destruct (decide (p = q)) as [<-|Hne].
    - rewrite lookup_insert_eq. eexists. split; [done|]. intros ->.
      destruct Hp. unfold stat. by destruct p.
    - rewrite lookup_insert_ne by done. by exists e. }
  unfold write_file. destruct (stat s p) as [[]|] eqn:E; simpl.
  - by apply Hins.
  - reflexivity.
  - destruct (stat s (parent p)) as [[]|]; simpl; [reflexivity| |reflexivity].
    by apply Hins.
Qed.

Lemma copy2_persists (src dst : path) (s : fs) : persists s (copy2 src dst s).2.
Proof.
  unfold copy2. set (d := if is_dir s dst then _ else _).
  destruct (decide (src = d)); [destruct (path_exists s src); reflexivity|].
  unfold bind, read_file. destruct (stat s src) as [[]|]; simpl; try reflexivity.
  apply write_file_persists.
Qed.

Lemma mkdir_parents_persists (p : path) (s : fs) : persists s (mkdir_parents p s).2.
Proof. apply grows_persists, mkdir_from_grows. Qed.

Lemma backup_step_persists (target_root backup_root : path) (u : unit) (f : path) (s : fs) :
  persists s (backup_step target_root backup_root u f s).2.
Proof.
  unfold backup_step, relative. destruct (relative_to f target_root); [|reflexivity].
  apply bind_state; [apply _|reflexivity|]. intros rel s1.
  apply bind_state; [apply _|apply mkdir_parents_persists|]. intros _ s2.
  apply copy2_persists.
Qed.

Lemma copy_step_persists (src_root dst_root : path) (acc : nat * nat) (f : path) (s : fs) :
  persists s (copy_step src_root dst_root acc f s).2.
Proof.
  unfold copy_step, relative. destruct (relative_to f src_root); [|reflexivity].
  apply bind_state; [apply _|reflexivity|]. intros rel s1.
  apply bind_state; [apply _|apply mkdir_parents_persists|]. intros _ s2.
  apply bind_state; [apply _|reflexivity|]. intros ex s3.
  apply bind_state; [apply _|apply copy2_persists|]. intros _ s4. reflexivity.
Qed.

Lemma copy_tree_over_persists (g : globals) (src_root dst_root : path) (s : fs) :
  persists s (copy_tree_over g src_root dst_root s).2.
Proof.
  unfold copy_tree_over.
  apply bind_state; [apply _|reflexivity|]. intros files s1.
  apply bind_state; [apply _| |].
  { apply grows_persists, discovery_grows. }
  intros ftr s2. apply bind_state; [apply _| |].
  { unfold timestamp_now. destruct (datetime_now g); reflexivity. }
  intros ts s3. apply bind_state; [apply _|apply mkdir_parents_persists|]. intros _ s4.
  apply bind_state; [apply _| |].
  { destruct ftr; [reflexivity|]. unfold backup_original_files.
    apply for_each_state; [apply _..|]. intros. apply backup_step_persists. }
  intros _ s5. apply bind_state; [apply _|reflexivity|]. intros files2 s6.
  apply bind_state; [apply _| |intros; reflexivity].
  apply for_each_state; [apply _..|]. intros. apply copy_step_persists.
Qed.

(** X7.  A call deletes nothing: an entry that was there before the call is
    there after it, and what was a directory is still one (a regular file
    may have new content) - whatever the arguments, the file system and the
    outcome. *)
Theorem copy_tree_over_deletes_nothing (g : globals) (src_root dst_root p : path)
    (e : entry) (s : fs) :
  s !! p = Some e →
  ∃ e', (copy_tree_over g src_root dst_root s).2 !! p = Some e' ∧ (e = Dir → e' = Dir).
Proof. intros Hp. by apply (copy_tree_over_persists g src_root dst_root s p e). Qed.

Lemma copy_tree_over_deletes_nothing_witness :
  ∃ e', (copy_tree_over with_clock payload textures scenario).2 !! (textures ++ ["b.png"])
        = Some e' ∧ (File "b-old-3KB" = Dir → e' = Dir).
Proof.
  apply (copy_tree_over_deletes_nothing with_clock payload textures (textures ++ ["b.png"])
           (File "b-old-3KB") scenario).
  vm_compute. reflexivity.
Defined.

(** ** The counters *)

Lemma copying_counts (src_root dst_root : path) (l : list path) (acc acc' : nat * nat)
    (s s' : fs) :
  for_each (copy_step src_root dst_root) acc l s = (Return acc', s') →
  (acc'.1 = acc.1 + length l)%nat ∧ ((acc.2 ≤ acc.1)%nat → (acc'.2 ≤ acc'.1)%nat).
Proof.
  revert acc s. induction l as [|f l IH]; intros acc s.
  - intros [= <- <-]. split; [simpl; lia|done].
  - change (for_each (copy_step src_root dst_root) acc (f :: l) s)
      with (bind (copy_step src_root dst_root acc f)
              (fun acc1 => for_each (copy_step src_root dst_root) acc1 l) s).
    intros (acc1 & s1 & Hstep & Hrest)%bind_Return.
    apply IH in Hrest as [H1 H2]. unfold copy_step in Hstep.
    apply bind_Return in Hstep as (rel & s2 & _ & Hstep).
    apply bind_Return in Hstep as ([] & s3 & _ & Hstep).
    apply bind_Return in Hstep as (ex & s4 & _ & Hstep).
    apply bind_Return in Hstep as ([] & s5 & _ & [= <- <-]). simpl in *.
    split; [lia|]. intros Hle. apply H2. destruct ex; lia.
Qed.

(** X8.  Whenever a call returns, [files_overwritten] is at most
    [files_copied]: whatever the arguments and the file system. *)
Theorem overwritten_at_most_copied (g : globals) (src_root dst_root : path) (s s' : fs)
    (copied overwritten : nat) (backup_root : path) :
  copy_tree_over g src_root dst_root s = (Return (copied, overwritten, backup_root), s') →
  (overwritten ≤ copied)%nat.
Proof.
  intros (ftr & ts & s1 & s2 & s3 & _ & _ & _ & _ & _ & Hcp)%copy_tree_over_Return.
  apply copying_counts in Hcp as [_ H]. simpl in H. apply H. lia.
Qed.

Lemma overwritten_at_most_copied_witness : (1 ≤ 2)%nat.
Proof.
  refine (overwritten_at_most_copied with_clock payload textures scenario
           (copy_tree_over with_clock payload textures scenario).2 2 1
           ["game"; "backups"; "20260101_120000"] _).
  evaluate.
Defined.

(** ** Well-formedness *)



(** ** A file that is not in the target tree *)




(** * The sky patcher, whatever its arguments *)

(** ** What the sky patcher can touch *)

Lemma rmtree_touches (c : path) (s : fs) :
  touched_only (fun q => c `prefix_of` q) s (rmtree c s).
Proof.
  intros q. rewrite rmtree_lookup. destruct (decide (c `prefix_of` q)); [by left|].
  right. by left.
Qed.

Lemma iterdir_Return (p : path) (s s' : fs) (l : list path) :
  iterdir p s = (Return l, s') →
  s' = s ∧ is_dir s p = true
  ∧ ∀ q, q ∈ l ↔ is_Some (s !! q) ∧ q ≠ [] ∧ parent q = p.
Proof.
  unfold iterdir, is_dir. destruct (stat s p) as [[]|]; [done| |done].
  intros [= <- <-]. split_and!; [done..|]. intros q.
  rewrite list_elem_of_filter, list_elem_of_fmap. split.
  - intros [[Hne Hpar] ([q' e] & -> & Hin%elem_of_map_to_list)]. simpl in *.
    split_and!; [by rewrite Hin|done..].
  - intros ([e He] & Hne & Hpar). split; [done|]. exists (q, e). split; [done|].
    by apply elem_of_map_to_list.
Qed.

Lemma iterdir_state (p : path) (s : fs) : (iterdir p s).2 = s.
Proof. unfold iterdir. by destruct (stat s p) as [[]|]. Qed.

Lemma child_prefix (p q : path) : parent q = p → p `prefix_of` q.
Proof. intros <-. apply parent_prefix. Qed.

Lemma purge_touches (d : path) (s : fs) :
  touched_only (fun q => d `prefix_of` q) s
    ((let! children := iterdir d in for_each purge_step tt children) s).2.
Proof.
  unfold bind. destruct (iterdir d s) as [[l|e] s1] eqn:Hit.
  - apply iterdir_Return in Hit as (-> & _ & Hl).
    assert (∀ c, c ∈ l → d `prefix_of` c) as Hc.
    { intros c (_ & _ & Hpar)%Hl. by apply child_prefix. }
    clear Hl. revert s. induction l as [|c l IH]; intros s; [apply touched_only_refl|].
    change (for_each purge_step tt (c :: l) s) with (for_each purge_step tt l (rmtree c s)).
    eapply touched_only_trans; [|apply IH; intros; apply Hc; by right].
    eapply touched_only_weaken, rmtree_touches. intros q Hq.
    etransitivity; [|exact Hq]. apply Hc. by left.
  - pose proof (iterdir_state d s) as E. rewrite Hit in E. simpl in *. subst s1.
    apply touched_only_refl.
Qed.

Lemma apply_sky_touches (g : globals) (selected target_version : path) (s : fs) :
  touched_only
    (fun q => sky_dir_of target_version `prefix_of` q
              ∨ ∃ ts, datetime_now g = Some ts
                      ∧ backup_root_of (sky_dir_of target_version) ts `prefix_of` q)
    s (apply_sky g selected target_version s).2.
Proof.
  set (W := fun q => _ ∨ _).
  pose proof (touched_only_trans W) as Htrans. pose proof (touched_only_refl W) as Hrefl.
  unfold apply_sky.
  apply bind_state; [done|reflexivity|]. intros there s1.
  apply bind_state; [done| |].
  { destruct there; [|apply grows_touched_only, mkdir_from_grows].
    eapply touched_only_weaken, purge_touches. intros q Hq. by left. }
  intros _ s2. apply bind_state; [done| |intros; reflexivity].
  apply copy_tree_over_touches.
Qed.

Lemma extract_member_touches (target : path) (u : unit) (m : path * entry) (s : fs) :
  touched_only (fun q => target `prefix_of` q) s (extract_member target u m s).2.
Proof.
  pose proof (touched_only_trans (fun q => target `prefix_of` q)) as Htrans.
  unfold extract_member. destruct (m.2); [|apply grows_touched_only, mkdir_from_grows].
  apply bind_state; [done|apply grows_touched_only, mkdir_from_grows|]. intros _ s1.
  eapply touched_only_weaken, write_file_touches. intros q ->. by apply prefix_app_r.
Qed.

Lemma extractall_touches (members : list (path * entry)) (target : path) (s : fs) :
  touched_only (fun q => target `prefix_of` q) s (extractall members target s).2.
Proof.
  unfold extractall. apply for_each_state; [apply touched_only_refl|apply touched_only_trans|].
  intros. apply extract_member_touches.
Qed.

Lemma read_file_state (p : path) (s : fs) : (read_file p s).2 = s.
Proof. unfold read_file. by destruct (stat s p) as [[]|]. Qed.

Lemma with_tempdir_touches {A : Type} (W : path → Prop) (tmp : path) (body : M A) (s : fs) :
  (∀ q, tmp `prefix_of` q → W q) →
  (∀ s1, touched_only W s1 (body s1).2) →
  touched_only W s (with_tempdir tmp body s).2.
Proof.
  intros Htmp Hbody. unfold with_tempdir.
  pose proof (mkdir_from_grows tmp [] s) as Hmk. unfold mkdir_parents.
  destruct (mkdir_from [] tmp s) as [[[]|e] s1]; simpl in *;
    [|by apply grows_touched_only].
  pose proof (Hbody s1) as Hb. destruct (body s1) as [r s2]. simpl in *.
  eapply touched_only_trans; [by apply grows_touched_only|].
  eapply touched_only_trans; [exact Hb|].
  eapply touched_only_weaken, rmtree_touches. done.
Qed.

Lemma patch_custom_sky_touches (g : globals) (io : session) (target_version : path)
    (s : fs) :
  touched_only
    (fun q => tmpdir io `prefix_of` q
              ∨ sky_dir_of target_version `prefix_of` q
              ∨ ∃ ts, datetime_now g = Some ts
                      ∧ backup_root_of (sky_dir_of target_version) ts `prefix_of` q)
    s (patch_custom_sky g io target_version s).2.
Proof.
  set (W := fun q => _ ∨ _).
  pose proof (touched_only_trans W) as Htrans. pose proof (touched_only_refl W) as Hrefl.
  unfold patch_custom_sky.
  destruct (stdin io !! 0%nat) as [answer|]; [|reflexivity].
  destruct (negb (accepted answer)); [reflexivity|].
  apply bind_state; [done|reflexivity|]. intros there s1.
  destruct (negb there); [reflexivity|].
  apply with_tempdir_touches; [by left|]. intros s2. apply bind_state; [done| |].
  { rewrite read_file_state. reflexivity. }
  intros archive s3. destruct (unzip io archive) as [members|]; [|reflexivity].
  apply bind_state; [done| |].
  { eapply touched_only_weaken, extractall_touches. by left. }
  intros _ s4. apply bind_state; [done| |].
  { rewrite iterdir_state. reflexivity. }
  intros entries s5. destruct (List.filter (is_dir s5) entries) as [|d dirs] eqn:Ed;
    [reflexivity|].
  destruct (stdin io !! 1%nat) as [number|]; [|reflexivity].
  destruct (py_int number) as [choice_num|]; [|reflexivity].
  destruct (negb _); [reflexivity|].
  destruct (_ !! _) as [selected|]; [|reflexivity].
  eapply touched_only_weaken, apply_sky_touches. intros q Hq. by right.
Qed.

(** X11.  The footprint of the sky patcher.  Away from the temporary
    directory, from the sky directory and from the backup root beside it,
    the sky patcher changes nothing but missing directories, which it may
    create: whatever the answers, the archive, the file system, the binding
    of [datetime] and the outcome. *)
Theorem patch_custom_sky_footprint (g : globals) (io : session) (target_version p : path)
    (s : fs) :
  ¬ tmpdir io `prefix_of` p →
  ¬ sky_dir_of target_version `prefix_of` p →
  (∀ ts, datetime_now g = Some ts →
         ¬ backup_root_of (sky_dir_of target_version) ts `prefix_of` p) →
  (patch_custom_sky g io target_version s).2 !! p = s !! p
  ∨ (s !! p = None ∧ (patch_custom_sky g io target_version s).2 !! p = Some Dir).
Proof.
  intros Ht Hs Hb.
  destruct (patch_custom_sky_touches g io target_version s p)
    as [[?|[?|(ts & Hg & ?)]]|?]; [done|done|by apply Hb in Hg|done].
Qed.

Lemma patch_custom_sky_footprint_witness :
  (patch_custom_sky with_clock sky_session version sky_world).2
    !! ["Versions"; "v1"; "PlatformContent"; "pc"; "textures"] =
  sky_world !! ["Versions"; "v1"; "PlatformContent"; "pc"; "textures"]
  ∨ (sky_world !! ["Versions"; "v1"; "PlatformContent"; "pc"; "textures"] = None
     ∧ (patch_custom_sky with_clock sky_session version sky_world).2
         !! ["Versions"; "v1"; "PlatformContent"; "pc"; "textures"] = Some Dir).
Proof.
  apply (patch_custom_sky_footprint with_clock sky_session version
           ["Versions"; "v1"; "PlatformContent"; "pc"; "textures"] sky_world).
  - apply (bool_decide_unpack _). vm_compute. reflexivity.
  - apply (bool_decide_unpack _). vm_compute. reflexivity.
  - intros ts [= <-]. apply (bool_decide_unpack _). vm_compute. reflexivity.
Defined.

(** ** The temporary directory *)

Lemma mkdir_from_Raise_creates (rest : list string) (base : path) (s s' : fs) (e : exn)
    (p : path) :
  mkdir_from base rest s = (Raise e, s') →
  s' !! p = s !! p
  ∨ (s !! p = None ∧ s' !! p = Some Dir ∧ p `prefix_of` base ++ rest ∧ p ≠ base ++ rest).
Proof.
  revert base s. induction rest as [|c rest IH]; intros base s; simpl; [done|].
  destruct (s !! (base ++ [c])) as [[data|]|] eqn:E.
  - intros [= _ <-]. by left.
  - intros H. destruct (IH _ _ H) as [?|(? & ? & ? & ?)]; [by left|right].
    by rewrite snoc_app in *.
  - intros H. assert (rest ≠ []) as Hrest by (intros ->; discriminate).
    destruct (IH _ _ H) as [Heq|(Hn & Hd & Hp & Hne)].
    + rewrite Heq. destruct (decide (base ++ [c] = p)) as [<-|Hpc].
      * right. rewrite lookup_insert_eq. split_and!; [done..| |].
        -- rewrite <- (snoc_app base c rest). by exists rest.
        -- rewrite <- (snoc_app base c rest). intros Heq'.
           apply (f_equal length) in Heq'. rewrite !length_app in Heq'.
           destruct rest; [done|simpl in *; lia].
      * left. by rewrite lookup_insert_ne.
    + right. rewrite snoc_app in Hp, Hne. split_and!; [|done..].
      destruct (decide (base ++ [c] = p)) as [<-|Hpc]; [|by rewrite lookup_insert_ne in Hn].
      by rewrite lookup_insert_eq in Hn.
Qed.

Lemma nothing_below (s : fs) (d p : path) :
  well_formed s → path_exists s d = false → d `prefix_of` p → s !! p = None.
Proof.
  intros Hwf Hd [rel ->]. destruct (s !! (d ++ rel)) as [e|] eqn:E; [exfalso|done].
  unfold path_exists in Hd. destruct rel as [|c rel].
  - rewrite app_nil_r in E. destruct d; [done|]. simpl in Hd. by rewrite E in Hd.
  - assert (is_dir s d = true) as Hdir
      by (apply (well_formed_above s d (c :: rel)); [done|by rewrite E|done]).
    unfold is_dir in Hdir. by destruct (stat s d).
Qed.

Lemma with_tempdir_removed {A : Type} (tmp : path) (body : M A) (s : fs) (p : path) :
  tmp `prefix_of` p → s !! p = None → (with_tempdir tmp body s).2 !! p = None.
Proof.
  intros Hp Hn. unfold with_tempdir, mkdir_parents.
  destruct (mkdir_from [] tmp s) as [[[]|e] s1] eqn:Hmk.
  - destruct (body s1) as [r s2]. simpl. rewrite rmtree_lookup. by rewrite decide_True.
  - simpl. destruct (mkdir_from_Raise_creates tmp [] s s1 e p Hmk)
      as [->|(_ & _ & Hpre & Hne)]; [done|].
    destruct Hne. simpl in *. by apply (anti_symm prefix).
Qed.

(** X12.  The temporary directory never outlives the sky patcher: when
    nothing was at or below it before the call, nothing is at or below it
    after, whether the call returns or ends in an exception - the
    [NameError] of the module as it is included. *)
Theorem sky_tempdir_removed (g : globals) (io : session) (target_version p : path)
    (s : fs) :
  well_formedb s = true → path_exists s (tmpdir io) = false →
  tmpdir io `prefix_of` p →
  (patch_custom_sky g io target_version s).2 !! p = None.
Proof.
  intros Hwf%well_formedb_spec Hfresh Hp.
  pose proof (nothing_below s (tmpdir io) p Hwf Hfresh Hp) as Hn.
  unfold patch_custom_sky.
  destruct (stdin io !! 0%nat) as [answer|]; [|done].
  destruct (negb (accepted answer)); [done|].
  unfold bind at 1, dst_exists. destruct (negb _); [done|].
  by apply with_tempdir_removed.
Qed.

Lemma sky_tempdir_removed_witness :
  (patch_custom_sky module_globals sky_session version sky_world).2
    !! ["tmp"; "sky"; "night"; "a.png"] = None.
Proof.
  apply (sky_tempdir_removed module_globals sky_session version
           ["tmp"; "sky"; "night"; "a.png"] sky_world).
  - vm_compute. reflexivity.
  - vm_compute. reflexivity.
  - apply (bool_decide_unpack _). vm_compute. reflexivity.
Defined.

(** ** The sky directory in the module as it is *)

Lemma copy_tree_over_unbound_raises (src_root dst_root : path) (s : fs) :
  ∃ e s', copy_tree_over module_globals src_root dst_root s = (Raise e, s') ∧ grows s s'.
Proof.
  pose proof (copy_tree_over_unbound_grows src_root dst_root s) as Hg.
  rewrite copy_tree_over_unbound in *.
  destruct (for_each _ _ _ s) as [[l|e] s1]; eauto.
Qed.

(** X13.  In the module as it is, once a skybox has been selected the sky
    patcher ends in an exception, and it leaves no regular file in the sky
    directory: what was there has been removed (lines 265-273), and the
    patch operation that should bring the new files raises before it copies
    any (line 169). *)
Theorem sky_left_without_files (selected target_version p : path) (s : fs) :
  well_formedb s = true → is_file s (sky_dir_of target_version) = false →
  sky_dir_of target_version `prefix_of` p →
  (∃ e, (apply_sky module_globals selected target_version s).1 = Raise e)
  ∧ is_file (apply_sky module_globals selected target_version s).2 p = false.
Proof.
  intros Hwfb Hnf Hp. pose proof Hwfb as Hwf%well_formedb_spec.
  assert (p ≠ []) as Hpne.
  { intros ->. apply prefix_nil_inv in Hp. unfold sky_dir_of in Hp.
    by destruct target_version. }
  assert (∀ s0 s', grows s0 s' → is_file s0 p = false → is_file s' p = false) as Hgrow.
  { intros s0 s' Hg. unfold is_file. rewrite !stat_nonempty by done.
    destruct (Hg p) as [->|[_ ->]]; done. }
  destruct (path_exists s (sky_dir_of target_version)) eqn:Hex.
  - assert (is_dir s (sky_dir_of target_version) = true) as Hd.
    { unfold is_file, is_dir, path_exists in *.
      by destruct (stat s (sky_dir_of target_version)) as [[]|]. }
    destruct (copy_tree_over_unbound_raises selected (sky_dir_of target_version)
                (emptied (sky_dir_of target_version) s)) as (e & s' & E & Hg).
    unfold apply_sky, bind, dst_exists. rewrite Hex.
    pose proof (purge_block (sky_dir_of target_version) s Hwf Hd) as Hpurge.
    unfold bind in Hpurge. rewrite Hpurge, E. simpl. split; [by exists e|].
    apply (Hgrow _ _ Hg). unfold is_file. rewrite stat_nonempty, emptied_lookup by done.
    destruct (decide (p = sky_dir_of target_version)) as [->|Hne].
    + rewrite decide_False by (by intros [_ ?]).
      unfold is_file in Hnf. by rewrite stat_nonempty in Hnf.
    + by rewrite decide_True.
  - rewrite sky_made_then_patched by done.
    assert (is_file s p = false) as Hsp.
    { unfold is_file. rewrite stat_nonempty by done.
      by rewrite (nothing_below s (sky_dir_of target_version) p). }
    unfold bind, mkdir_parents.
    pose proof (mkdir_from_grows (sky_dir_of target_version) [] s) as Hmk.
    destruct (mkdir_from [] (sky_dir_of target_version) s) as [[[]|e] s1]; simpl in *.
    + destruct (copy_tree_over_unbound_raises selected (sky_dir_of target_version) s1)
        as (e & s' & E & Hg).
      rewrite E. simpl. split; [by exists e|]. eauto.
    + split; [by exists e|]. eauto.
Qed.

Lemma sky_left_without_files_witness :
  (∃ e, (apply_sky module_globals ["skies"; "night"] version sky_world).1 = Raise e)
  ∧ is_file (apply_sky module_globals ["skies"; "night"] version sky_world).2
      (sky ++ ["c.png"]) = false.
Proof.
  apply (sky_left_without_files ["skies"; "night"] version (sky ++ ["c.png"]) sky_world).
  - vm_compute. reflexivity.
  - vm_compute. reflexivity.
  - apply (bool_decide_unpack _). vm_compute. reflexivity.
Defined.

(** ** Well-formedness *)



(** ** The sky directory with [datetime] bound *)

Lemma emptied_outside (d : path) (s : fs) (p : path) :
  ¬ d `prefix_of` p → emptied d s !! p = s !! p.
Proof. intros Hp. rewrite emptied_lookup, decide_False; [done|]. by intros [? _]. Qed.

Lemma apart_below (a d x : path) : apart a d → ¬ d `prefix_of` a ++ x.
Proof.
  intros [Had Hda] Hp.
  destruct (prefix_weak_total a d (a ++ x)); [by apply prefix_app_r|done..].
Qed.

Lemma is_dir_emptied (a d x : path) (s : fs) :
  apart a d → is_dir (emptied d s) (a ++ x) = is_dir s (a ++ x).
Proof.
  intros Hap. unfold is_dir, stat. destruct (a ++ x) eqn:E; [done|]. rewrite <- E.
  by rewrite emptied_outside by by apply apart_below.
Qed.

Lemma all_dirs_emptied (a d : path) (s : fs) (rel x : path) :
  apart a d → all_dirs (emptied d s) (a ++ x) rel = all_dirs s (a ++ x) rel.
Proof.
  intros Hap. revert x. induction rel as [|c rel IH]; intros x; [done|].
  destruct rel as [|c' rel]; [by apply is_dir_emptied|].
  change (is_dir (emptied d s) (a ++ x) && all_dirs (emptied d s) ((a ++ x) ++ [c]) (c' :: rel)
          = is_dir s (a ++ x) && all_dirs s ((a ++ x) ++ [c]) (c' :: rel)).
  rewrite <- !app_assoc, IH. by rewrite is_dir_emptied.
Qed.

Lemma walk_files_emptied (a d : path) (s : fs) (rel : path) :
  apart a d → a ++ rel ∈ walk_files (emptied d s) a ↔ a ++ rel ∈ walk_files s a.
Proof.
  intros Hap. rewrite !elem_of_walk_files.
  pose proof (all_dirs_emptied a d s) as Hall. specialize (Hall rel [] Hap) as Hd.
  rewrite app_nil_r in Hd.
  split; intros (rel' & data & E & Hf & Ha); apply app_inv_head in E as <-;
    exists rel, data; split_and!; try done.
  - by rewrite emptied_outside in Hf by by apply apart_below.
  - by rewrite <- Hd.
  - by rewrite emptied_outside by by apply apart_below.
  - by rewrite Hd.
Qed.

(** X15.  The sky directory after the sky patcher, by design.  With
    [datetime] bound, on an existing sky directory and with nothing in the
    way of the patch operation once that directory has been emptied, the
    call returns, and the regular files in the sky directory are then the
    files of the selected skybox and nothing else: each at its relative
    path, with the bytes of the skybox.  Nothing of what the sky directory
    had is left. *)
Theorem sky_replaced (g : globals) (selected target_version : path) (ts : string) (s : fs)
    (p : path) (data : string) :
  datetime_now g = Some ts →
  well_formedb s = true → is_dir s (sky_dir_of target_version) = true →
  ready (emptied (sky_dir_of target_version) s) selected (sky_dir_of target_version) ts
  = true →
  sky_dir_of target_version `prefix_of` p →
  (apply_sky g selected target_version s).1 = Return tt
  ∧ ((apply_sky g selected target_version s).2 !! p = Some (File data)
     ↔ ∃ rel, p = sky_dir_of target_version ++ rel
              ∧ selected ++ rel ∈ walk_files s selected
              ∧ s !! (selected ++ rel) = Some (File data)).
Proof.
  intros Hg Hwf%well_formedb_spec Hd Hready%ready_spec [y ->].
  set (sky_dir := sky_dir_of target_version) in *.
  pose proof Hready as (Hwf0 & Hsd & Hsb & Hdb & Hfresh & Hbk & Hc).
  destruct (copy_tree_over_patched (emptied sky_dir s) selected sky_dir ts
              Hwf0 Hsd Hsb Hdb Hfresh Hbk Hc g Hg)
    as (B & C & s' & E & (Hcopied & Hbacked & Hframe) & HC & _).
  assert (apply_sky g selected target_version s = (Return tt, s')) as ->.
  { unfold apply_sky. cbv zeta. fold sky_dir. unfold bind at 1, dst_exists.
    rewrite (is_dir_exists _ _ Hd).
    pose proof (purge_block sky_dir s Hwf Hd) as Hpurge.
    unfold bind at 1. rewrite Hpurge. unfold bind. by rewrite E. }
  simpl. split; [done|].
  destruct (decide (source_rel (emptied sky_dir s) selected y)) as [Hy|Hy].
  - destruct (Hcopied y) as [_ ->]; [by apply HC|].
    rewrite emptied_outside by (by apply apart_below). split.
    + intros Hf. exists y. split_and!; [done| |done]. by apply (walk_files_emptied _ sky_dir).
    + by intros (rel & ->%app_inv_head & _ & Hf).
  - split.
    + intros Hf. exfalso.
      destruct (Hframe (sky_dir ++ y)) as [Heq|(Hn & Hdir & _)]; [| | |congruence].
      * intros rel Hrel ->%app_inv_head. by apply Hy, HC.
      * intros rel _ Heq. apply (backup_root_off_destination sky_dir (sky_dir ++ y) ts);
          [done|by apply prefix_app_r|]. rewrite Heq. by apply prefix_app_r.
      * rewrite Heq, emptied_lookup in Hf. case_decide as Hcase; [done|].
        destruct (decide (sky_dir ++ y = sky_dir)) as [Hsky|Hne].
        -- rewrite Hsky in Hf. apply is_dir_lookup in Hd; [congruence|].
           unfold sky_dir, sky_dir_of. by destruct target_version.
        -- apply Hcase. split; [by apply prefix_app_r|done].
    + intros (rel & ->%app_inv_head & Hin & _). destruct Hy.
      by apply (walk_files_emptied _ sky_dir).
Qed.

Lemma sky_replaced_witness :
  (apply_sky with_clock ["skies"; "night"] version sky_world).1 = Return tt
  ∧ ((apply_sky with_clock ["skies"; "night"] version sky_world).2 !! (sky ++ ["a.png"])
     = Some (File "a-night")
     ↔ ∃ rel, sky ++ ["a.png"] = sky_dir_of version ++ rel
              ∧ ["skies"; "night"] ++ rel ∈ walk_files sky_world ["skies"; "night"]
              ∧ sky_world !! (["skies"; "night"] ++ rel) = Some (File "a-night")).
Proof.
  apply (sky_replaced with_clock ["skies"; "night"] version "20260101_120000" sky_world
           (sky ++ ["a.png"]) "a-night").
  - reflexivity.
  - vm_compute. reflexivity.
  - vm_compute. reflexivity.
  - vm_compute. reflexivity.
  - apply (bool_decide_unpack _). vm_compute. reflexivity.
Defined.

(** * User verification *)

(** ** [strip] *)

Lemma lstrip_head (t : string) :
  match lstrip t with
  | String a _ => is_space a = false
  | EmptyString => True
  end.
Proof.
  induction t as [|a t IH]; simpl; [done|].
  destruct (is_space a) eqn:Ha; [done|]. simpl. done.
Qed.

Lemma rstrip_rstrip (t : string) : rstrip (rstrip t) = rstrip t.
Proof.
  induction t as [|a t IH]; simpl; [done|].
  destruct (rstrip t) as [|b r] eqn:E.
  - destruct (is_space a) eqn:Ha; simpl; [done|]. by rewrite Ha.
  - change (rstrip (String a (String b r))) with
      (match rstrip (String b r) with
       | EmptyString => if is_space a then EmptyString else String a EmptyString
       | r' => String a r'
       end).
    by rewrite IH.
Qed.

Lemma lstrip_rstrip (t : string) :
  match t with String a _ => is_space a = false | EmptyString => True end →
  lstrip (rstrip t) = rstrip t.
Proof.
  destruct t as [|a t]; [done|]. intros Ha. simpl.
  destruct (rstrip t); simpl; rewrite ?Ha; simpl; by rewrite ?Ha.
Qed.

Lemma strip_strip (t : string) : strip (strip t) = strip t.
Proof.
  unfold strip. rewrite lstrip_rstrip by apply lstrip_head. apply rstrip_rstrip.
Qed.

(** ** Text mode *)

(** Text without a carriage return is read as it was written, whatever
    [os.linesep] is. *)
Lemma universal_newlines_to_linesep (crlf : bool) (t : string) :
  has_CR t = false → universal_newlines false (to_linesep crlf t) = t.
Proof.
  induction t as [|a t IH]; [done|]. simpl.
  intros [Ha Ht]%orb_false_iff. specialize (IH Ht).
  destruct (Ascii.eqb_spec a LF) as [->|Hlf].
  - destruct crlf; simpl; by rewrite IH.
  - simpl. rewrite Ha. destruct (Ascii.eqb_spec a LF) as [|_]; [done|]. by rewrite IH.
Qed.

Lemma strip_blank (t : string) : strip t = "" ↔ lstrip t = "".
Proof.
  unfold strip. split; [|by intros ->].
  pose proof (lstrip_head t) as Hh. destruct (lstrip t) as [|a r]; [done|].
  simpl. destruct (rstrip r); [by rewrite Hh|done].
Qed.

Lemma lstrip_to_linesep (crlf : bool) (t : string) :
  lstrip t = "" → lstrip (to_linesep crlf t) = "".
Proof.
  induction t as [|a t IH]; [done|]. simpl.
  destruct (is_space a) eqn:Ha; [|done]. intros Ht%IH.
  destruct (Ascii.eqb_spec a LF) as [->|_]; [destruct crlf|]; simpl; by rewrite ?Ha.
Qed.

Lemma lstrip_universal_newlines (after_cr : bool) (t : string) :
  lstrip t = "" → lstrip (universal_newlines after_cr t) = "".
Proof.
  revert after_cr. induction t as [|a t IH]; [done|]. intros after_cr. simpl.
  destruct (is_space a) eqn:Ha; [|done]. intros Ht.
  destruct (Ascii.eqb_spec a CR) as [->|_]; [simpl; by apply IH|].
  destruct (Ascii.eqb_spec a LF) as [->|_].
  - destruct after_cr; simpl; by apply IH.
  - simpl. rewrite Ha. by apply IH.
Qed.

(** A blank name is blank when it is read back. *)
Lemma blank_read_back (crlf : bool) (t : string) :
  strip t = "" → strip (universal_newlines false (to_linesep crlf t)) = "".
Proof.
  rewrite !strip_blank. intros Ht.
  by apply lstrip_universal_newlines, lstrip_to_linesep.
Qed.

(** ** The lock file *)

Lemma write_file_Return (p : path) (data : string) (s s' : fs) :
  write_file p data s = (Return tt, s') → p ≠ [] ∧ s' = <[p := File data]> s.
Proof.
  unfold write_file. destruct (decide (p = [])) as [->|Hp]; [done|].
  destruct (stat s p) as [[]|]; [by intros [= <-]|done|].
  destruct (stat s (parent p)) as [[]|]; [done| |done].
  by intros [= <-].
Qed.

Lemma load_user_file (lock : path) (text : string) (s : fs) :
  lock ≠ [] → s !! lock = Some (File text) →
  load_user lock s = (Return (Some (strip (universal_newlines false text))), s).
Proof.
  intros Hne Hl. unfold load_user, bind, dst_exists, path_exists, read_file.
  rewrite stat_nonempty by done. rewrite Hl. cbv beta.
  rewrite stat_nonempty by done. by rewrite Hl.
Qed.

(** X16.  A name without a carriage return that [save_user] has written,
    [load_user] reads back, stripped of the white space around it, whether
    [os.linesep] is [CR LF] or [LF].  (Text mode turns a carriage return
    into a line feed on the way back: such a name is read back as it was
    written only up to that.) *)
Theorem save_then_load (crlf : bool) (lock : path) (username : string) (s s' : fs) :
  save_user crlf lock username s = (Return tt, s') →
  has_CR username = false →
  load_user lock s' = (Return (Some (strip username)), s').
Proof.
  intros [Hne ->]%write_file_Return Hcr.
  rewrite (load_user_file lock (to_linesep crlf username)); [|done|by rewrite lookup_insert_eq].
  by rewrite universal_newlines_to_linesep.
Qed.

Lemma save_then_load_witness :
  load_user lock_file (save_user true lock_file " louis " first_run).2
  = (Return (Some (strip " louis ")), (save_user true lock_file " louis " first_run).2).
Proof.
  apply (save_then_load true lock_file " louis " first_run).
  - evaluate.
  - reflexivity.
Defined.

(** A carriage return inside the name is read back as a line feed. *)
Example carriage_return_read_back :
  (load_user lock_file
     (save_user false lock_file (String "a" (String CR "b")) first_run).2).1
  = Return (Some (String "a" (String LF "b"))).
Proof. vm_compute. reflexivity. Qed.

Lemma verify_user_loaded (crlf : bool) (user : string) (lock : path) (inputs : list string)
    (name : string) (s : fs) :
  load_user lock s = (Return (Some name), s) → name ≠ "" →
  verify_user crlf user lock inputs s = (Return (name, inputs), s).
Proof. intros Hl Hn. unfold verify_user, bind at 1. rewrite Hl. by destruct name. Qed.

(** X17.  A user name saved by an earlier run is returned without a
    question, as text mode reads it (every line end as a line feed) and
    stripped of the white space around it: no line of input is read, the
    login name is not looked at, and the file system stays as it is. *)
Theorem verify_user_remembered (crlf : bool) (user : string) (lock : path)
    (inputs : list string) (text : string) (s : fs) :
  lock ≠ [] → s !! lock = Some (File text) →
  strip (universal_newlines false text) ≠ "" →
  verify_user crlf user lock inputs s
  = (Return (strip (universal_newlines false text), inputs), s).
Proof.
  intros Hne Hl Ht. apply verify_user_loaded; [|done]. by apply load_user_file.
Qed.

Lemma verify_user_remembered_witness :
  verify_user true "admin" lock_file ["2"; "someone"] later_run
  = (Return (strip (universal_newlines false "louis "), ["2"; "someone"]), later_run).
Proof.
  apply (verify_user_remembered true "admin" lock_file ["2"; "someone"] "louis " later_run).
  - discriminate.
  - vm_compute. reflexivity.
  - vm_compute. discriminate.
Defined.

Lemma verify_user_Return (crlf : bool) (user : string) (lock : path)
    (inputs rest : list string) (name : string) (s s' : fs) :
  verify_user crlf user lock inputs s = (Return (name, rest), s') →
  (s' = s ∧ rest = inputs ∧ name ≠ "" ∧ load_user lock s = (Return (Some name), s))
  ∨ (lock ≠ [] ∧ s' = <[lock := File (to_linesep crlf name)]> s
     ∧ ((name = user ∧ ∃ choice, read_choice inputs = Some (choice, rest))
        ∨ ∃ choice answer, read_choice inputs = Some (choice, answer :: rest)
                           ∧ name = strip answer)).
Proof.
  unfold verify_user. intros (saved & s1 & Hload & H)%bind_Return.
  assert (s1 = s) as ->.
  { unfold load_user, bind, dst_exists in Hload. destruct (path_exists s lock).
    - pose proof (read_file_state lock s) as E.
      destruct (read_file lock s) as [[text|e] s2]; simpl in *; [|done].
      by injection Hload as _ <-.
    - by injection Hload as _ <-. }
  assert (match read_choice inputs with
          | None => raise EOFError
          | Some (choice, rest0) =>
              if bool_decide (choice = "1")
              then let! _ := save_user crlf lock user in ret (user, rest0)
              else
                match rest0 with
                | [] => raise EOFError
                | answer :: rest' =>
                    let! _ := save_user crlf lock (strip answer) in
                    ret (strip answer, rest')
                end
          end s = (Return (name, rest), s') →
          lock ≠ [] ∧ s' = <[lock := File (to_linesep crlf name)]> s
          ∧ ((name = user ∧ ∃ choice, read_choice inputs = Some (choice, rest))
             ∨ ∃ choice answer, read_choice inputs = Some (choice, answer :: rest)
                                ∧ name = strip answer)) as Hask.
  { destruct (read_choice inputs) as [[choice rest0]|]; [|done].
    destruct (bool_decide (choice = "1")).
    - intros ([] & s2 & [Hne ->]%write_file_Return & [= <- <- <-])%bind_Return.
      split_and!; [done..|]. left. eauto.
    - destruct rest0 as [|answer rest']; [done|].
      intros ([] & s2 & [Hne ->]%write_file_Return & [= <- <- <-])%bind_Return.
      split_and!; [done..|]. right. eauto. }
  destruct saved as [[|a t]|]; [right; by apply Hask| |right; by apply Hask].
  injection H as <- <- <-. left. by split_and!.
Qed.

Lemma load_user_Return (lock : path) (name : string) (s s' : fs) :
  load_user lock s = (Return (Some name), s') →
  ∃ text, lock ≠ [] ∧ s !! lock = Some (File text)
          ∧ name = strip (universal_newlines false text).
Proof.
  unfold load_user, bind, dst_exists, path_exists, read_file.
  destruct lock as [|c lock]; [by cbn|]. simpl.
  destruct (s !! (c :: lock)) as [[text|]|] eqn:E; cbn; rewrite ?E; [|done..].
  intros [= <- <-]. by exists text.
Qed.

(** X18.  Once [verify_user] has returned a name that is not blank and has
    no carriage return in it, the next run returns the same name, stripped
    of the white space around it, without a question: it reads no line of
    input and leaves the file system as it is, whatever [os.linesep] is in
    either run. *)
Theorem verify_user_again (crlf crlf' : bool) (user user' : string) (lock : path)
    (inputs rest inputs' : list string) (name : string) (s s' : fs) :
  verify_user crlf user lock inputs s = (Return (name, rest), s') →
  strip name ≠ "" →
  has_CR name = false →
  verify_user crlf' user' lock inputs' s' = (Return (strip name, inputs'), s').
Proof.
  intros [(-> & _ & _ & Hload)|(Hne & -> & _)]%verify_user_Return Hname Hcr.
  - apply load_user_Return in Hload as (text & Hne & Hl & ->).
    rewrite strip_strip in *. apply verify_user_loaded; [|done]. by apply load_user_file.
  - apply verify_user_loaded; [|done].
    rewrite (load_user_file lock (to_linesep crlf name)); [|done|by rewrite lookup_insert_eq].
    by rewrite universal_newlines_to_linesep.
Qed.

Lemma verify_user_again_witness :
  verify_user false "guest" lock_file []
    (verify_user true "admin" lock_file ["x"; "2"; " louis "] first_run).2
  = (Return (strip "louis", []),
     (verify_user true "admin" lock_file ["x"; "2"; " louis "] first_run).2).
Proof.
  apply (verify_user_again true false "admin" "guest" lock_file ["x"; "2"; " louis "] [] []
           "louis" first_run).
  - evaluate.
  - vm_compute. discriminate.
  - reflexivity.
Defined.

(** X19.  A blank name is saved and never recognised: when [verify_user] has
    returned a name that is blank (the answer to [Enter username] was
    empty, or the login name is), the file holds that name as text mode
    writes it, and the next run asks again - with no input to read, it ends
    in [EOFError]. *)
Theorem verify_user_blank_name (crlf crlf' : bool) (user user' : string) (lock : path)
    (inputs rest : list string) (name : string) (s s' : fs) :
  verify_user crlf user lock inputs s = (Return (name, rest), s') →
  strip name = "" →
  s' !! lock = Some (File (to_linesep crlf name))
  ∧ verify_user crlf' user' lock [] s' = (Raise EOFError, s').
Proof.
  intros [(-> & _ & Hname & Hload)|(Hne & -> & _)]%verify_user_Return Hblank.
  - apply load_user_Return in Hload as (text & Hne & Hl & ->).
    by rewrite strip_strip in Hblank.
  - rewrite lookup_insert_eq. split; [done|].
    unfold verify_user, bind at 1.
    rewrite (load_user_file lock (to_linesep crlf name)) by (by rewrite ?lookup_insert_eq).
    by rewrite blank_read_back.
Qed.

Lemma verify_user_blank_name_witness :
  (verify_user true "admin" lock_file ["2"; "  "] first_run).2 !! lock_file
  = Some (File (to_linesep true ""))
  ∧ verify_user false "guest" lock_file []
      (verify_user true "admin" lock_file ["2"; "  "] first_run).2
    = (Raise EOFError, (verify_user true "admin" lock_file ["2"; "  "] first_run).2).
Proof.
  apply (verify_user_blank_name true false "admin" "guest" lock_file ["2"; "  "] [] ""
           first_run).
  - evaluate.
  - reflexivity.
Defined.

Lemma read_choice_skips (bad inputs : list string) :
  Forall (fun a => strip a ≠ "1" ∧ strip a ≠ "2") bad →
  read_choice (bad ++ inputs) = read_choice inputs.
Proof.
  induction 1 as [|a bad [H1 H2] _ IH]; [done|]. simpl.
  by rewrite !bool_decide_eq_false_2.
Qed.

(** X20.  With no user name saved, answers other than [1] and [2] are asked
    again and change nothing: the call goes on as if they had not been
    typed. *)
Theorem verify_user_skips_invalid (crlf : bool) (user : string) (lock : path)
    (bad inputs : list string) (s : fs) :
  path_exists s lock = false →
  Forall (fun a => strip a ≠ "1" ∧ strip a ≠ "2") bad →
  verify_user crlf user lock (bad ++ inputs) s = verify_user crlf user lock inputs s.
Proof.
  intros Hl Hbad. unfold verify_user, bind at 1 3, load_user, bind, dst_exists.
  rewrite Hl. simpl. by rewrite read_choice_skips.
Qed.

Lemma verify_user_skips_invalid_witness :
  verify_user true "admin" lock_file (["yes"; "3"; ""] ++ ["1"]) first_run
  = verify_user true "admin" lock_file ["1"] first_run.
Proof.
  apply (verify_user_skips_invalid true "admin" lock_file ["yes"; "3"; ""] ["1"] first_run).
  - vm_compute. reflexivity.
  - apply (bool_decide_unpack _). vm_compute. reflexivity.
Defined.

Lemma verify_user_state (crlf : bool) (user : string) (lock : path) (inputs : list string)
    (s : fs) :
  (verify_user crlf user lock inputs s).2 = s
  ∨ ∃ data, (verify_user crlf user lock inputs s).2 = <[lock := File data]> s.
Proof.
  destruct (verify_user crlf user lock inputs s) as [[[name rest]|e] s'] eqn:E; simpl.
  - apply verify_user_Return in E as [(-> & _)|(_ & -> & _)]; eauto.
  - left. unfold verify_user in E.
    apply bind_Raise in E as [E|(saved & s1 & Hload & E)].
    + unfold load_user, bind, dst_exists in E. destruct (path_exists s lock); [|done].
      pose proof (read_file_state lock s) as Hs.
      destruct (read_file lock s) as [[text|e'] s2]; simpl in *; [done|].
      injection E as _ <-. by subst.
    + assert (s1 = s) as ->.
      { unfold load_user, bind, dst_exists in Hload. destruct (path_exists s lock).
        - pose proof (read_file_state lock s) as Hs.
          destruct (read_file lock s) as [[text|e'] s2]; simpl in *; [|done].
          by injection Hload as _ <-.
        - by injection Hload as _ <-. }
      assert (∀ data (x : string * list string),
                bind (save_user crlf lock data) (fun _ => ret x) s = (Raise e, s') → s' = s)
        as Hsave.
      { intros data x [Hw|([] & s2 & _ & [=])]%bind_Raise.
        unfold save_user, write_file in Hw. destruct (stat s lock) as [[]|]; [done| |].
        - by injection Hw as _ <-.
        - destruct (stat s (parent lock)) as [[]|]; [|done|]; by injection Hw as _ <-. }
      assert (match read_choice inputs with
              | None => raise EOFError
              | Some (choice, rest0) =>
                  if bool_decide (choice = "1")
                  then let! _ := save_user crlf lock user in ret (user, rest0)
                  else
                    match rest0 with
                    | [] => raise EOFError
                    | answer :: rest' =>
                        let! _ := save_user crlf lock (strip answer) in
                    ret (strip answer, rest')
                    end
              end s = (Raise e, s') → s' = s) as Hask.
      { destruct (read_choice inputs) as [[choice rest0]|]; [|by intros [= _ <-]].
        destruct (bool_decide (choice = "1")); [apply Hsave|].
        destruct rest0 as [|answer rest']; [by intros [= _ <-]|apply Hsave]. }
      destruct saved as [[|a t]|]; [by apply Hask|done|by apply Hask].
Qed.

(** X21.  [verify_user] writes nothing but [user.lock]: every other entry of
    the file system is after the call as it was before, whatever the
    answers and the outcome. *)
Theorem verify_user_footprint (crlf : bool) (user : string) (lock : path)
    (inputs : list string) (s : fs) (p : path) :
  p ≠ lock → (verify_user crlf user lock inputs s).2 !! p = s !! p.
Proof.
  intros Hp.
  destruct (verify_user_state crlf user lock inputs s) as [->|[name ->]]; [done|].
  by rewrite lookup_insert_ne.
Qed.

Lemma verify_user_footprint_witness :
  (verify_user true "admin" lock_file ["1"] first_run).2 !! ["cwd"] = first_run !! ["cwd"].
Proof.
  apply (verify_user_footprint true "admin" lock_file ["1"] first_run ["cwd"]). discriminate.
Defined.

(** * Finding the client and the archive *)

(** ** The latest version *)

Lemma max_by_spec (key : path → Z) (l : list path) (best : path) :
  max_by key best l ∈ best :: l
  ∧ ∀ d, d ∈ best :: l → (key d ≤ key (max_by key best l))%Z.
Proof.
  revert best. induction l as [|x l IH]; intros best; simpl.
  - split; [by left|]. intros d ->%list_elem_of_singleton. lia.
  - destruct (IH (if (key best <? key x)%Z then x else best)) as [Hin Hmax]. split.
    + apply elem_of_cons in Hin as [->|Hin]; [|by do 2 right].
      destruct (key best <? key x)%Z; [right|]; by left.
    + intros d [->|[->|Hd]%elem_of_cons]%elem_of_cons.
      * etransitivity; [|apply Hmax; by left].
        destruct (Z.ltb_spec (key best) (key x)); lia.
      * etransitivity; [|apply Hmax; by left].
        destruct (Z.ltb_spec (key best) (key x)); lia.
      * apply Hmax. by right.
Qed.

Lemma dst_exists_eq (p : path) (s : fs) : dst_exists p s = (Return (path_exists s p), s).
Proof. reflexivity. Qed.

Lemma subdirs_spec (s : fs) (p : path) (children : list path) (d : path) :
  (∀ q, q ∈ children ↔ is_Some (s !! q) ∧ q ≠ [] ∧ parent q = p) →
  d ∈ List.filter (is_dir s) children ↔ d ≠ [] ∧ parent d = p ∧ s !! d = Some Dir.
Proof.
  intros Hc. rewrite list_elem_of_In, filter_In, <- list_elem_of_In, Hc. split.
  - intros [(_ & Hne & Hpar) Hd]. split_and!; [done..|]. by apply is_dir_lookup.
  - intros (Hne & Hpar & Hd). split_and!; [by rewrite Hd|done..|]. by apply is_dir_lookup.
Qed.

(** X22.  When [find_bloxstrap_versions] returns, it has changed nothing, and
    the path it returns is a directory in [Bloxstrap/Versions] than which no
    directory there has a later modification time. *)
Theorem find_bloxstrap_versions_latest (mtime : path → Z) (local_appdata latest : path)
    (s s' : fs) :
  find_bloxstrap_versions mtime local_appdata s = (Return latest, s') →
  s' = s
  ∧ latest ≠ []
  ∧ parent latest = local_appdata ++ ["Bloxstrap"; "Versions"]
  ∧ s !! latest = Some Dir
  ∧ ∀ d, d ≠ [] → parent d = local_appdata ++ ["Bloxstrap"; "Versions"] →
         s !! d = Some Dir → (mtime d ≤ mtime latest)%Z.
Proof.
  unfold find_bloxstrap_versions. intros (there & s1 & [= <- <-] & H)%bind_Return.
  destruct (negb _); [done|].
  apply bind_Return in H as (children & s1 & (-> & _ & Hc)%iterdir_Return & H).
  pose proof (fun d => subdirs_spec s _ children d Hc) as Hsub.
  destruct (List.filter (is_dir s) children) as [|d0 subdirs]; [done|].
  injection H as <- <-. destruct (max_by_spec mtime subdirs d0) as [Hin Hmax].
  apply Hsub in Hin as (? & ? & ?). split_and!; [done..|].
  intros d Hne Hpar Hd. apply Hmax, Hsub. done.
Qed.

Lemma find_bloxstrap_versions_latest_witness :
  (find_bloxstrap_versions desk_mtime appdata desk).2 = desk
  ∧ appdata ++ ["Bloxstrap"; "Versions"; "v2"] ≠ []
  ∧ parent (appdata ++ ["Bloxstrap"; "Versions"; "v2"])
    = appdata ++ ["Bloxstrap"; "Versions"]
  ∧ desk !! (appdata ++ ["Bloxstrap"; "Versions"; "v2"]) = Some Dir
  ∧ ∀ d, d ≠ [] → parent d = appdata ++ ["Bloxstrap"; "Versions"] →
         desk !! d = Some Dir
         → (desk_mtime d ≤ desk_mtime (appdata ++ ["Bloxstrap"; "Versions"; "v2"]))%Z.
Proof.
  apply (find_bloxstrap_versions_latest desk_mtime appdata
           (appdata ++ ["Bloxstrap"; "Versions"; "v2"]) desk
           (find_bloxstrap_versions desk_mtime appdata desk).2).
  evaluate.
Defined.

(** X23.  When [find_bloxstrap_versions] raises, it has changed nothing, and
    the exception is [FileNotFoundError] because [Bloxstrap/Versions] does
    not exist or has no directory in it, or [NotADirectoryError] because
    [Bloxstrap/Versions] is a regular file. *)
Theorem find_bloxstrap_versions_raises (mtime : path → Z) (local_appdata : path) (e : exn)
    (s s' : fs) :
  find_bloxstrap_versions mtime local_appdata s = (Raise e, s') →
  s' = s
  ∧ ((e = FileNotFoundError (local_appdata ++ ["Bloxstrap"; "Versions"])
      ∧ (path_exists s (local_appdata ++ ["Bloxstrap"; "Versions"]) = false
         ∨ (is_dir s (local_appdata ++ ["Bloxstrap"; "Versions"]) = true
            ∧ ∀ d, d ≠ [] → parent d = local_appdata ++ ["Bloxstrap"; "Versions"] →
                   s !! d ≠ Some Dir)))
     ∨ (e = NotADirectoryError (local_appdata ++ ["Bloxstrap"; "Versions"])
        ∧ is_file s (local_appdata ++ ["Bloxstrap"; "Versions"]) = true)).
Proof.
  unfold find_bloxstrap_versions. set (vp := local_appdata ++ _).
  unfold bind at 1. rewrite dst_exists_eq.
  destruct (path_exists s vp) eqn:Hex; simpl; [|intros [= <- <-]; by auto].
  unfold bind. destruct (iterdir vp s) as [[children|e'] s1] eqn:Hit.
  - apply iterdir_Return in Hit as (-> & Hd & Hc).
    pose proof (fun d => subdirs_spec s _ children d Hc) as Hsub.
    destruct (List.filter (is_dir s) children) as [|d0 subdirs]; [|done].
    intros [= <- <-]. split; [done|]. left. split; [done|]. right. split; [done|].
    intros d Hne Hpar Hdir. by apply (elem_of_nil d), Hsub.
  - unfold iterdir, is_file, path_exists in *. destruct (stat s vp) as [[]|]; [|done..].
    injection Hit as <- <-. intros [= <- <-]. auto.
Qed.

Lemma find_bloxstrap_versions_raises_witness :
  (find_bloxstrap_versions desk_mtime appdata bare).2 = bare
  ∧ ((FileNotFoundError (appdata ++ ["Bloxstrap"; "Versions"])
      = FileNotFoundError (appdata ++ ["Bloxstrap"; "Versions"])
      ∧ (path_exists bare (appdata ++ ["Bloxstrap"; "Versions"]) = false
         ∨ (is_dir bare (appdata ++ ["Bloxstrap"; "Versions"]) = true
            ∧ ∀ d, d ≠ [] → parent d = appdata ++ ["Bloxstrap"; "Versions"] →
                   bare !! d ≠ Some Dir)))
     ∨ (FileNotFoundError (appdata ++ ["Bloxstrap"; "Versions"])
        = NotADirectoryError (appdata ++ ["Bloxstrap"; "Versions"])
        ∧ is_file bare (appdata ++ ["Bloxstrap"; "Versions"]) = true)).
Proof.
  apply (find_bloxstrap_versions_raises desk_mtime appdata
           (FileNotFoundError (appdata ++ ["Bloxstrap"; "Versions"])) bare
           (find_bloxstrap_versions desk_mtime appdata bare).2).
  evaluate.
Defined.

(** ** The archive *)

Lemma elem_of_glob_ending (suffix : string) (dir : path) (s : fs) (q : path) :
  q ∈ glob_ending suffix dir s ↔
  is_dir s dir = true ∧ is_Some (s !! q) ∧ q ≠ [] ∧ parent q = dir
  ∧ ends_with suffix (basename q) = true.
Proof.
  unfold glob_ending. destruct (is_dir s dir).
  - rewrite list_elem_of_filter, list_elem_of_fmap. split.
    + intros [(Hne & Hpar & He) ([q' e] & -> & Hin%elem_of_map_to_list)]. simpl in *.
      split_and!; [done|by rewrite Hin|done..].
    + intros (_ & [e He] & Hne & Hpar & Hs). split; [done|]. exists (q, e).
      split; [done|]. by apply elem_of_map_to_list.
  - split; [by intros ?%elem_of_nil|by intros [? _]].
Qed.

Lemma path_exists_lookup (s : fs) (q : path) : is_Some (s !! q) → path_exists s q = true.
Proof. intros [e He]. unfold path_exists, stat. destruct q; [done|]. by rewrite He. Qed.

(** X24.  When [find_zip_candidate] returns, it has changed nothing and the
    path it returns exists.  It has read a line of input only when it had to
    ask, and the path is then the one that was typed, without the quotes
    around it. *)
Theorem find_zip_candidate_exists (home : path) (expanduser : string → path)
    (inputs rest : list string) (z : path) (s s' : fs) :
  find_zip_candidate home expanduser inputs s = (Return (z, rest), s') →
  s' = s
  ∧ path_exists s z = true
  ∧ (rest = inputs
     ∨ ∃ answer, inputs = answer :: rest
                 ∧ z = expanduser (strip_char double_quote answer)).
Proof.
  unfold find_zip_candidate.
  destruct (path_exists s (home ++ _)) eqn:Hdef; [intros [= <- <- <-]; by auto|].
  set (zips := if path_exists s _ then _ else _).
  assert (∀ q, q ∈ zips → path_exists s q = true) as Hz.
  { subst zips. destruct (path_exists s (home ++ ["Documents"; "rivalsPayload"]));
      [|by intros q ?%elem_of_nil].
    intros q (_ & Hq & _)%elem_of_glob_ending. by apply path_exists_lookup. }
  destruct zips as [|z0 zips'] eqn:Ez.
  - destruct inputs as [|answer inputs']; [done|].
    destruct (bool_decide _); [done|].
    destruct (path_exists s (expanduser _)) eqn:Hex; [|done].
    intros [= <- <- <-]. split_and!; [done..|]. right. by exists answer.
  - destruct (find dark_or_texture (z0 :: zips')) as [z1|] eqn:Hfind.
    + intros [= <- <- <-]. split_and!; [done| |by left].
      apply Hz, list_elem_of_In. by apply find_some in Hfind as [? _].
    + intros [= <- <- <-]. split_and!; [done| |by left]. apply Hz. by left.
Qed.

Lemma find_zip_candidate_exists_witness :
  (find_zip_candidate ["home"] desk_expanduser ["/home"] bare).2 = bare
  ∧ path_exists bare ["home"] = true
  ∧ (@nil string = ["/home"]
     ∨ ∃ answer, ["/home"] = [answer]
                 ∧ ["home"] = desk_expanduser (strip_char double_quote answer)).
Proof.
  apply (find_zip_candidate_exists ["home"] desk_expanduser ["/home"] [] ["home"] bare
           (find_zip_candidate ["home"] desk_expanduser ["/home"] bare).2).
  evaluate.
Defined.

(** X25.  With no archive under the default name, an archive that the
    documents directory has is taken without a question, and one whose name
    holds [dark] or [texture] is preferred: the call returns a [.zip] entry
    of [Documents/rivalsPayload], reads no line of input, and the name of
    the entry holds [dark] or [texture] whenever the name of some [.zip]
    entry there does. *)
Theorem find_zip_candidate_prefers (home : path) (expanduser : string → path)
    (inputs : list string) (z' : path) (s : fs) :
  path_exists s (home ++ ["Documents"; "rivalsPayload"; "dark-textures-rivals.zip"]) = false →
  z' ∈ glob_ending ".zip" (home ++ ["Documents"; "rivalsPayload"]) s →
  ∃ z, find_zip_candidate home expanduser inputs s = (Return (z, inputs), s)
       ∧ z ∈ glob_ending ".zip" (home ++ ["Documents"; "rivalsPayload"]) s
       ∧ (dark_or_texture z' = true → dark_or_texture z = true).
Proof.
  intros Hdef Hz'. unfold find_zip_candidate. rewrite Hdef.
  pose proof Hz' as (Hdir%is_dir_exists & _)%elem_of_glob_ending. rewrite Hdir.
  destruct (glob_ending ".zip" _ s) as [|z0 zips'] eqn:Ez; [by apply elem_of_nil in Hz'|].
  destruct (find dark_or_texture (z0 :: zips')) as [z1|] eqn:Hfind.
  - apply find_some in Hfind as [Hin%list_elem_of_In Hdark]. by exists z1.
  - exists z0. split_and!; [done|by left|]. intros Hdark.
    apply list_elem_of_In in Hz'. by rewrite (find_none _ _ Hfind z' Hz') in Hdark.
Qed.

Lemma find_zip_candidate_prefers_witness :
  ∃ z, find_zip_candidate ["home"] desk_expanduser ["never read"] desk
       = (Return (z, ["never read"]), desk)
       ∧ z ∈ glob_ending ".zip" (["home"] ++ ["Documents"; "rivalsPayload"]) desk
       ∧ (dark_or_texture ["home"; "Documents"; "rivalsPayload"; "My-Textures.zip"] = true
          → dark_or_texture z = true).
Proof.
  apply (find_zip_candidate_prefers ["home"] desk_expanduser ["never read"]
           ["home"; "Documents"; "rivalsPayload"; "My-Textures.zip"] desk).
  - vm_compute. reflexivity.
  - apply (bool_decide_unpack _). vm_compute. reflexivity.
Defined.

(** * The program *)

(** ** What [main] can touch in the module as it is *)

Lemma try_except_state {A : Type} (R : relation fs) `{!Transitive R} (body : M A)
    (handler : exn → M A) (s : fs) :
  R s (body s).2 → (∀ e s1, R s1 (handler e s1).2) → R s (try_except body handler s).2.
Proof.
  intros Hb Hh. unfold try_except. destruct (body s) as [[a|e] s1]; simpl in *; [done|].
  etransitivity; [exact Hb|apply Hh].
Qed.

Lemma find_bloxstrap_versions_state (mtime : path → Z) (local_appdata : path) (s : fs) :
  (find_bloxstrap_versions mtime local_appdata s).2 = s.
Proof.
  unfold find_bloxstrap_versions, bind at 1. rewrite dst_exists_eq.
  destruct (negb _); [done|]. unfold bind.
  pose proof (iterdir_state (local_appdata ++ ["Bloxstrap"; "Versions"]) s) as E.
  destruct (iterdir _ s) as [[children|e] s1]; simpl in *; subst s1; [|done].
  by destruct (List.filter _ _).
Qed.

Lemma find_zip_candidate_state (home : path) (expanduser : string → path)
    (inputs : list string) (s : fs) :
  (find_zip_candidate home expanduser inputs s).2 = s.
Proof.
  unfold find_zip_candidate. destruct (path_exists s (home ++ _)); [done|].
  destruct (if path_exists s _ then _ else _) as [|z0 zips].
  - destruct inputs as [|answer rest]; [done|]. destruct (bool_decide _); [done|].
    by destruct (path_exists s _).
  - by destruct (find _ _).
Qed.

Lemma extract_and_copy_touches (m : machine) (io : session) (zip_path target : path)
    (s : fs) :
  touched_only (fun q => textures_tmpdir m `prefix_of` q) s
    (extract_and_copy module_globals m io zip_path target s).2.
Proof.
  set (W := fun q => _).
  pose proof (touched_only_trans W) as Htrans. pose proof (touched_only_refl W) as Hrefl.
  unfold extract_and_copy. apply with_tempdir_touches; [done|]. intros s1.
  apply bind_state; [done| |].
  { rewrite read_file_state. reflexivity. }
  intros archive s2. destruct (unzip io archive) as [members|]; [|reflexivity].
  apply bind_state; [done| |].
  { destruct (unextractable m archive) as [n|]; [|apply extractall_touches].
    apply bind_state; [done|apply extractall_touches|intros; reflexivity]. }
  intros _ s3.
  apply bind_state; [done| |].
  { rewrite iterdir_state. reflexivity. }
  intros entries s4. cbv zeta. destruct (negb _); [reflexivity|].
  apply try_except_state; [done| |intros; reflexivity].
  apply bind_state; [done| |intros; reflexivity].
  apply grows_touched_only, copy_tree_over_unbound_grows.
Qed.

Lemma sky_below_sky (v q : path) : sky_dir_of v `prefix_of` q → "sky" ∈ q.
Proof.
  intros [k ->]. unfold sky_dir_of. rewrite !elem_of_app. left. right.
  by do 3 right; left.
Qed.

Lemma main_touches (m : machine) (io : session) (s : fs) :
  touched_only
    (fun q => q = user_lock m ∨ textures_tmpdir m `prefix_of` q
              ∨ tmpdir io `prefix_of` q ∨ "sky" ∈ q)
    s (main module_globals m io s).2.
Proof.
  set (W := fun q => _ ∨ _).
  pose proof (touched_only_trans W) as Htrans. pose proof (touched_only_refl W) as Hrefl.
  assert (∀ inputs v s1,
            touched_only W s1
              (patch_custom_sky module_globals
                 {| stdin := inputs; home := home io; tmpdir := tmpdir io;
                    unzip := unzip io |} v s1).2) as Hsky.
  { intros inputs v s1. eapply touched_only_weaken, patch_custom_sky_touches.
    intros q [?|[Hq|(ts & [=] & _)]]; subst W; simpl in *; [by auto|].
    do 3 right. by eapply sky_below_sky. }
  unfold main. destruct (negb (is_admin m)); [reflexivity|].
  apply bind_state; [done| |].
  { intros q. destruct (decide (q = user_lock m)) as [->|Hq]; [left; by left|].
    right. left.
    destruct (verify_user_state (linesep_crlf m) (getuser m) (user_lock m) (stdin io) s)
      as [->|[saved ->]];
      [done|by rewrite lookup_insert_ne]. }
  intros [name inputs] s1. simpl. destruct inputs as [|answer inputs]; [reflexivity|].
  destruct (negb (accepted answer)).
  - apply bind_state; [done| |intros; reflexivity].
    apply try_except_state; [done| |intros; reflexivity].
    apply bind_state; [done| |intros; apply Hsky].
    rewrite find_bloxstrap_versions_state. reflexivity.
  - apply bind_state; [done| |].
    { apply try_except_state; [done| |intros; reflexivity].
      apply bind_state; [done| |intros; reflexivity].
      rewrite find_bloxstrap_versions_state. reflexivity. }
    intros [latest|] s2; [|reflexivity].
    apply bind_state; [done| |].
    { apply try_except_state; [done| |intros; reflexivity].
      apply bind_state; [done| |intros; reflexivity].
      rewrite find_zip_candidate_state. reflexivity. }
    intros [[zip_path inputs']|] s3; [|reflexivity].
    apply bind_state; [done| |].
    { eapply touched_only_weaken, extract_and_copy_touches. subst W. simpl. auto. }
    intros patched s4. destruct (negb patched); [reflexivity|].
    apply bind_state; [done|apply Hsky|intros; reflexivity].
Qed.

(** X26.  In the module as it is, the program installs nothing.  Whatever is
    answered and whatever the archives hold, away from [user.lock], from the
    two temporary directories and from the directories named [sky], [main]
    changes nothing but missing directories, which it may create: no texture
    of the client is replaced, and none is added. *)
Theorem main_installs_nothing (m : machine) (io : session) (s : fs) (p : path) :
  p ≠ user_lock m → ¬ textures_tmpdir m `prefix_of` p → ¬ tmpdir io `prefix_of` p →
  "sky" ∉ p →
  (main module_globals m io s).2 !! p = s !! p
  ∨ (s !! p = None ∧ (main module_globals m io s).2 !! p = Some Dir).
Proof.
  intros H1 H2 H3 H4. by destruct (main_touches m io s p) as [[?|[?|[?|?]]]|?].
Qed.

Lemma main_installs_nothing_witness :
  (main module_globals desk_machine (desk_session ["1"; "y"; "n"]) desk).2
    !! (appdata ++ ["Bloxstrap"; "Versions"; "v2"; "PlatformContent"; "pc"; "textures";
                    "a.png"])
  = desk !! (appdata ++ ["Bloxstrap"; "Versions"; "v2"; "PlatformContent"; "pc"; "textures";
                         "a.png"])
  ∨ (desk !! (appdata ++ ["Bloxstrap"; "Versions"; "v2"; "PlatformContent"; "pc";
                          "textures"; "a.png"]) = None
     ∧ (main module_globals desk_machine (desk_session ["1"; "y"; "n"]) desk).2
         !! (appdata ++ ["Bloxstrap"; "Versions"; "v2"; "PlatformContent"; "pc"; "textures";
                         "a.png"]) = Some Dir).
Proof.
  apply (main_installs_nothing desk_machine (desk_session ["1"; "y"; "n"]) desk
           (appdata ++ ["Bloxstrap"; "Versions"; "v2"; "PlatformContent"; "pc"; "textures";
                        "a.png"])).
  - discriminate.
  - apply (bool_decide_unpack _). vm_compute. reflexivity.
  - apply (bool_decide_unpack _). vm_compute. reflexivity.
  - apply (bool_decide_unpack _). vm_compute. reflexivity.
Defined.

(** ** Accepting the main patch in the module as it is *)

Lemma bind_state_eq {A B : Type} (R : relation fs) `{!Transitive R} (c : M A) (k : A → M B)
    (s : fs) :
  R s (c s).2 → (∀ a s1, c s = (Return a, s1) → R s1 (k a s1).2) → R s (bind c k s).2.
Proof.
  intros Hc Hk. unfold bind. destruct (c s) as [[a|e] s1]; simpl in *; [|done].
  etransitivity; [exact Hc|by apply Hk].
Qed.

Lemma extract_and_copy_unbound (m : machine) (io : session) (zip_path target : path)
    (b : bool) (s s' : fs) :
  extract_and_copy module_globals m io zip_path target s = (Return b, s') → b = false.
Proof.
  unfold extract_and_copy, with_tempdir.
  destruct (mkdir_parents (textures_tmpdir m) s) as [[[]|e] s1]; [|done].
  match goal with |- (let '(r, s2) := ?body s1 in _) = _ → _ =>
    destruct (body s1) as [r s2] eqn:Hbody end.
  intros [= -> _].
  apply bind_Return in Hbody as (archive & s3 & _ & Hbody).
  destruct (unzip io archive) as [members|]; [|by injection Hbody as <-].
  apply bind_Return in Hbody as ([] & s4 & _ & Hbody).
  apply bind_Return in Hbody as (entries & s5 & _ & Hbody).
  cbv zeta in Hbody. destruct (negb _); [by injection Hbody as <-|].
  unfold try_except, bind in Hbody.
  match type of Hbody with context [copy_tree_over module_globals ?a ?d s5] =>
    destruct (copy_tree_over_unbound_raises a d s5) as (e & s6 & E & _) end.
  rewrite E in Hbody. by injection Hbody as <-.
Qed.

Lemma main_accepted_touches (m : machine) (io : session) (name answer : string)
    (rest : list string) (s s1 : fs) :
  verify_user (linesep_crlf m) (getuser m) (user_lock m) (stdin io) s
  = (Return (name, answer :: rest), s1) →
  accepted answer = true →
  touched_only (fun q => q = user_lock m ∨ textures_tmpdir m `prefix_of` q)
    s (main module_globals m io s).2.
Proof.
  intros Hv Hacc. set (W := fun q => _ ∨ _).
  pose proof (touched_only_trans W) as Htrans. pose proof (touched_only_refl W) as Hrefl.
  unfold main. destruct (negb (is_admin m)); [reflexivity|].
  apply bind_state_eq; [done| |].
  { intros q. destruct (decide (q = user_lock m)) as [->|Hq]; [left; by left|].
    right. left.
    destruct (verify_user_state (linesep_crlf m) (getuser m) (user_lock m) (stdin io) s)
      as [->|[saved ->]];
      [done|by rewrite lookup_insert_ne]. }
  intros verified s1'. rewrite Hv. intros [= <- <-]. simpl. rewrite Hacc. simpl.
  apply bind_state; [done| |].
  { apply try_except_state; [done| |intros; reflexivity].
    apply bind_state; [done| |intros; reflexivity].
    rewrite find_bloxstrap_versions_state. reflexivity. }
  intros [latest|] s2; [|reflexivity].
  apply bind_state; [done| |].
  { apply try_except_state; [done| |intros; reflexivity].
    apply bind_state; [done| |intros; reflexivity].
    rewrite find_zip_candidate_state. reflexivity. }
  intros [[zip_path inputs']|] s3; [|reflexivity].
  apply bind_state_eq; [done| |].
  { eapply touched_only_weaken, extract_and_copy_touches. subst W. simpl. auto. }
  intros patched s4 ->%extract_and_copy_unbound. reflexivity.
Qed.

(** X27.  In the module as it is, accepting the main patch changes no file:
    away from [user.lock] and from the temporary directory, [main] changes
    nothing but missing directories, which it may create.  The textures are
    not replaced, and the sky patcher, which would empty the sky directory,
    is not reached: the patch operation never returns, and [main] goes no
    further than line 368. *)
Theorem main_accepted_changes_nothing (m : machine) (io : session) (name answer : string)
    (rest : list string) (s s1 : fs) (p : path) :
  verify_user (linesep_crlf m) (getuser m) (user_lock m) (stdin io) s
  = (Return (name, answer :: rest), s1) →
  accepted answer = true →
  p ≠ user_lock m → ¬ textures_tmpdir m `prefix_of` p →
  (main module_globals m io s).2 !! p = s !! p
  ∨ (s !! p = None ∧ (main module_globals m io s).2 !! p = Some Dir).
Proof.
  intros Hv Hacc H1 H2.
  by destruct (main_accepted_touches m io name answer rest s s1 Hv Hacc p) as [[?|?]|?].
Qed.

Lemma main_accepted_changes_nothing_witness :
  (main module_globals desk_machine (desk_session ["1"; "y"; "y"; "1"]) desk).2
    !! (appdata ++ ["Bloxstrap"; "Versions"; "v2"; "PlatformContent"; "pc"; "textures";
                    "b.png"])
  = desk !! (appdata ++ ["Bloxstrap"; "Versions"; "v2"; "PlatformContent"; "pc"; "textures";
                         "b.png"])
  ∨ (desk !! (appdata ++ ["Bloxstrap"; "Versions"; "v2"; "PlatformContent"; "pc";
                          "textures"; "b.png"]) = None
     ∧ (main module_globals desk_machine (desk_session ["1"; "y"; "y"; "1"]) desk).2
         !! (appdata ++ ["Bloxstrap"; "Versions"; "v2"; "PlatformContent"; "pc"; "textures";
                         "b.png"]) = Some Dir).
Proof.
  apply (main_accepted_changes_nothing desk_machine (desk_session ["1"; "y"; "y"; "1"])
           "louis" "y" ["y"; "1"] desk
           (verify_user true "louis" lock_file ["1"; "y"; "y"; "1"] desk).2
           (appdata ++ ["Bloxstrap"; "Versions"; "v2"; "PlatformContent"; "pc"; "textures";
                        "b.png"])).
  - evaluate.
  - vm_compute. reflexivity.
  - discriminate.
  - apply (bool_decide_unpack _). vm_compute. reflexivity.
Defined.

(** ** The exceptions that leave [main] *)

Lemma read_file_raises (p : path) (s s' : fs) (e : exn) :
  read_file p s = (Raise e, s') → is_OSError e = true.
Proof. unfold read_file. destruct (stat s p) as [[]|]; [done|..]; by intros [= <- _]. Qed.

Lemma write_file_raises (p : path) (data : string) (s s' : fs) (e : exn) :
  write_file p data s = (Raise e, s') → is_OSError e = true.
Proof.
  unfold write_file. destruct (stat s p) as [[]|]; [done|by intros [= <- _]|].
  destruct (stat s (parent p)) as [[]|]; [|done|]; by intros [= <- _].
Qed.

Lemma iterdir_raises (p : path) (s s' : fs) (e : exn) :
  iterdir p s = (Raise e, s') → is_OSError e = true.
Proof. unfold iterdir. destruct (stat s p) as [[]|]; [|done|]; by intros [= <- _]. Qed.

Lemma extractall_raises (members : list (path * entry)) (target : path) (s s' : fs)
    (e : exn) :
  extractall members target s = (Raise e, s') → is_OSError e = true.
Proof.
  unfold extractall. apply (for_each_raises _ (fun e => is_OSError e = true)).
  intros [] m s0 e0 s0' _. unfold extract_member.
  destruct (m.2); [|apply mkdir_from_raises].
  intros [Hmk|([] & s1 & _ & Hw)]%bind_Raise;
    [by apply mkdir_from_raises in Hmk|by apply write_file_raises in Hw].
Qed.

Lemma try_except_total {A : Type} (body : M A) (a : A) (s s' : fs) (e : exn) :
  try_except body (fun _ => ret a) s ≠ (Raise e, s').
Proof. unfold try_except. by destruct (body s) as [[] ?]. Qed.

Lemma extract_and_copy_raises (g : globals) (m : machine) (io : session)
    (zip_path target : path) (s s' : fs) (e : exn) :
  extract_and_copy g m io zip_path target s = (Raise e, s') →
  e = RuntimeError ∨ is_OSError e = true.
Proof.
  unfold extract_and_copy, with_tempdir.
  destruct (mkdir_parents (textures_tmpdir m) s) as [[[]|e1] s1] eqn:Hmk;
    [|intros [= <- <-]; right; by apply mkdir_from_raises in Hmk].
  match goal with |- (let '(r, s2) := ?body s1 in _) = _ → _ =>
    destruct (body s1) as [r s2] eqn:Hbody end.
  intros [= -> _].
  apply bind_Raise in Hbody as [Hrd|(archive & s3 & _ & Hbody)];
    [right; by apply read_file_raises in Hrd|].
  destruct (unzip io archive) as [members|]; [|done].
  apply bind_Raise in Hbody as [Hex|([] & s4 & _ & Hbody)].
  { destruct (unextractable m archive) as [n|];
      [|right; by apply extractall_raises in Hex].
    apply bind_Raise in Hex as [Hex|([] & s4 & _ & [= <- _])];
      [right; by apply extractall_raises in Hex|by left]. }
  apply bind_Raise in Hbody as [Hit|(entries & s5 & _ & Hbody)];
    [right; by apply iterdir_raises in Hit|].
  cbv zeta in Hbody. destruct (negb _); [done|]. by apply try_except_total in Hbody.
Qed.

Lemma verify_user_raises (crlf : bool) (user : string) (lock : path) (inputs : list string)
    (s s' : fs) (e : exn) :
  verify_user crlf user lock inputs s = (Raise e, s') → e = EOFError ∨ is_OSError e = true.
Proof.
  unfold verify_user.
  assert (∀ data (x : string * list string) s0,
            bind (save_user crlf lock data) (fun _ => ret x) s0 = (Raise e, s') →
            is_OSError e = true) as Hsave.
  { intros data x s0 [Hw|([] & s2 & _ & [=])]%bind_Raise. by apply write_file_raises in Hw. }
  intros [Hl|(saved & s1 & _ & H)]%bind_Raise.
  - right. unfold load_user in Hl.
    apply bind_Raise in Hl as [[=]|(there & s1 & _ & Hl)]. destruct there; [|done].
    apply bind_Raise in Hl as [Hrd|(text & s2 & _ & [=])]. by apply read_file_raises in Hrd.
  - assert (match read_choice inputs with
            | None => raise EOFError
            | Some (choice, rest0) =>
                if bool_decide (choice = "1")
                then let! _ := save_user crlf lock user in ret (user, rest0)
                else
                  match rest0 with
                  | [] => raise EOFError
                  | answer :: rest' =>
                      let! _ := save_user crlf lock (strip answer) in ret (strip answer, rest')
                  end
            end s1 = (Raise e, s') → e = EOFError ∨ is_OSError e = true) as Hask.
    { destruct (read_choice inputs) as [[choice rest0]|]; [|intros [= <- _]; by left].
      destruct (bool_decide (choice = "1")); [right; by eapply Hsave|].
      destruct rest0 as [|answer rest']; [intros [= <- _]; by left|right; by eapply Hsave]. }
    destruct saved as [[|a t]|]; [by apply Hask|done|by apply Hask].
Qed.

(** The exceptions of the model that leave [main] in the module as it is:
    the [EOFError] of an [input] at the end of the input, the [RuntimeError]
    of an archive member that cannot be extracted, and the [OSError]s of the
    file operations. *)
Lemma main_exceptions (m : machine) (io : session) (e : exn) (s s' : fs) :
  main module_globals m io s = (Raise e, s') →
  e = EOFError ∨ e = RuntimeError ∨ is_OSError e = true.
Proof.
  unfold main. destruct (negb (is_admin m)); [done|].
  intros [Hv|([name inputs] & s1 & _ & H)]%bind_Raise.
  { apply verify_user_raises in Hv as [->| ->]; auto. }
  simpl in H. destruct inputs as [|answer inputs]; [injection H as <- _; by left|].
  destruct (negb (accepted answer)).
  - apply bind_Raise in H as [H|([] & s2 & _ & [=])]. by apply try_except_total in H.
  - apply bind_Raise in H as [H|(located & s2 & _ & H)]; [by apply try_except_total in H|].
    destruct located as [latest|]; [|done].
    apply bind_Raise in H as [H|(found & s3 & _ & H)]; [by apply try_except_total in H|].
    destruct found as [[zip_path inputs']|]; [|done].
    apply bind_Raise in H as [H|(patched & s4 & Hp & H)];
      [right; by apply extract_and_copy_raises in H|].
    apply extract_and_copy_unbound in Hp as ->. done.
Qed.

(** The [RuntimeError] of a member that cannot be extracted does leave
    [main]: line 345 catches [BadZipFile] only.  The temporary directory is
    removed on the way out. *)
Example main_unextractable_member :
  (main module_globals desk_machine_encrypted (desk_session ["1"; "y"]) desk).1
  = Raise RuntimeError
  ∧ path_exists (main module_globals desk_machine_encrypted (desk_session ["1"; "y"]) desk).2
      ["tmp"; "textures"] = false.
Proof. split; vm_compute; reflexivity. Qed.

(** X28.  In the module as it is, the [NameError] of the patch operation
    never leaves [main], whatever the machine, the answers and the file
    system.  (After the main patch has been declined the exceptions of the
    sky patcher are caught at line 312; after it has been accepted the patch
    operation is called inside the [try] of line 360, whose handler returns,
    so that the sky patcher of line 372 is not reached.) *)
Theorem main_never_NameError (m : machine) (io : session) (name : string) (s : fs) :
  (main module_globals m io s).1 ≠ Raise (NameError name).
Proof.
  destruct (main module_globals m io s) as [r s'] eqn:E. simpl. intros ->.
  by apply main_exceptions in E as [|[|]].
Qed.

(** ** Declining the main patch *)

(** X29.  Once the main patch has been declined, [main] returns normally
    whatever happens next: every exception of the search for the client and
    of the sky patcher is caught (line 312) - also the [NameError] that ends
    the sky patcher in the module as it is, after the sky directory has been
    emptied. *)
Theorem main_declined_finishes (g : globals) (m : machine) (io : session)
    (name answer : string) (rest : list string) (s s1 : fs) :
  is_admin m = true →
  verify_user (linesep_crlf m) (getuser m) (user_lock m) (stdin io) s
  = (Return (name, answer :: rest), s1) →
  accepted answer = false →
  (main g m io s).1 = Return Finished.
Proof.
  intros Ha Hv Hacc. unfold main. rewrite Ha. simpl. unfold bind at 1. rewrite Hv. simpl.
  rewrite Hacc. simpl. unfold bind, try_except.
  by destruct (find_bloxstrap_versions _ _ s1) as [[latest|e] s2];
    [destruct (patch_custom_sky _ _ _ s2) as [[[]|e] s3]|].
Qed.

Lemma main_declined_finishes_witness :
  (main module_globals desk_machine (desk_session ["1"; "no"; "y"; "1"]) desk).1
  = Return Finished.
Proof.
  apply (main_declined_finishes module_globals desk_machine
           (desk_session ["1"; "no"; "y"; "1"]) "louis" "no" ["y"; "1"] desk
           (verify_user true "louis" lock_file ["1"; "no"; "y"; "1"] desk).2).
  - reflexivity.
  - evaluate.
  - vm_compute. reflexivity.
Defined.
